(** * A shallow embedding of the [SudokuSolver] class of [sudoku.py]

    The NumPy arrays of the source are modelled as nested lists:
    [options_3d[row][column][depth]] is a [cube], [puzzle_2d[row][column]]
    is a [grid].  Array entries are integers ([Z]); the arrays built by
    [solve] have dtype [np.byte] and only ever hold 0 and 1, and NumPy
    accumulates the sums of such an array in the platform integer, so the
    sums below are exact.  The product of the candidate-set sizes, on the
    other hand, is a 64-bit product and its wrap-around is written out
    ([wrap64]).

    Slice and index assignments ([a[sel] = v]) mutate the array in place in
    the source; here they are the state-passing function [assign].  The
    [while True] loop of [solve] takes fuel; [solve_not_diverged] shows that
    the fuel [solve] gives it is always enough.  What a call does besides
    returning (the warning of the budget abort, an exception) is part of
    its [outcome]. *)

From Stdlib Require Import ZArith List Ascii String Bool Lia DecimalString.
From stdpp Require Import base list.
Import ListNotations.

Local Open Scope nat_scope.

(** ** Arrays *)

Abbreviation grid := (list (list Z)).
Abbreviation cube := (list (list (list Z))).

(** A cell of the cube is addressed by [(row, column, depth)]. *)
Definition idx : Type := (nat * nat * nat)%type.

Definition row_at (o : cube) (r : nat) : list (list Z) := default [] (o !! r).
Definition cell_at (o : cube) (r c : nat) : list Z := default [] (row_at o r !! c).

(** [o[r, c, d]]; every index used by the source comes from an iteration
    over the array's own shape, so the out-of-range default is never read. *)
Definition get3 (o : cube) (r c d : nat) : Z := default 0%Z (cell_at o r c !! d).

Definition get2 (p : grid) (r c : nat) : Z := default 0%Z (default [] (p !! r) !! c).

(** [o[sel] = v]: every entry selected by [sel] is overwritten with [v]. *)
Definition assign (sel : nat -> nat -> nat -> bool) (v : Z) (o : cube) : cube :=
  imap (fun r => imap (fun c => imap (fun d x => if sel r c d then v else x))) o.

Definition range9 : list nat := seq 0 9.

(** [candidate_solution.shape == (9, 9, 9)] *)
Definition has_shape9 (o : cube) : bool :=
  (length o =? 9) &&
  forallb (fun row => (length row =? 9) && forallb (fun cl => length cl =? 9) row) o.

Definition shape9 (o : cube) : Prop :=
  length o = 9 /\
  Forall (fun row => length row = 9 /\ Forall (fun cl : list Z => length cl = 9) row) o.

Definition Zsum (l : list Z) : Z := foldr Z.add 0%Z l.
Definition Zprod (l : list Z) : Z := foldr Z.mul 1%Z l.

(** [a.sum(axis=2)]: one sum per (row, column). *)
Definition sum_axis2 (o : cube) : grid := map (map Zsum) o.

(** [a.sum(axis=1)[r, d]]: the sum over the columns of row [r]. *)
Definition sum_axis1 (o : cube) (r d : nat) : Z :=
  Zsum (map (fun c => get3 o r c d) range9).

(** [a.sum(axis=0)[c, d]]: the sum over the rows of column [c]. *)
Definition sum_axis0 (o : cube) (c d : nat) : Z :=
  Zsum (map (fun r => get3 o r c d) range9).

(** The cells of the slice [i:i+3, j:j+3]. *)
Definition box_cells (i j : nat) : list (nat * nat) :=
  flat_map (fun r => map (fun c => (r, c)) (seq j 3)) (seq i 3).

(** [a[i:i+3, j:j+3].sum(axis=(0, 1))[d]] *)
Definition box_sum (o : cube) (i j d : nat) : Z :=
  Zsum (map (fun rc => get3 o (fst rc) (snd rc) d) (box_cells i j)).

(** Python's [range(start, stop, step)] for a positive step; at most
    [stop] elements are produced. *)
Fixpoint range_from (fuel start stop step : nat) : list nat :=
  match fuel with
  | 0 => []
  | S fuel' =>
      if start <? stop then start :: range_from fuel' (start + step) stop step else []
  end.

Definition py_range (start stop step : nat) : list nat :=
  range_from stop start stop step.

(** ** Exceptions *)

Inductive value_error : Type :=
| InvalidLiteral       (* int() of a character that is no digit *)
| CannotReshape        (* reshape of an array whose size is not 81 *)
| BadShape             (* 'Candidate solution must be a 9x9x9 3D array.' *)
| NotOneDigit          (* 'Candidate solution does not contain exactly one digit on each field.' *)
| ZeroSizedIteration.  (* np.nditer over an empty array *)

Inductive exn : Type :=
| ValueError (why : value_error)
| TypeError
| RuntimeError.

(** ** [validate_solution] *)

Definition all_eq1 (l : list Z) : bool := forallb (fun x => (x =? 1)%Z) l.

Definition validate_solution (candidate_solution : cube) : exn + bool :=
  if negb (has_shape9 candidate_solution) then inl (ValueError BadShape)
  else if negb (forallb all_eq1 (sum_axis2 candidate_solution))
  then inl (ValueError NotOneDigit)
  else if negb (forallb (fun r => forallb (fun d =>
                   (sum_axis1 candidate_solution r d =? 1)%Z) range9) range9)
  then inr false
  else if negb (forallb (fun c => forallb (fun d =>
                   (sum_axis0 candidate_solution c d =? 1)%Z) range9) range9)
  then inr false
  else if negb (forallb (fun i => forallb (fun j => forallb (fun d =>
                   (box_sum candidate_solution i j d =? 1)%Z) range9)
                   (py_range 0 6 3)) (py_range 0 6 3))
  then inr false
  else inr true.

(** ** Conversions between strings and arrays *)

(** [int(ch)] for a one-character string.  The strings of this
    development are sequences of one-byte characters, the 256 code points
    U+0000 to U+00FF of [ascii]; among them only '0'..'9' are decimal
    digits.  Python's [int] also takes the decimal digits of other
    scripts, all of them above U+00FF: strings that hold such characters
    are not covered here, and every statement about which strings are
    accepted, rejected or printed back is a statement about strings of
    one-byte characters. *)
Definition int_of_char (ch : ascii) : option Z :=
  let n := nat_of_ascii ch in
  if (48 <=? n) && (n <=? 57) then Some (Z.of_nat (n - 48)) else None.

(** [np.array(list(sudoku), dtype=np.byte)] *)
Fixpoint np_array_byte (chars : list ascii) : exn + list Z :=
  match chars with
  | [] => inr []
  | ch :: rest =>
      match int_of_char ch with
      | None => inl (ValueError InvalidLiteral)
      | Some v =>
          match np_array_byte rest with
          | inl e => inl e
          | inr vs => inr (v :: vs)
          end
      end
  end.

Fixpoint rows_of (n : nat) (l : list Z) : grid :=
  match n with
  | 0 => []
  | S n' => take 9 l :: rows_of n' (drop 9 l)
  end.

(** [np.reshape(a, newshape=(9, 9))] *)
Definition reshape9 (l : list Z) : exn + grid :=
  if length l =? 81 then inr (rows_of 9 l) else inl (ValueError CannotReshape).

(** [np.zeros((9,9,9), dtype=np.byte)] *)
Definition zeros : cube := replicate 9 (replicate 9 (replicate 9 0%Z)).

Definition _string_to_np_puzzle (sudoku : string) : exn + (grid * cube) :=
  match np_array_byte (list_ascii_of_string sudoku) with
  | inl e => inl e
  | inr bytes =>
      match reshape9 bytes with
      | inl e => inl e
      | inr puzzle_2d =>
          (* options_3d[nonzero_indices[0], nonzero_indices[1], values] = 1 *)
          let o1 := assign (fun r c d =>
                      negb (get2 puzzle_2d r c =? 0)%Z
                      && (Z.of_nat d =? get2 puzzle_2d r c - 1)%Z) 1%Z zeros in
          (* options_3d[zero_indices[0], zero_indices[1]] = 1 *)
          let o2 := assign (fun r c _ => (get2 puzzle_2d r c =? 0)%Z) 1%Z o1 in
          inr (puzzle_2d, o2)
      end
  end.

(** [np.argmax]: the index of the first occurrence of the maximum. *)
Fixpoint argmax_from (best : Z) (bi i : nat) (l : list Z) : nat :=
  match l with
  | [] => bi
  | x :: t => if (best <? x)%Z then argmax_from x i (S i) t
              else argmax_from best bi (S i) t
  end.

Definition argmax (l : list Z) : nat :=
  match l with
  | [] => 0
  | x :: t => argmax_from x 0 1 t
  end.

(** [a.argmax(axis=2) + 1] *)
Definition argmax_plus1 (o : cube) : grid :=
  map (map (fun cl => (Z.of_nat (argmax cl) + 1)%Z)) o.

(** Python's [str] of an integer. *)
Definition py_str (z : Z) : string :=
  DecimalString.NilZero.string_of_int (Z.to_int z).

Definition _np_puzzle_to_string (np_puzzle : cube) : string :=
  String.concat "" (map py_str (concat (argmax_plus1 np_puzzle))).

(** ** The delta generator *)

Section Combinations.
Context {A : Type} (eqb : A -> A -> bool).

(** [itertools.product]: the rightmost position advances
    fastest. *)
Fixpoint product (iterables : list (list A)) : list (list A) :=
  match iterables with
  | [] => [[]]
  | l :: rest => flat_map (fun x => map (cons x) (product rest)) l
  end.

(** [tuple((p, c) for c, p in zip(comb, prev_comb) if c != p)] *)
Fixpoint changed (comb prev_comb : list A) : list (option A * A) :=
  match comb, prev_comb with
  | c :: comb', p :: prev' =>
      if eqb c p then changed comb' prev'
      else (Some p, c) :: changed comb' prev'
  | _, _ => []
  end.

Fixpoint deltas (prev_comb : list A) (combinations : list (list A))
  : list (list (option A * A)) :=
  match combinations with
  | [] => []
  | comb :: rest => changed comb prev_comb :: deltas comb rest
  end.

(** The elements the generator yields, in order.  [next(combinations)] on
    an empty product raises StopIteration inside the generator, which
    Python turns into a RuntimeError. *)
Definition _unique_combinations (iterables : list (list A))
  : exn + list (list (option A * A)) :=
  match product iterables with
  | [] => inl RuntimeError
  | comb :: rest => inr (map (fun c => (None, c)) comb :: deltas comb rest)
  end.
(** The pair a delta holds for position [i]: the previous and the current
    element there, when they differ. *)
Definition pair_at (comb prev_comb : list A) (i : nat) : option (option A * A) :=
  match comb !! i, prev_comb !! i with
  | Some c, Some p => if eqb c p then None else Some (Some p, c)
  | _, _ => None
  end.

(** The pairs at the positions where [comb] differs from [prev_comb], in
    the order of the positions. *)
Definition differing_pairs (comb prev_comb : list A) : list (option A * A) :=
  omap (pair_at comb prev_comb) (seq 0 (length comb)).

End Combinations.

(** ** [solve] *)

Definition idx_eqb (a b : idx) : bool :=
  let '(r1, c1, d1) := a in
  let '(r2, c2, d2) := b in
  (r1 =? r2) && (c1 =? c2) && (d1 =? d2).

(** The 2-D view recomputed at the end of each pass:
    [puzzle_2d = options_3d.argmax(axis=2)+1] followed by
    [puzzle_2d[options_3d.sum(axis=2) != 1] = 0]. *)
Definition puzzle_of (o : cube) : grid :=
  map (map (fun cl => if (Zsum cl =? 1)%Z then (Z.of_nat (argmax cl) + 1)%Z else 0%Z)) o.

(** The multi-indices [np.nditer] runs through on an array of shape (9, 9),
    in row-major order; [puzzle_2d] always has that shape. *)
Definition all_cells : list (nat * nat) :=
  flat_map (fun r => map (fun c => (r, c)) range9) range9.

(** [[(it.multi_index, v) for v in it if v != 0]]: the list is built
    before the pass starts and [puzzle_2d] is not written during the pass. *)
Definition known_cells (p : grid) : list (nat * nat * Z) :=
  map (fun rc => (fst rc, snd rc, get2 p (fst rc) (snd rc)))
      (List.filter (fun rc => negb (get2 p (fst rc) (snd rc) =? 0)%Z) all_cells).

Definition in_box (b0 b1 r c : nat) : bool :=
  (b0 * 3 <=? r) && (r <? b0 * 3 + 3) && (b1 * 3 <=? c) && (c <? b1 * 3 + 3).

(** The body of [for cell in known_cells]. *)
Definition eliminate (o : cube) (cell : nat * nat * Z) : cube :=
  let '(r, c, v) := cell in
  let d := Z.to_nat (v - 1) in
  let o1 := assign (fun r' _ d' => (r' =? r) && (d' =? d)) 0%Z o in
  let o2 := assign (fun _ c' d' => (c' =? c) && (d' =? d)) 0%Z o1 in
  let box := (r / 3, c / 3) in
  let o3 := assign (fun r' c' d' => in_box (fst box) (snd box) r' c' && (d' =? d)) 0%Z o2 in
  assign (fun r' c' d' => (r' =? r) && (c' =? c) && (d' =? d)) 1%Z o3.

Definition propagate_pass (p : grid) (o : cube) : cube :=
  fold_left eliminate (known_cells p) o.

Definition grid_eqb (p q : grid) : bool :=
  bool_decide (p = q).

Inductive loop_exit : Type :=
| Break (puzzle_2d : grid) (options_3d : cube)   (* left by [break] *)
| SolvedInLoop (options_3d : cube)               (* left by the [return] *)
| OutOfFuel.

(** The [while True] loop. *)
Fixpoint propagate (fuel : nat) (puzzle_2d : grid) (options_3d : cube) : loop_exit :=
  match fuel with
  | 0 => OutOfFuel
  | S fuel' =>
      let prev_puzzle_2d := puzzle_2d in
      let options_3d := propagate_pass puzzle_2d options_3d in
      let puzzle_2d := puzzle_of options_3d in
      if grid_eqb puzzle_2d prev_puzzle_2d then Break puzzle_2d options_3d
      else if (Zsum (concat puzzle_2d) =? 9 * 45)%Z then SolvedInLoop options_3d
      else propagate fuel' puzzle_2d options_3d
  end.

(** A signed 64-bit integer keeps the low 64 bits of a result. *)
Definition wrap64 (z : Z) : Z := ((z + 2 ^ 63) mod 2 ^ 64 - 2 ^ 63)%Z.

(** The product of the candidate-set sizes, without the machine width. *)
Definition exact_possibilities (o : cube) : Z := Zprod (concat (sum_axis2 o)).

(** [options_3d.sum(axis=2).prod()] *)
Definition num_possibilities (o : cube) : Z := wrap64 (exact_possibilities o).

(** [np.where(options_3d[r, c, :] == 1)[0]] *)
Definition where1 (cl : list Z) : list nat :=
  List.filter (fun d => (default 0%Z (cl !! d) =? 1)%Z) (seq 0 (length cl)).

(** The comprehension that builds [options_idx]: [np.nditer] refuses an
    array of size zero. *)
Definition cell_options (o : cube) (rc : nat * nat) : exn + list idx :=
  match where1 (cell_at o (fst rc) (snd rc)) with
  | [] => inl (ValueError ZeroSizedIteration)
  | ds => inr (map (fun d => (fst rc, snd rc, d)) ds)
  end.

(** The multi-indices of [for v in it if v == 0]. *)
Definition unknown_cells (p : grid) : list (nat * nat) :=
  List.filter (fun rc => (get2 p (fst rc) (snd rc) =? 0)%Z) all_cells.

Fixpoint collect {E B : Type} (l : list (E + B)) : E + list B :=
  match l with
  | [] => inr []
  | inl e :: _ => inl e
  | inr b :: rest =>
      match collect rest with
      | inl e => inl e
      | inr bs => inr (b :: bs)
      end
  end.

Definition options_idx (p : grid) (o : cube) : exn + list (list idx) :=
  collect (map (cell_options o) (unknown_cells p)).

(** What a call of [solve] does: it returns a digit string, warns and
    returns [None], falls off its end (returning [None] without a warning),
    or raises. *)
Inductive outcome : Type :=
| Returned (solution : string)
| Aborted
| Exhausted
| Raised (e : exn)
| Diverged.

(** The value handed to the caller, when there is one. *)
Definition return_value (out : outcome) : option (option string) :=
  match out with
  | Returned s => Some (Some s)
  | Aborted | Exhausted => Some None
  | Raised _ | Diverged => None
  end.

(** The body of [for idx in next(generator)]: the cell is cleared along the
    digit axis and the digit of [idx[1]] is set. *)
Definition write_digit (o : cube) (x : idx) : cube :=
  let '(r, c, d) := x in
  let o1 := assign (fun r' c' _ => (r' =? r) && (c' =? c)) 0%Z o in
  assign (fun r' c' d' => idx_eqb (r', c', d') (r, c, d)) 1%Z o1.

Definition set_first (o : cube) (first : list (option idx * idx)) : cube :=
  fold_left (fun o pc => write_digit o (snd pc)) first o.

(** [for idx in changes]; [unpacking [None] as an index] is a TypeError. *)
Fixpoint apply_changes (o : cube) (changes : list (option idx * idx)) : exn + cube :=
  match changes with
  | [] => inr o
  | (None, _) :: _ => inl TypeError
  | (Some prev, cur) :: rest =>
      let o1 := assign (fun r c d => idx_eqb (r, c, d) prev) 0%Z o in
      let o2 := assign (fun r c d => idx_eqb (r, c, d) cur) 1%Z o1 in
      apply_changes o2 rest
  end.

(** [for changes in generator] *)
Fixpoint search_rest (o : cube) (generator : list (list (option idx * idx))) : outcome :=
  match generator with
  | [] => Exhausted
  | changes :: generator' =>
      match apply_changes o changes with
      | inl e => Raised e
      | inr o' =>
          match validate_solution o' with
          | inl e => Raised e
          | inr true => Returned (_np_puzzle_to_string o')
          | inr false => search_rest o' generator'
          end
      end
  end.

(** Everything from the construction of [options_idx] to the end. *)
Definition search (puzzle_2d : grid) (options_3d : cube) : outcome :=
  match options_idx puzzle_2d options_3d with
  | inl e => Raised e
  | inr lists =>
      match _unique_combinations idx_eqb lists with
      | inl e => Raised e
      | inr [] => Raised RuntimeError
      | inr (first :: generator) =>
          let o := set_first options_3d first in
          match validate_solution o with
          | inl e => Raised e
          | inr true => Returned (_np_puzzle_to_string o)
          | inr false => search_rest o generator
          end
      end
  end.

(** The three ways past the propagation loop. *)
Inductive gate : Type :=
| Unique       (* num_possibilities == 1 *)
| OverBudget   (* num_possibilities >= max_iterations or num_possibilities < 0 *)
| Enumerate.

Definition budget_gate (options_3d : cube) (max_iterations : Z) : gate :=
  let n := num_possibilities options_3d in
  if (n =? 1)%Z then Unique
  else if (n >=? max_iterations)%Z || (n <? 0)%Z then OverBudget
  else Enumerate.

(** Each pass that does not end the loop clears at least one of the 729
    bits ([loop_step]), so 730 turns are never used up. *)
Definition loop_fuel : nat := 730.

Definition solve (unsolved_sudoku : string) (max_iterations : Z) : outcome :=
  match _string_to_np_puzzle unsolved_sudoku with
  | inl e => Raised e
  | inr (puzzle_2d, options_3d) =>
      match propagate loop_fuel puzzle_2d options_3d with
      | OutOfFuel => Diverged
      | SolvedInLoop options_3d => Returned (_np_puzzle_to_string options_3d)
      | Break puzzle_2d options_3d =>
          match budget_gate options_3d max_iterations with
          | Unique => Returned (_np_puzzle_to_string options_3d)
          | OverBudget => Aborted
          | Enumerate => search puzzle_2d options_3d
          end
      end
  end.

Definition default_max_iterations : Z := 10000000.

(** ** Predicates and auxiliary definitions used in the statements *)

Definition cells_one (o : cube) : Prop :=
  forall r c, r < 9 -> c < 9 -> Zsum (cell_at o r c) = 1%Z.

Definition rows_one (o : cube) : Prop :=
  forall r d, r < 9 -> d < 9 -> sum_axis1 o r d = 1%Z.

Definition cols_one (o : cube) : Prop :=
  forall c d, c < 9 -> d < 9 -> sum_axis0 o c d = 1%Z.

(** The four boxes the loops of [validate_solution] visit. *)
Definition checked_boxes_one (o : cube) : Prop :=
  forall i j d, In i [0; 3] -> In j [0; 3] -> d < 9 -> box_sum o i j d = 1%Z.

Ltac unfold_sums :=
  unfold sum_axis1, sum_axis0, box_sum, box_cells, range9 in *;
  cbn [seq map flat_map app Zsum foldr fst snd Nat.mul Nat.add] in *.

(** The indicator arrays: every entry is 0 or 1. *)
Definition indicator (o : cube) : Prop :=
  forall r c d, r < 9 -> c < 9 -> d < 9 -> get3 o r c d = 0%Z \/ get3 o r c d = 1%Z.

(** The number of digits set in a cell. *)
Definition digits_set (o : cube) (r c : nat) : nat :=
  length (List.filter (fun d => negb (get3 o r c d =? 0)%Z) range9).

Definition same_box (r1 c1 r2 c2 : nat) : Prop :=
  r1 / 3 = r2 / 3 /\ c1 / 3 = c2 / 3.

(** Exactly one digit set in every cell. *)
Definition one_hot (o : cube) : Prop :=
  indicator o /\ forall r c, r < 9 -> c < 9 -> digits_set o r c = 1.

(** All nine boxes hold every digit once. *)
Definition boxes_one (o : cube) : Prop :=
  forall bi bj d, bi < 3 -> bj < 3 -> d < 9 -> box_sum o (3 * bi) (3 * bj) d = 1%Z.

(** Decision procedures for the hypotheses, used on concrete arrays. *)
Definition indicatorb (o : cube) : bool :=
  forallb (fun r => forallb (fun c => forallb (fun d =>
    (get3 o r c d =? 0)%Z || (get3 o r c d =? 1)%Z) range9) range9) range9.

Definition single_digitsb (o : cube) : bool :=
  forallb (fun r => forallb (fun c => digits_set o r c =? 1) range9) range9.

(** The 3-D array [_string_to_np_puzzle] builds for a string, or the empty
    array when the string is rejected. *)
Definition options_of_string (s : string) : cube :=
  match _string_to_np_puzzle s with
  | inr (_, o) => o
  | inl _ => []
  end.

(** A completed grid, and the same grid with the 5 of its first cell
    replaced by the 3 next to it. *)
Definition solved_grid : string :=
  "534678912672195348198342567859761423426853791713924856961537284287419635345286179".

Definition box_duplicate_grid : string :=
  "334678912672195348198342567859761423426853791713924856961537284287419635345286179".

(** The array of the solved grid with the first cell overwritten by the
    entries 2, -1, 0, ..., 0: not an indicator array, two entries of the
    cell are set, and they sum to 1. *)
Definition off_indicator_cube : cube :=
  assign (fun r c d => idx_eqb (r, c, d) (0, 0, 1)) (-1)%Z
    (assign (fun r c d => idx_eqb (r, c, d) (0, 0, 0)) 2%Z
       (assign (fun r c _ => (r =? 0) && (c =? 0)) 0%Z (options_of_string solved_grid))).

(** The characters '0'..'9'. *)
Definition is_digit (ch : ascii) : bool :=
  (48 <=? nat_of_ascii ch) && (nat_of_ascii ch <=? 57).

(** A string is malformed when its length is not 81 or one of its
    characters is not a digit. *)
Definition malformed (s : string) : Prop :=
  String.length s <> 81 \/
  exists ch, In ch (list_ascii_of_string s) /\ is_digit ch = false.

(** The solved grid with its first cell blanked, once with '0' and once
    with '.'. *)
Definition zero_blank_grid : string :=
  "034678912672195348198342567859761423426853791713924856961537284287419635345286179".

Definition dot_blank_grid : string :=
  ".34678912672195348198342567859761423426853791713924856961537284287419635345286179".

Definition nonzero (x : Z) : bool := negb (x =? 0)%Z.

Definition cell_of (x : idx) : nat * nat := (fst (fst x), snd (fst x)).

(** A combination as the first element of the generator presents it. *)
Definition plain (comb : list idx) : list (option idx * idx) :=
  map (fun c => (None, c)) comb.

(** The array with a whole combination written into it. *)
Definition write_all (o : cube) (comb : list idx) : cube :=
  fold_left write_digit comb o.

(** The digit a combination writes into cell [(r, c)], if it writes one;
    a later element overrides an earlier one. *)
Fixpoint written (comb : list idx) (r c : nat) : option nat :=
  match comb with
  | [] => None
  | (r0, c0, d0) :: rest =>
      match written rest r c with
      | Some d => Some d
      | None => if (r =? r0) && (c =? c0) then Some d0 else None
      end
  end.

(** The candidate lists of distinct cells: the list for a cell is not
    empty and holds (cell, digit) triples of that cell only. *)
Definition per_cell (cells : list (nat * nat)) (lists : list (list idx)) : Prop :=
  Forall2 (fun cell l => l <> [] /\ forall x, In x l -> cell_of x = cell) cells lists.

(** The consumer of the generator, as [solve] writes it, without the
    validation: the first element is written whole, every later element is
    a list of retract-and-set pairs. *)
Fixpoint replay_rest (o : cube) (generator : list (list (option idx * idx))) : exn + cube :=
  match generator with
  | [] => inr o
  | changes :: generator' =>
      match apply_changes o changes with
      | inl e => inl e
      | inr o' => replay_rest o' generator'
      end
  end.

Definition replay (o : cube) (yields : list (list (option idx * idx))) : exn + cube :=
  match yields with
  | [] => inr o
  | first :: generator => replay_rest (set_first o first) generator
  end.

(** Entries between 0 and those of a reference array. *)
Definition bounded_by (o0 o : cube) : Prop :=
  forall r c d, r < 9 -> c < 9 -> d < 9 -> (0 <= get3 o r c d <= get3 o0 r c d)%Z.

(** Every known cell of the digit grid has its digit among the candidates. *)
Definition known_ok (p : grid) (o : cube) : Prop :=
  forall r c v, In (r, c, v) (known_cells p) -> get3 o r c (Z.to_nat (v - 1)) = 1%Z.

Definition grid9 (p : grid) : Prop :=
  length p = 9 /\ Forall (fun row : list Z => length row = 9) p.

(** The state at the head of the loop: the digit grid is the 2-D view of
    the candidate array. *)
Definition loop_inv (p : grid) (o : cube) : Prop :=
  shape9 o /\ indicator o /\ p = puzzle_of o.

(** The number of candidate bits set in the whole array. *)
Definition total (o : cube) : Z :=
  Zsum (map (fun rc => Zsum (map (get3 o (fst rc) (snd rc)) range9)) all_cells).

(** A puzzle whose givens are consistent and leave eight cells with the
    candidates 1 and 2 each, in a pattern no assignment satisfies. *)
Definition unsatisfiable_grid : string :=
  "097063584506804739348597612079608453405039876863475291981742365652381947734956128".

(** The state after [n] turns of the loop body, exits ignored: the states
    the loop of [solve] goes through are among them. *)
Fixpoint after_passes (n : nat) (p : grid) (o : cube) : grid * cube :=
  match n with
  | 0 => (p, o)
  | S n' => after_passes n' (puzzle_of (propagate_pass p o)) (propagate_pass p o)
  end.

(** Every full pass only clears bits, and the bit a known cell sets back
    was set when the pass began. *)
Definition passes_only_clear (p : grid) (o : cube) : Prop :=
  forall n pn on, after_passes n p o = (pn, on) ->
    known_ok pn on
    /\ forall r c, r < 9 -> c < 9 ->
         (forall d, d < 9 -> (get3 (propagate_pass pn on) r c d <= get3 on r c d)%Z)
         /\ digits_set (propagate_pass pn on) r c <= digits_set on r c.

(** Every array the search holds after consuming k+1 elements of the
    generator has its bits among the candidates left by propagation, and
    one digit in each unknown cell. *)
Definition search_only_narrows (p : grid) (o : cube) : Prop :=
  forall p' o' lists k comb,
    propagate loop_fuel p o = Break p' o' ->
    options_idx p' o' = inr lists ->
    product lists !! k = Some comb ->
    exists yields ok,
      _unique_combinations idx_eqb lists = inr yields
      /\ replay o' (take (S k) yields) = inr ok
      /\ forall r c, r < 9 -> c < 9 ->
           (forall d, d < 9 -> (get3 ok r c d <= get3 o' r c d)%Z)
           /\ digits_set ok r c <= digits_set o' r c
           /\ (get2 p' r c = 0%Z -> digits_set ok r c = 1).

(** The 2-D array [_string_to_np_puzzle] builds for a string. *)
Definition puzzle_of_string (s : string) : grid :=
  match _string_to_np_puzzle s with
  | inr (p, _) => p
  | inl _ => []
  end.

(** Two 1s in the first row, every other cell blank. *)
Definition twin_ones_grid : string :=
  "110000000000000000000000000000000000000000000000000000000000000000000000000000000".

(** The givens 1, 2, 3 in the first three cells, every other cell blank. *)
Definition three_givens_grid : string :=
  "123000000000000000000000000000000000000000000000000000000000000000000000000000000".

Definition empty_grid : string :=
  "000000000000000000000000000000000000000000000000000000000000000000000000000000000".

Definition two_givens_grid : string :=
  "120000000000000000000000000000000000000000000000000000000000000000000000000000000".

(** The state in which the loop of [solve] breaks on a string. *)
Definition break_state (s : string) : grid * cube :=
  match propagate loop_fuel (puzzle_of_string s) (options_of_string s) with
  | Break p' o' => (p', o')
  | _ => ([], [])
  end.

(** ** The other entry points and the predicates of their properties *)

Definition validate_solution_list_or_string (candidate_solution : string) : exn + bool :=
  match _string_to_np_puzzle candidate_solution with
  | inl e => inl e
  | inr (_, candidate_3d) => validate_solution candidate_3d
  end.

(** A complete grid: 81 characters, each one of '1'..'9'. *)
Definition complete (s : string) : Prop :=
  String.length s = 81 /\
  forall ch, In ch (list_ascii_of_string s) -> is_digit ch = true /\ ch <> "0"%char.

Definition completeb (s : string) : bool :=
  (String.length s =? 81)
  && forallb (fun ch => is_digit ch && negb (Ascii.eqb ch "0"%char)) (list_ascii_of_string s).

(** The number of times [v] occurs in a list of digits. *)
Definition count_in (v : Z) (l : list Z) : nat := length (List.filter (Z.eqb v) l).

Definition row_digits (p : grid) (r : nat) : list Z := map (fun c => get2 p r c) range9.
Definition col_digits (p : grid) (c : nat) : list Z := map (fun r => get2 p r c) range9.
Definition box_digits (p : grid) (bi bj : nat) : list Z :=
  map (fun rc => get2 p (fst rc) (snd rc)) (box_cells (3 * bi) (3 * bj)).

(** The rules of the game on a digit grid: every digit 1..9 once in every
    row, every column and every box. *)
Definition valid_grid (p : grid) : Prop :=
  forall v, (1 <= v <= 9)%Z ->
    (forall r, r < 9 -> count_in v (row_digits p r) = 1)
    /\ (forall c, c < 9 -> count_in v (col_digits p c) = 1)
    /\ (forall bi bj, bi < 3 -> bj < 3 -> count_in v (box_digits p bi bj) = 1).

Definition digits19 : list Z := map (fun d => (Z.of_nat d + 1)%Z) range9.

Definition valid_gridb (p : grid) : bool :=
  forallb (fun v =>
    forallb (fun r => count_in v (row_digits p r) =? 1) range9
    && forallb (fun c => count_in v (col_digits p c) =? 1) range9
    && forallb (fun bi => forallb (fun bj => count_in v (box_digits p bi bj) =? 1) (seq 0 3))
         (seq 0 3)) digits19.

(** What [_np_puzzle_to_string] makes of the characters of an accepted
    string: a '0' comes back as '1'. *)
Definition blank_to_one (ch : ascii) : ascii :=
  if Ascii.eqb ch "0"%char then "1"%char else ch.

Fixpoint string_map (f : ascii -> ascii) (s : string) : string :=
  match s with
  | EmptyString => EmptyString
  | String ch rest => String (f ch) (string_map f rest)
  end.

Definition blank_value (v : Z) : Z := if (v =? 0)%Z then 1%Z else v.

(** The test [if self.validate_solution(options_3d)] of the search. *)
Definition validates (o : cube) : bool :=
  match validate_solution o with
  | inr true => true
  | _ => false
  end.

(** The first combination, in the order of [itertools.product], whose
    array passes the validator. *)
Definition first_valid (o : cube) (combs : list (list idx)) : option (list idx) :=
  List.find (fun comb => validates (write_all o comb)) combs.

(** The solved grid with the cells (0,3), (0,4), (3,3) and (3,4) blanked:
    the digits 6 and 7 fit there in two ways. *)
Definition two_solutions_grid : string :=
  "534008912672195348198342567859001423426853791713924856961537284287419635345286179".

(** A solution: an array of shape (9, 9, 9) with one digit in every cell
    that [validate_solution] accepts. *)
Definition solution (S : cube) : Prop :=
  shape9 S /\ one_hot S /\ validate_solution S = inr true.

Definition solutionb (S : cube) : bool :=
  has_shape9 S && indicatorb S && single_digitsb S && validates S.

(** The combination that writes the digits of [S] into the given cells. *)
Definition combination_of (S : cube) (cells : list (nat * nat)) : list idx :=
  map (fun rc => (fst rc, snd rc, argmax (cell_at S (fst rc) (snd rc)))) cells.

(** The candidate lists of the unknown cells, in the order of the cells. *)
Definition candidate_lists (p : grid) (o : cube) : list (list idx) :=
  map (fun rc => map (fun d => (fst rc, snd rc, d)) (where1 (cell_at o (fst rc) (snd rc))))
      (unknown_cells p).

Definition bounded_byb (o0 o : cube) : bool :=
  forallb (fun r => forallb (fun c => forallb (fun d =>
    (0 <=? get3 o r c d)%Z && (get3 o r c d <=? get3 o0 r c d)%Z) range9) range9) range9.

(** The number of combinations [itertools.product] yields. *)
Definition product_size {A : Type} (iterables : list (list A)) : nat :=
  fold_right (fun l n => length l * n) 1 iterables.

(** The [k]-th combination of the Cartesian product, counted from 0, with
    the rightmost position advancing fastest: position [i] holds the
    element of the [i]-th iterable at the [i]-th digit of [k] written in
    the mixed radix of the lengths. *)
Fixpoint nth_combination {A : Type} (iterables : list (list A)) (k : nat) : option (list A) :=
  match iterables with
  | [] => Some []
  | l :: rest =>
      match l !! (k / product_size rest), nth_combination rest (k mod product_size rest) with
      | Some x, Some comb => Some (x :: comb)
      | _, _ => None
      end
  end.

(** The pairs (previous, current) at the positions where two combinations
    hold different elements, in the order of the positions. *)
Definition differences (comb prev : list idx) : list (option idx * idx) :=
  omap (fun i => match comb !! i, prev !! i with
                 | Some c, Some p => if decide (c = p) then None else Some (Some p, c)
                 | _, _ => None
                 end) (seq 0 (length comb)).

(** What the body of the elimination loop writes into entry [(r, c, d)]
    for one known cell, if it writes there. *)
Definition touch (cell : nat * nat * Z) (r c d : nat) : option Z :=
  let '(r0, c0, v) := cell in
  let d0 := Z.to_nat (v - 1) in
  if (r =? r0) && (c =? c0) && (d =? d0) then Some 1%Z
  else if (in_box (r0 / 3) (c0 / 3) r c || (c =? c0) || (r =? r0)) && (d =? d0)
       then Some 0%Z
       else None.

(** The last write of a pass over [cells] into entry [(r, c, d)]. *)
Fixpoint last_touch (cells : list (nat * nat * Z)) (r c d : nat) : option Z :=
  match cells with
  | [] => None
  | cell :: rest =>
      match last_touch rest r c d with
      | Some v => Some v
      | None => touch cell r c d
      end
  end.

(** * Properties *)

(** ** Reading and writing cubes of shape (9, 9, 9) *)

Lemma has_shape9_spec (o : cube) : has_shape9 o = true <-> shape9 o.
Proof.
  unfold has_shape9, shape9.
  rewrite andb_true_iff, Nat.eqb_eq, forallb_forall, List.Forall_forall.
  split; intros [Hlen Hrows]; split; auto; intros row Hin.
  - specialize (Hrows row Hin).
    rewrite andb_true_iff, Nat.eqb_eq, forallb_forall in Hrows.
    destruct Hrows as [Hr Hcl]. split; auto.
    rewrite List.Forall_forall. intros cl Hcl'. apply Nat.eqb_eq. auto.
  - destruct (Hrows row Hin) as [Hr Hcl].
    rewrite andb_true_iff, Nat.eqb_eq, forallb_forall. split; auto.
    rewrite List.Forall_forall in Hcl. intros cl Hcl'. apply Nat.eqb_eq. auto.
Qed.

Lemma shape9_row (o : cube) (r : nat) :
  shape9 o -> r < 9 ->
  exists row, o !! r = Some row /\ length row = 9 /\
              Forall (fun cl : list Z => length cl = 9) row.
Proof.
  intros [Hlen Hrows] Hr.
  destruct (lookup_lt_is_Some_2 o r) as [row Hrow]; [lia|].
  exists row. split; auto.
  rewrite Forall_lookup in Hrows. exact (Hrows r row Hrow).
Qed.

Lemma shape9_cell (o : cube) (r c : nat) :
  shape9 o -> r < 9 -> c < 9 ->
  exists row cl, o !! r = Some row /\ row !! c = Some cl /\ length cl = 9.
Proof.
  intros Hs Hr Hc.
  destruct (shape9_row o r Hs Hr) as (row & Hrow & Hlen & Hcells).
  destruct (lookup_lt_is_Some_2 row c) as [cl Hcl]; [lia|].
  exists row, cl. repeat split; auto.
  rewrite Forall_lookup in Hcells. exact (Hcells c cl Hcl).
Qed.

Lemma shape9_cell_at (o : cube) (r c : nat) :
  shape9 o -> r < 9 -> c < 9 -> length (cell_at o r c) = 9.
Proof.
  intros Hs Hr Hc.
  destruct (shape9_cell o r c Hs Hr Hc) as (row & cl & Hrow & Hcl & Hlen).
  unfold cell_at, row_at. rewrite Hrow. simpl. rewrite Hcl. exact Hlen.
Qed.

Lemma shape9_assign (sel : nat -> nat -> nat -> bool) (v : Z) (o : cube) :
  shape9 o -> shape9 (assign sel v o).
Proof.
  intros [Hlen Hrows]. unfold assign. split.
  - rewrite length_imap. exact Hlen.
  - rewrite Forall_lookup. intros r row Hrow.
    apply list_lookup_imap_Some in Hrow. destruct Hrow as (row0 & Hr0 & ->).
    rewrite Forall_lookup in Hrows. destruct (Hrows r row0 Hr0) as [Hl Hcells].
    split; [rewrite length_imap; exact Hl|].
    rewrite Forall_lookup. intros c cl Hcl.
    apply list_lookup_imap_Some in Hcl. destruct Hcl as (cl0 & Hc0 & ->).
    rewrite length_imap.
    rewrite Forall_lookup in Hcells. exact (Hcells c cl0 Hc0).
Qed.

Lemma cell_at_assign (sel : nat -> nat -> nat -> bool) (v : Z) (o : cube) (r c : nat) :
  cell_at (assign sel v o) r c =
  imap (fun d x => if sel r c d then v else x) (cell_at o r c).
Proof.
  unfold cell_at, row_at, assign.
  rewrite list_lookup_imap.
  destruct (o !! r) as [row|]; simpl; [|reflexivity].
  rewrite list_lookup_imap.
  destruct (row !! c) as [cl|]; reflexivity.
Qed.

Lemma get3_assign (sel : nat -> nat -> nat -> bool) (v : Z) (o : cube) (r c d : nat) :
  shape9 o -> r < 9 -> c < 9 -> d < 9 ->
  get3 (assign sel v o) r c d = if sel r c d then v else get3 o r c d.
Proof.
  intros Hs Hr Hc Hd. unfold get3. rewrite cell_at_assign, list_lookup_imap.
  pose proof (shape9_cell_at o r c Hs Hr Hc) as Hlen.
  destruct (lookup_lt_is_Some_2 (cell_at o r c) d) as [x Hx]; [lia|].
  rewrite Hx. reflexivity.
Qed.

Lemma cell_ext (l1 l2 : list Z) :
  length l1 = 9 -> length l2 = 9 ->
  (forall d, d < 9 -> default 0%Z (l1 !! d) = default 0%Z (l2 !! d)) -> l1 = l2.
Proof.
  intros H1 H2 Hall. apply (list_eq_same_length l1 l2 9); auto.
  intros d x y Hd Hx Hy. specialize (Hall d Hd). rewrite Hx, Hy in Hall. exact Hall.
Qed.

(** Two cubes of shape (9, 9, 9) with the same entries are the same cube. *)
Lemma cube_ext (o1 o2 : cube) :
  shape9 o1 -> shape9 o2 ->
  (forall r c d, r < 9 -> c < 9 -> d < 9 -> get3 o1 r c d = get3 o2 r c d) ->
  o1 = o2.
Proof.
  intros Hs1 Hs2 Hall.
  apply (list_eq_same_length o1 o2 9); [apply Hs2 | apply Hs1 |].
  intros r row1 row2 Hr Hrow1 Hrow2.
  destruct (shape9_row o1 r Hs1 Hr) as (row1' & E1 & Hl1 & Hc1).
  destruct (shape9_row o2 r Hs2 Hr) as (row2' & E2 & Hl2 & Hc2).
  assert (row1' = row1) by congruence. assert (row2' = row2) by congruence. subst row1' row2'.
  apply (list_eq_same_length row1 row2 9); auto.
  intros c cl1 cl2 Hc Hcl1 Hcl2.
  rewrite Forall_lookup in Hc1, Hc2.
  apply cell_ext; [exact (Hc1 c cl1 Hcl1) | exact (Hc2 c cl2 Hcl2) |].
  intros d Hd. specialize (Hall r c d Hr Hc Hd).
  unfold get3, cell_at, row_at in Hall.
  rewrite Hrow1, Hrow2 in Hall. simpl in Hall. rewrite Hcl1, Hcl2 in Hall. exact Hall.
Qed.

(** The entries of a cell, listed. *)
Lemma cell_at_entries (o : cube) (r c : nat) :
  shape9 o -> r < 9 -> c < 9 ->
  cell_at o r c = map (get3 o r c) range9.
Proof.
  intros Hs Hr Hc. pose proof (shape9_cell_at o r c Hs Hr Hc) as Hlen.
  unfold get3. destruct (cell_at o r c) as [|x0 [|x1 [|x2 [|x3 [|x4 [|x5 [|x6 [|x7 [|x8 [|]]]]]]]]]];
    simpl in Hlen; try discriminate. reflexivity.
Qed.

(** ** The checks of [validate_solution], as propositions *)

Lemma forallb_range9 (f : nat -> bool) :
  forallb f range9 = true <-> forall i, i < 9 -> f i = true.
Proof.
  unfold range9. rewrite forallb_forall. split; intros H i Hi.
  - apply H, in_seq. lia.
  - apply H. apply in_seq in Hi. lia.
Qed.

Lemma py_range_0_6_3 : py_range 0 6 3 = [0; 3].
Proof. reflexivity. Qed.

Lemma cells_check_spec (o : cube) :
  shape9 o -> (forallb all_eq1 (sum_axis2 o) = true <-> cells_one o).
Proof.
  intros Hs. unfold sum_axis2, all_eq1, cells_one.
  rewrite forallb_forall. split.
  - intros H r c Hr Hc.
    destruct (shape9_cell o r c Hs Hr Hc) as (row & cl & Hrow & Hcl & _).
    unfold cell_at, row_at. rewrite Hrow. simpl. rewrite Hcl. simpl.
    assert (Hin : In (map Zsum row) (map (map Zsum) o)).
    { apply in_map. apply list_elem_of_In, list_elem_of_lookup. eauto. }
    specialize (H _ Hin). rewrite forallb_forall in H.
    apply Z.eqb_eq, H, in_map. apply list_elem_of_In, list_elem_of_lookup. eauto.
  - intros H sums Hin. apply in_map_iff in Hin. destruct Hin as (row & <- & Hin).
    apply list_elem_of_In, list_elem_of_lookup in Hin. destruct Hin as [r Hrow].
    assert (Hr : r < 9) by (destruct Hs as [Hl _]; rewrite <- Hl; eapply lookup_lt_Some; eauto).
    destruct (shape9_row o r Hs Hr) as (row' & Hrow' & Hlen & _).
    assert (row' = row) by congruence. subst row'.
    rewrite forallb_forall. intros s Hs'. apply in_map_iff in Hs'.
    destruct Hs' as (cl & <- & Hcl).
    apply list_elem_of_In, list_elem_of_lookup in Hcl. destruct Hcl as [c Hcl].
    assert (Hc : c < 9) by (rewrite <- Hlen; eapply lookup_lt_Some; eauto).
    apply Z.eqb_eq. specialize (H r c Hr Hc).
    unfold cell_at, row_at in H. rewrite Hrow in H. simpl in H. rewrite Hcl in H. exact H.
Qed.

Lemma rows_check_spec (o : cube) :
  forallb (fun r => forallb (fun d => (sum_axis1 o r d =? 1)%Z) range9) range9 = true
  <-> rows_one o.
Proof.
  rewrite forallb_range9. unfold rows_one. split.
  - intros H r d Hr Hd. specialize (H r Hr). rewrite forallb_range9 in H.
    apply Z.eqb_eq. auto.
  - intros H r Hr. rewrite forallb_range9. intros d Hd. apply Z.eqb_eq. auto.
Qed.

Lemma cols_check_spec (o : cube) :
  forallb (fun c => forallb (fun d => (sum_axis0 o c d =? 1)%Z) range9) range9 = true
  <-> cols_one o.
Proof.
  rewrite forallb_range9. unfold cols_one. split.
  - intros H c d Hc Hd. specialize (H c Hc). rewrite forallb_range9 in H.
    apply Z.eqb_eq. auto.
  - intros H c Hc. rewrite forallb_range9. intros d Hd. apply Z.eqb_eq. auto.
Qed.

Lemma boxes_check_spec (o : cube) :
  forallb (fun i => forallb (fun j => forallb (fun d => (box_sum o i j d =? 1)%Z) range9)
             (py_range 0 6 3)) (py_range 0 6 3) = true
  <-> checked_boxes_one o.
Proof.
  rewrite py_range_0_6_3. unfold checked_boxes_one.
  rewrite forallb_forall. split.
  - intros H i j d Hi Hj Hd. specialize (H i Hi). rewrite forallb_forall in H.
    specialize (H j Hj). rewrite forallb_range9 in H. apply Z.eqb_eq. auto.
  - intros H i Hi. rewrite forallb_forall. intros j Hj. rewrite forallb_range9.
    intros d Hd. apply Z.eqb_eq. auto.
Qed.

(** On a cube of the right shape [validate_solution] raises exactly when
    some cell's sum along the digit axis is not 1. *)
Lemma validate_solution_raises (o : cube) :
  shape9 o -> ~ cells_one o -> validate_solution o = inl (ValueError NotOneDigit).
Proof.
  intros Hs Hn. unfold validate_solution.
  apply has_shape9_spec in Hs as Hb. rewrite Hb. cbn [negb].
  destruct (forallb all_eq1 (sum_axis2 o)) eqn:E; [|reflexivity].
  apply cells_check_spec in E; tauto.
Qed.

(** Otherwise it returns a boolean, [True] exactly when the three legality
    checks pass. *)
Lemma validate_solution_returns (o : cube) :
  shape9 o -> cells_one o ->
  exists b, validate_solution o = inr b /\
            (b = true <-> rows_one o /\ cols_one o /\ checked_boxes_one o).
Proof.
  intros Hs Hc. unfold validate_solution.
  apply has_shape9_spec in Hs as Hb. rewrite Hb. cbn [negb].
  apply cells_check_spec in Hc; auto. rewrite Hc. cbn [negb].
  pose proof (rows_check_spec o) as Hrows.
  pose proof (cols_check_spec o) as Hcols.
  pose proof (boxes_check_spec o) as Hboxes.
  destruct (forallb (fun r => forallb (fun d => (sum_axis1 o r d =? 1)%Z) range9) range9)
    eqn:E1; cbn [negb].
  2:{ exists false. split; auto. split; [discriminate|]. intros (H & _ & _).
      apply Hrows in H. congruence. }
  destruct (forallb (fun c => forallb (fun d => (sum_axis0 o c d =? 1)%Z) range9) range9)
    eqn:E2; cbn [negb].
  2:{ exists false. split; auto. split; [discriminate|]. intros (_ & H & _).
      apply Hcols in H. congruence. }
  destruct (forallb (fun i => forallb (fun j => forallb (fun d =>
              (box_sum o i j d =? 1)%Z) range9) (py_range 0 6 3)) (py_range 0 6 3))
    eqn:E3; cbn [negb].
  2:{ exists false. split; auto. split; [discriminate|]. intros (_ & _ & H).
      apply Hboxes in H. congruence. }
  exists true. split; auto. split; auto. intros _.
  repeat split; [apply Hrows | apply Hcols | apply Hboxes]; reflexivity.
Qed.

(** ** The five boxes the loops skip

    [range(0, 6, 3)] visits the offsets 0 and 3 only, so the boxes of the
    last band and of the last stack are never summed.  Their sums are
    determined by the row sums, the column sums and the four boxes that are
    visited. *)

Lemma all_boxes_one (o : cube) :
  rows_one o -> cols_one o -> checked_boxes_one o ->
  forall bi bj d, bi < 3 -> bj < 3 -> d < 9 -> box_sum o (3 * bi) (3 * bj) d = 1%Z.
Proof.
  intros Hrows Hcols Hboxes bi bj d Hbi Hbj Hd.
  pose proof (Hrows 0 d ltac:(lia) Hd) as R0. pose proof (Hrows 1 d ltac:(lia) Hd) as R1.
  pose proof (Hrows 2 d ltac:(lia) Hd) as R2. pose proof (Hrows 3 d ltac:(lia) Hd) as R3.
  pose proof (Hrows 4 d ltac:(lia) Hd) as R4. pose proof (Hrows 5 d ltac:(lia) Hd) as R5.
  pose proof (Hrows 6 d ltac:(lia) Hd) as R6. pose proof (Hrows 7 d ltac:(lia) Hd) as R7.
  pose proof (Hrows 8 d ltac:(lia) Hd) as R8.
  pose proof (Hcols 0 d ltac:(lia) Hd) as C0. pose proof (Hcols 1 d ltac:(lia) Hd) as C1.
  pose proof (Hcols 2 d ltac:(lia) Hd) as C2. pose proof (Hcols 3 d ltac:(lia) Hd) as C3.
  pose proof (Hcols 4 d ltac:(lia) Hd) as C4. pose proof (Hcols 5 d ltac:(lia) Hd) as C5.
  pose proof (Hboxes 0 0 d ltac:(simpl; auto) ltac:(simpl; auto) Hd) as B00.
  pose proof (Hboxes 0 3 d ltac:(simpl; auto) ltac:(simpl; auto) Hd) as B03.
  pose proof (Hboxes 3 0 d ltac:(simpl; auto) ltac:(simpl; auto) Hd) as B30.
  pose proof (Hboxes 3 3 d ltac:(simpl; auto) ltac:(simpl; auto) Hd) as B33.
  clear Hrows Hcols Hboxes.
  destruct bi as [|[|[|bi]]]; [| | |lia]; destruct bj as [|[|[|bj]]]; try lia;
    unfold_sums; lia.
Qed.

Lemma Zsum_member_le {A : Type} (f : A -> Z) (l : list A) (x : A) :
  (forall y, In y l -> (0 <= f y)%Z) -> In x l -> (f x <= Zsum (map f l))%Z.
Proof.
  induction l as [|z t IH]; intros Hpos Hin; [destruct Hin|].
  cbn [map Zsum foldr]. fold (Zsum (map f t)).
  assert (0 <= Zsum (map f t))%Z.
  { clear IH Hin. induction t as [|w t IHt]; cbn [map Zsum foldr]; [lia|].
    fold (Zsum (map f t)).
    pose proof (Hpos w ltac:(simpl; auto)).
    assert (0 <= Zsum (map f t))%Z by (apply IHt; intros y Hy; apply Hpos; simpl in *; tauto).
    lia. }
  destruct Hin as [-> | Hin].
  - lia.
  - pose proof (Hpos z ltac:(simpl; auto)).
    assert (f x <= Zsum (map f t))%Z by (apply IH; auto; intros y Hy; apply Hpos; simpl; auto).
    lia.
Qed.

(** Two different summands equal to 1 among non-negative ones. *)
Lemma Zsum_two_ones {A : Type} (f : A -> Z) (l : list A) (x y : A) :
  (forall z, In z l -> (0 <= f z)%Z) ->
  In x l -> In y l -> x <> y -> f x = 1%Z -> f y = 1%Z ->
  (2 <= Zsum (map f l))%Z.
Proof.
  induction l as [|z t IH]; intros Hpos Hx Hy Hne Fx Fy; [destruct Hx|].
  cbn [map Zsum foldr]. fold (Zsum (map f t)).
  assert (Hpos' : forall w, In w t -> (0 <= f w)%Z) by (intros w Hw; apply Hpos; simpl; auto).
  destruct Hx as [-> | Hx], Hy as [-> | Hy].
  - congruence.
  - pose proof (Zsum_member_le f t y Hpos' Hy). lia.
  - pose proof (Zsum_member_le f t x Hpos' Hx). lia.
  - pose proof (Hpos z ltac:(simpl; auto)). specialize (IH Hpos' Hx Hy Hne Fx Fy). lia.
Qed.

Lemma in_box_cells (i j r c : nat) :
  In (r, c) (box_cells i j) <-> (i <= r < i + 3 /\ j <= c < j + 3).
Proof.
  unfold box_cells. rewrite in_flat_map. split.
  - intros (r' & Hr & Hin). apply in_map_iff in Hin. destruct Hin as (c' & E & Hc).
    injection E as -> ->. apply in_seq in Hr, Hc. lia.
  - intros [Hr Hc]. exists r. split; [apply in_seq; lia|].
    apply in_map_iff. exists c. split; auto. apply in_seq. lia.
Qed.

Lemma indicator_digits_set (o : cube) (r c : nat) :
  shape9 o -> indicator o -> r < 9 -> c < 9 ->
  Zsum (cell_at o r c) = Z.of_nat (digits_set o r c).
Proof.
  intros Hs Hi Hr Hc. rewrite cell_at_entries by auto.
  unfold digits_set.
  assert (Hall : forall d, In d range9 -> get3 o r c d = 0%Z \/ get3 o r c d = 1%Z).
  { intros d Hd. apply in_seq in Hd. apply Hi; lia. }
  induction range9 as [|d t IH]; [reflexivity|].
  cbn [map Zsum foldr List.filter]. fold (Zsum (map (get3 o r c) t)).
  rewrite IH by (intros; apply Hall; simpl; auto).
  destruct (Hall d ltac:(simpl; auto)) as [E | E]; rewrite E; simpl; lia.
Qed.

(** A box that holds a digit twice sums to at least 2 on that digit. *)
Lemma box_twice (o : cube) (r1 c1 r2 c2 d : nat) :
  indicator o ->
  r1 < 9 -> c1 < 9 -> r2 < 9 -> c2 < 9 -> d < 9 ->
  same_box r1 c1 r2 c2 -> (r1, c1) <> (r2, c2) ->
  get3 o r1 c1 d = 1%Z -> get3 o r2 c2 d = 1%Z ->
  (2 <= box_sum o (3 * (r1 / 3)) (3 * (c1 / 3)) d)%Z.
Proof.
  intros Hi Hr1 Hc1 Hr2 Hc2 Hd [Hbr Hbc] Hne G1 G2. unfold box_sum.
  pose proof (Nat.div_mod_eq r1 3) as M1. pose proof (Nat.mod_upper_bound r1 3 ltac:(lia)).
  pose proof (Nat.div_mod_eq c1 3) as M2. pose proof (Nat.mod_upper_bound c1 3 ltac:(lia)).
  pose proof (Nat.div_mod_eq r2 3) as M3. pose proof (Nat.mod_upper_bound r2 3 ltac:(lia)).
  pose proof (Nat.div_mod_eq c2 3) as M4. pose proof (Nat.mod_upper_bound c2 3 ltac:(lia)).
  apply (Zsum_two_ones (fun rc => get3 o (fst rc) (snd rc) d) _ (r1, c1) (r2, c2)); auto.
  - intros [r c] Hin. apply in_box_cells in Hin. simpl.
    destruct (Hi r c d ltac:(lia) ltac:(lia) Hd) as [E | E]; rewrite E; lia.
  - apply in_box_cells. lia.
  - apply in_box_cells. lia.
Qed.

Lemma one_hot_cells_one (o : cube) : shape9 o -> one_hot o -> cells_one o.
Proof.
  intros Hs [Hi H1] r c Hr Hc.
  rewrite indicator_digits_set by auto. rewrite H1 by auto. reflexivity.
Qed.

(** A well-formed array that validates has nine legal boxes. *)
Lemma validate_solution_true_boxes (o : cube) :
  shape9 o -> cells_one o -> validate_solution o = inr true ->
  rows_one o /\ cols_one o /\ boxes_one o.
Proof.
  intros Hs Hc Hv.
  destruct (validate_solution_returns o Hs Hc) as (b & Hb & Hiff).
  rewrite Hv in Hb. injection Hb as <-.
  destruct (proj1 Hiff eq_refl) as (Hr & Hcol & Hbox).
  repeat split; auto. intros bi bj d. apply all_boxes_one; auto.
Qed.

Lemma indicatorb_spec (o : cube) : indicatorb o = true -> indicator o.
Proof.
  unfold indicatorb. rewrite forallb_range9. intros H r c d Hr Hc Hd.
  specialize (H r Hr). rewrite forallb_range9 in H. specialize (H c Hc).
  rewrite forallb_range9 in H. specialize (H d Hd).
  apply orb_true_iff in H. destruct H as [H | H]; apply Z.eqb_eq in H; auto.
Qed.

Lemma single_digitsb_spec (o : cube) :
  single_digitsb o = true -> forall r c, r < 9 -> c < 9 -> digits_set o r c = 1.
Proof.
  unfold single_digitsb. rewrite forallb_range9. intros H r c Hr Hc.
  specialize (H r Hr). rewrite forallb_range9 in H. apply Nat.eqb_eq. auto.
Qed.

Lemma one_hot_check (o : cube) :
  indicatorb o && single_digitsb o = true -> one_hot o.
Proof.
  intros H. apply andb_true_iff in H. destruct H as [H1 H2].
  split; [apply indicatorb_spec | apply single_digitsb_spec]; assumption.
Qed.

(** C1: on a well-formed one-hot 9x9x9 array in which two different cells
    of one 3x3 box hold the same digit, [validate_solution] returns False.
    The boxes of the last band and stack are covered although the loops of
    the source never visit them. *)
Theorem validate_solution_rejects_box_duplicate (o : cube) (r1 c1 r2 c2 d : nat) :
  shape9 o -> one_hot o ->
  r1 < 9 -> c1 < 9 -> r2 < 9 -> c2 < 9 -> d < 9 ->
  same_box r1 c1 r2 c2 -> (r1, c1) <> (r2, c2) ->
  get3 o r1 c1 d = 1%Z -> get3 o r2 c2 d = 1%Z ->
  validate_solution o = inr false.
Proof.
  intros Hs Hoh Hr1 Hc1 Hr2 Hc2 Hd Hbox Hne G1 G2.
  pose proof (one_hot_cells_one o Hs Hoh) as Hcells.
  destruct (validate_solution_returns o Hs Hcells) as (b & Hb & Hiff).
  destruct b; [|exact Hb]. exfalso.
  destruct (validate_solution_true_boxes o Hs Hcells Hb) as (_ & _ & Hboxes).
  pose proof (box_twice o r1 c1 r2 c2 d (proj1 Hoh) Hr1 Hc1 Hr2 Hc2 Hd Hbox Hne G1 G2) as H2.
  assert (r1 / 3 < 3) by (apply Nat.Div0.div_lt_upper_bound; lia).
  assert (c1 / 3 < 3) by (apply Nat.Div0.div_lt_upper_bound; lia).
  rewrite (Hboxes (r1 / 3) (c1 / 3) d) in H2 by auto. lia.
Qed.

Lemma validate_solution_rejects_box_duplicate_witness :
  validate_solution (options_of_string box_duplicate_grid) = inr false.
Proof.
  apply (validate_solution_rejects_box_duplicate
           (options_of_string box_duplicate_grid) 0 0 0 1 2).
  - apply has_shape9_spec. vm_compute. reflexivity.
  - apply one_hot_check. vm_compute. reflexivity.
  - lia.
  - lia.
  - lia.
  - lia.
  - lia.
  - split; reflexivity.
  - discriminate.
  - vm_compute. reflexivity.
  - vm_compute. reflexivity.
Defined.

(** C6: on an indicator array of shape (9, 9, 9), a cell that does not have
    exactly one digit set makes [validate_solution] raise its ValueError,
    whatever the legality checks would say, and that outcome is not the
    result False; a well-formed array that breaks row, column or box
    uniqueness yields False and does not raise. *)
Theorem validate_solution_error_or_false (o : cube) :
  shape9 o -> indicator o ->
  ((exists r c, r < 9 /\ c < 9 /\ digits_set o r c <> 1) ->
     validate_solution o = inl (ValueError NotOneDigit)
     /\ validate_solution o <> inr false)
  /\ ((forall r c, r < 9 -> c < 9 -> digits_set o r c = 1) ->
      ~ (rows_one o /\ cols_one o /\ boxes_one o) ->
      validate_solution o = inr false).
Proof.
  intros Hs Hi. split.
  - intros (r & c & Hr & Hc & Hn).
    assert (E : validate_solution o = inl (ValueError NotOneDigit)).
    { apply validate_solution_raises; auto. intros Hcells.
      specialize (Hcells r c Hr Hc). rewrite indicator_digits_set in Hcells by auto.
      lia. }
    split; [exact E | rewrite E; discriminate].
  - intros H1 Hviol.
    assert (Hcells : cells_one o) by (apply one_hot_cells_one; [|split]; auto).
    destruct (validate_solution_returns o Hs Hcells) as (b & Hb & Hiff).
    destruct b; [|exact Hb]. exfalso. apply Hviol.
    apply validate_solution_true_boxes; auto.
Qed.

Lemma validate_solution_error_or_false_witness :
  validate_solution zeros = inl (ValueError NotOneDigit)
  /\ validate_solution (options_of_string box_duplicate_grid) = inr false.
Proof.
  split.
  - apply (validate_solution_error_or_false zeros).
    + apply has_shape9_spec. vm_compute. reflexivity.
    + apply indicatorb_spec. vm_compute. reflexivity.
    + exists 0, 0. repeat split; [lia | lia | vm_compute; discriminate].
  - apply (validate_solution_error_or_false (options_of_string box_duplicate_grid)).
    + apply has_shape9_spec. vm_compute. reflexivity.
    + apply indicatorb_spec. vm_compute. reflexivity.
    + apply single_digitsb_spec. vm_compute. reflexivity.
    + intros (Hrows & _ & _). specialize (Hrows 0 2 ltac:(lia) ltac:(lia)).
      vm_compute in Hrows. discriminate.
Defined.

(** Outside the indicator arrays the structural test is a test of the sum
    only: a cell with the entries 2 and -1 passes it. *)
Example structural_check_is_a_sum :
  digits_set off_indicator_cube 0 0 = 2
  /\ validate_solution off_indicator_cube = inr false.
Proof. split; vm_compute; reflexivity. Qed.

(** ** Parsing the input string *)

Lemma int_of_char_digit (ch : ascii) :
  int_of_char ch = if is_digit ch then Some (Z.of_nat (nat_of_ascii ch - 48)) else None.
Proof. reflexivity. Qed.

Lemma int_of_char_nonzero (ch : ascii) (v : Z) :
  int_of_char ch = Some v -> ch <> "0"%char -> (1 <= v <= 9)%Z.
Proof.
  rewrite int_of_char_digit. unfold is_digit.
  destruct ((48 <=? nat_of_ascii ch) && (nat_of_ascii ch <=? 57)) eqn:D; [|discriminate].
  intros H Hne. injection H as <-.
  apply andb_true_iff in D. destruct D as [D1 D2]. apply Nat.leb_le in D1, D2.
  assert (nat_of_ascii ch <> 48).
  { intros E. apply Hne. rewrite <- (ascii_nat_embedding ch), E. reflexivity. }
  lia.
Qed.

Lemma np_array_byte_length (chars : list ascii) (vs : list Z) :
  np_array_byte chars = inr vs -> length vs = length chars.
Proof.
  revert vs. induction chars as [|ch rest IH]; intros vs H; simpl in H.
  - injection H as <-. reflexivity.
  - destruct (int_of_char ch); [|discriminate].
    destruct (np_array_byte rest) as [e|vs']; [discriminate|].
    injection H as <-. simpl. f_equal. apply IH. reflexivity.
Qed.

Lemma np_array_byte_rejects (chars : list ascii) :
  (exists ch, In ch chars /\ is_digit ch = false) ->
  np_array_byte chars = inl (ValueError InvalidLiteral).
Proof.
  induction chars as [|ch rest IH]; intros (bad & Hin & Hbad); [destruct Hin|].
  simpl. rewrite int_of_char_digit.
  destruct (is_digit ch) eqn:E; [|reflexivity].
  destruct Hin as [-> | Hin]; [congruence|].
  rewrite IH by eauto. reflexivity.
Qed.

Lemma np_array_byte_accepts (chars : list ascii) :
  (forall ch, In ch chars -> is_digit ch = true) ->
  exists vs, np_array_byte chars = inr vs.
Proof.
  induction chars as [|ch rest IH]; intros Hall; [exists []; reflexivity|].
  simpl. rewrite int_of_char_digit, (Hall ch) by (simpl; auto).
  destruct IH as [vs Hvs]; [intros; apply Hall; simpl; auto|].
  rewrite Hvs. eauto.
Qed.

Lemma length_list_ascii_of_string (s : string) :
  length (list_ascii_of_string s) = String.length s.
Proof. induction s as [|ch s IH]; simpl; congruence. Qed.

Lemma _string_to_np_puzzle_rejects (s : string) :
  malformed s ->
  exists why, _string_to_np_puzzle s = inl (ValueError why).
Proof.
  intros Hbad. unfold _string_to_np_puzzle.
  destruct (np_array_byte (list_ascii_of_string s)) as [e|vs] eqn:E.
  - destruct (List.forallb is_digit (list_ascii_of_string s)) eqn:F.
    + rewrite forallb_forall in F.
      destruct (np_array_byte_accepts _ F) as [vs Hvs]. congruence.
    + assert (exists ch, In ch (list_ascii_of_string s) /\ is_digit ch = false) as Hex.
      { clear E. induction (list_ascii_of_string s) as [|ch rest IH]; [discriminate|].
        simpl in F. destruct (is_digit ch) eqn:D.
        - destruct IH as (x & Hx & Hd); auto. exists x. simpl. auto.
        - exists ch. simpl. auto. }
      rewrite (np_array_byte_rejects _ Hex) in E. injection E as <-. eauto.
  - destruct Hbad as [Hlen | Hch].
    + apply np_array_byte_length in E. rewrite length_list_ascii_of_string in E.
      unfold reshape9. destruct (Nat.eqb_spec (length vs) 81) as [E81|_]; [lia|]. eauto.
    + rewrite (np_array_byte_rejects _ Hch) in E. discriminate.
Qed.

Lemma _string_to_np_puzzle_accepts (s : string) :
  ~ malformed s -> exists p o, _string_to_np_puzzle s = inr (p, o).
Proof.
  intros Hok. unfold _string_to_np_puzzle.
  destruct (np_array_byte_accepts (list_ascii_of_string s)) as [vs Hvs].
  { intros ch Hin. destruct (is_digit ch) eqn:D; auto. exfalso. apply Hok. right. eauto. }
  rewrite Hvs. apply np_array_byte_length in Hvs.
  rewrite length_list_ascii_of_string in Hvs.
  unfold reshape9. destruct (Nat.eqb_spec (length vs) 81) as [_|Hne].
  - eauto.
  - exfalso. apply Hok. left. lia.
Qed.

Lemma np_array_byte_lookup (chars : list ascii) (vs : list Z) (i : nat) (ch : ascii) :
  np_array_byte chars = inr vs -> chars !! i = Some ch ->
  exists v, int_of_char ch = Some v /\ vs !! i = Some v.
Proof.
  revert vs i. induction chars as [|c0 rest IH]; intros vs i H Hi; [discriminate|].
  simpl in H. destruct (int_of_char c0) as [v0|] eqn:E0; [|discriminate].
  destruct (np_array_byte rest) as [e|vs'] eqn:E; [discriminate|].
  injection H as <-. destruct i as [|i]; simpl in Hi.
  - injection Hi as <-. exists v0. auto.
  - destruct (IH vs' i eq_refl Hi) as (v & Hv & Hl). exists v. auto.
Qed.

Lemma rows_of_lookup (n r : nat) (l : list Z) :
  r < n -> rows_of n l !! r = Some (take 9 (drop (9 * r) l)).
Proof.
  revert r l. induction n as [|n IH]; intros r l Hr; [lia|].
  destruct r as [|r]; simpl.
  - reflexivity.
  - rewrite IH by lia. rewrite drop_drop. do 3 f_equal. lia.
Qed.

Lemma get2_rows_of (l : list Z) (r c : nat) :
  r < 9 -> c < 9 -> get2 (rows_of 9 l) r c = default 0%Z (l !! (9 * r + c)).
Proof.
  intros Hr Hc. unfold get2. rewrite rows_of_lookup by auto. cbn [from_option id].
  rewrite lookup_take_lt by auto. rewrite lookup_drop. reflexivity.
Qed.

Lemma length_rows_of (n : nat) (l : list Z) : length (rows_of n l) = n.
Proof. revert l. induction n as [|n IH]; intros l; simpl; auto. Qed.

Lemma shape9_zeros : shape9 zeros.
Proof. apply has_shape9_spec. reflexivity. Qed.

Lemma get3_zeros (r c d : nat) : get3 zeros r c d = 0%Z.
Proof.
  unfold get3, cell_at, row_at, zeros.
  destruct (decide (r < 9)) as [Hr|Hr].
  - rewrite lookup_replicate_2 by auto. cbn [from_option id].
    destruct (decide (c < 9)) as [Hc|Hc].
    + rewrite lookup_replicate_2 by auto. cbn [from_option id].
      destruct (decide (d < 9)) as [Hd|Hd].
      * rewrite lookup_replicate_2 by auto. reflexivity.
      * rewrite (lookup_ge_None_2 (replicate 9 _) d) by (rewrite length_replicate; lia).
        reflexivity.
    + rewrite (lookup_ge_None_2 (replicate 9 _) c) by (rewrite length_replicate; lia).
      reflexivity.
  - rewrite (lookup_ge_None_2 (replicate 9 _) r) by (rewrite length_replicate; lia).
    reflexivity.
Qed.

(** The arrays [_string_to_np_puzzle] returns, entry by entry: a filled
    cell has the one candidate it was filled with, a 0 has all nine. *)
Lemma _string_to_np_puzzle_entries (s : string) (p : grid) (o : cube) :
  _string_to_np_puzzle s = inr (p, o) ->
  shape9 o /\
  forall r c d, r < 9 -> c < 9 -> d < 9 ->
    get3 o r c d =
      if (get2 p r c =? 0)%Z then 1%Z
      else if (Z.of_nat d =? get2 p r c - 1)%Z then 1%Z else 0%Z.
Proof.
  unfold _string_to_np_puzzle. intros H.
  destruct (np_array_byte (list_ascii_of_string s)) as [e|vs]; [discriminate|].
  destruct (reshape9 vs) as [e|p']; [discriminate|].
  injection H as <- <-. split.
  - repeat apply shape9_assign. exact shape9_zeros.
  - intros r c d Hr Hc Hd.
    rewrite get3_assign by (try apply shape9_assign; auto using shape9_zeros).
    rewrite get3_assign by (auto using shape9_zeros).
    rewrite get3_zeros.
    destruct (get2 p' r c =? 0)%Z; simpl; [reflexivity|].
    destruct (Z.of_nat d =? get2 p' r c - 1)%Z; reflexivity.
Qed.

Lemma get_list_ascii (s : string) (i : nat) :
  list_ascii_of_string s !! i = String.get i s.
Proof.
  revert i. induction s as [|ch s IH]; intros i; destruct i; simpl; auto.
Qed.

(** The digit grid [_string_to_np_puzzle] returns holds the value of each
    character, in row-major order. *)
Lemma _string_to_np_puzzle_digits (s : string) (p : grid) (o : cube) (r c : nat) (ch : ascii) :
  _string_to_np_puzzle s = inr (p, o) -> r < 9 -> c < 9 ->
  String.get (9 * r + c) s = Some ch ->
  int_of_char ch = Some (get2 p r c).
Proof.
  unfold _string_to_np_puzzle. intros H Hr Hc Hget.
  destruct (np_array_byte (list_ascii_of_string s)) as [e|vs] eqn:E; [discriminate|].
  unfold reshape9 in H. destruct (length vs =? 81); [|discriminate].
  assert (Hp : p = rows_of 9 vs) by congruence. rewrite Hp. clear H Hp.
  rewrite <- get_list_ascii in Hget.
  destruct (np_array_byte_lookup _ _ _ _ E Hget) as (v & Hv & Hl).
  rewrite get2_rows_of by auto. rewrite Hl. exact Hv.
Qed.

Lemma solve_raises_at_parsing (s : string) (m : Z) (e : exn) :
  _string_to_np_puzzle s = inl e -> solve s m = Raised e.
Proof. intros H. unfold solve. rewrite H. reflexivity. Qed.

(** C5, as stated, fails: an 81-character string over 0-9 and '.' is
    rejected as soon as it holds a '.', while the same puzzle written with
    '0' is solved. *)
Lemma solve_dot_not_accepted :
  String.length dot_blank_grid = 81
  /\ (forall ch, In ch (list_ascii_of_string dot_blank_grid) ->
        is_digit ch = true \/ ch = "."%char)
  /\ solve dot_blank_grid default_max_iterations = Raised (ValueError InvalidLiteral)
  /\ solve zero_blank_grid default_max_iterations = Returned solved_grid.
Proof.
  split; [reflexivity|]. split.
  - intros ch Hin. vm_compute in Hin.
    repeat (destruct Hin as [<- | Hin]; [vm_compute; auto|]). destruct Hin.
  - split; vm_compute; reflexivity.
Qed.

(** C5 (amended): among the strings of one-byte characters, one whose
    length is not 81, or that holds a character other than the digits
    0-9, makes [solve] raise ValueError before any solving; '.' is such a
    character; in an accepted string a '0' is an unknown cell, with all
    nine candidates, and every other character is a digit from 1 to 9
    that fixes its cell, so that '0' is the only mark of an unknown
    cell. *)
Theorem solve_format_error :
  (forall s m, malformed s -> exists why, solve s m = Raised (ValueError why))
  /\ (forall s m, In "."%char (list_ascii_of_string s) ->
        solve s m = Raised (ValueError InvalidLiteral))
  /\ (forall s p o r c,
        _string_to_np_puzzle s = inr (p, o) -> r < 9 -> c < 9 ->
        String.get (9 * r + c) s = Some "0"%char ->
        get2 p r c = 0%Z /\ forall d, d < 9 -> get3 o r c d = 1%Z)
  /\ (forall s p o r c ch,
        _string_to_np_puzzle s = inr (p, o) -> r < 9 -> c < 9 ->
        String.get (9 * r + c) s = Some ch -> ch <> "0"%char ->
        is_digit ch = true
        /\ (1 <= get2 p r c <= 9)%Z
        /\ forall d, d < 9 ->
             get3 o r c d = if (Z.of_nat d + 1 =? get2 p r c)%Z then 1%Z else 0%Z).
Proof.
  split; [|split; [|split]]; cycle 3.
  { intros s p o r c ch H Hr Hc Hget Hnz.
    pose proof (_string_to_np_puzzle_digits s p o r c _ H Hr Hc Hget) as Hv.
    pose proof (int_of_char_nonzero ch _ Hv Hnz) as Hrange.
    split; [|split; [exact Hrange|]].
    - rewrite int_of_char_digit in Hv. destruct (is_digit ch); [reflexivity | discriminate].
    - intros d Hd. destruct (_string_to_np_puzzle_entries s p o H) as [_ Hent].
      rewrite Hent by auto.
      destruct (Z.eqb_spec (get2 p r c) 0); [lia|].
      destruct (Z.eqb_spec (Z.of_nat d) (get2 p r c - 1)),
        (Z.eqb_spec (Z.of_nat d + 1) (get2 p r c)); auto; lia. }
  - intros s m Hbad. destruct (_string_to_np_puzzle_rejects s Hbad) as [why H].
    exists why. apply solve_raises_at_parsing. exact H.
  - intros s m Hin. apply solve_raises_at_parsing. unfold _string_to_np_puzzle.
    rewrite np_array_byte_rejects; [reflexivity|]. exists "."%char. auto.
  - intros s p o r c H Hr Hc Hget.
    pose proof (_string_to_np_puzzle_digits s p o r c _ H Hr Hc Hget) as Hv.
    assert (E : get2 p r c = 0%Z).
    { change (int_of_char "0"%char) with (Some 0%Z) in Hv. congruence. }
    split; [exact E|]. intros d Hd.
    destruct (_string_to_np_puzzle_entries s p o H) as [_ Hent].
    rewrite Hent by auto. rewrite E. reflexivity.
Qed.

(** An input of 82 characters. *)
Lemma solve_format_error_witness :
  exists why, solve (solved_grid ++ "1") default_max_iterations = Raised (ValueError why).
Proof.
  apply (proj1 solve_format_error). left. vm_compute. discriminate.
Defined.

(** ** From the array back to the string *)

Lemma argmax_from_bound (best : Z) (bi i : nat) (l : list Z) :
  bi < i -> argmax_from best bi i l < i + length l.
Proof.
  revert best bi i. induction l as [|x t IH]; intros best bi i Hb; simpl; [lia|].
  destruct (best <? x)%Z.
  - specialize (IH x i (S i) ltac:(lia)). lia.
  - specialize (IH best bi (S i) ltac:(lia)). lia.
Qed.

Lemma argmax_lt (l : list Z) : l <> [] -> argmax l < length l.
Proof.
  destruct l as [|x t]; [congruence|]. intros _. simpl.
  pose proof (argmax_from_bound x 0 1 t ltac:(lia)). lia.
Qed.

Lemma argmax_from_zeros (best : Z) (bi i m : nat) :
  (0 <= best)%Z -> argmax_from best bi i (replicate m 0%Z) = bi.
Proof.
  revert i. induction m as [|m IH]; intros i Hb; simpl; [reflexivity|].
  destruct (Z.ltb_spec best 0); [lia|]. apply IH. exact Hb.
Qed.

Lemma argmax_from_first_one (bi i k m : nat) :
  argmax_from 0 bi i (replicate k 0%Z ++ 1%Z :: replicate m 0%Z) = i + k.
Proof.
  revert i. induction k as [|k IH]; intros i; simpl.
  - rewrite argmax_from_zeros by lia. lia.
  - rewrite IH. lia.
Qed.

Lemma argmax_single_one (k m : nat) :
  argmax (replicate k 0%Z ++ 1%Z :: replicate m 0%Z) = k.
Proof.
  destruct k as [|k]; simpl.
  - apply argmax_from_zeros. lia.
  - rewrite argmax_from_first_one. lia.
Qed.

(** A list of zeros and ones with a single one. *)
Lemma single_one_shape (l : list Z) :
  (forall x, In x l -> x = 0%Z \/ x = 1%Z) ->
  length (List.filter nonzero l) = 1 ->
  exists k m, l = replicate k 0%Z ++ 1%Z :: replicate m 0%Z.
Proof.
  induction l as [|x t IH]; intros H01 Hcount; [discriminate|].
  assert (H01' : forall y, In y t -> y = 0%Z \/ y = 1%Z) by (intros; apply H01; simpl; auto).
  destruct (H01 x ltac:(simpl; auto)) as [-> | ->]; simpl in Hcount.
  - destruct (IH H01' Hcount) as (k & m & ->). exists (S k), m. reflexivity.
  - exists 0, (length t). simpl. f_equal.
    injection Hcount as Hcount. clear IH H01.
    induction t as [|y t IHt]; [reflexivity|].
    destruct (H01' y ltac:(simpl; auto)) as [-> | ->]; simpl in Hcount; [|discriminate].
    simpl. f_equal. apply IHt; auto. intros; apply H01'; simpl; auto.
Qed.

Lemma lookup_single_one (k m d : nat) :
  d < k + S m ->
  default 0%Z ((replicate k 0%Z ++ 1%Z :: replicate m 0%Z) !! d)
  = if d =? k then 1%Z else 0%Z.
Proof.
  intros Hd. destruct (Nat.eqb_spec d k) as [-> | Hne].
  - rewrite lookup_app_r by (rewrite length_replicate; lia).
    rewrite length_replicate, Nat.sub_diag. reflexivity.
  - destruct (decide (d < k)) as [Hlt | Hge].
    + rewrite lookup_app_l by (rewrite length_replicate; lia).
      rewrite lookup_replicate_2 by lia. reflexivity.
    + rewrite lookup_app_r by (rewrite length_replicate; lia).
      rewrite length_replicate.
      destruct (d - k) as [|j] eqn:E; [lia|]. simpl.
      rewrite lookup_replicate_2 by lia. reflexivity.
Qed.

Lemma filter_map_length {A B : Type} (f : B -> bool) (g : A -> B) (l : list A) :
  length (List.filter f (map g l)) = length (List.filter (fun x => f (g x)) l).
Proof.
  induction l as [|x t IH]; simpl; [reflexivity|].
  destruct (f (g x)); simpl; congruence.
Qed.

(** In a one-hot array the digit set in a cell is the one [argmax] finds. *)
Lemma one_hot_argmax (o : cube) (r c d : nat) :
  shape9 o -> one_hot o -> r < 9 -> c < 9 -> d < 9 ->
  get3 o r c d = if d =? argmax (cell_at o r c) then 1%Z else 0%Z.
Proof.
  intros Hs [Hi H1] Hr Hc Hd.
  pose proof (shape9_cell_at o r c Hs Hr Hc) as Hlen.
  pose proof (cell_at_entries o r c Hs Hr Hc) as Hent.
  destruct (single_one_shape (cell_at o r c)) as (k & m & Hshape).
  - rewrite Hent. intros x Hx. apply in_map_iff in Hx. destruct Hx as (d' & <- & Hd').
    apply in_seq in Hd'. apply Hi; lia.
  - rewrite Hent. rewrite filter_map_length. exact (H1 r c Hr Hc).
  - unfold get3. rewrite Hshape. rewrite argmax_single_one.
    apply lookup_single_one.
    rewrite Hshape in Hlen. rewrite length_app, length_replicate in Hlen.
    simpl in Hlen. rewrite length_replicate in Hlen. lia.
Qed.

Lemma py_str_digit (v : Z) :
  (1 <= v <= 9)%Z ->
  exists ch, py_str v = String ch EmptyString /\ int_of_char ch = Some v.
Proof.
  intros Hv.
  assert (v = 1 \/ v = 2 \/ v = 3 \/ v = 4 \/ v = 5 \/ v = 6 \/ v = 7 \/ v = 8 \/ v = 9)%Z
    as Hcases by lia.
  repeat (destruct Hcases as [-> | Hcases]; [eexists; split; reflexivity|]).
  subst v. eexists; split; reflexivity.
Qed.

Lemma np_array_byte_join (vs : list Z) :
  (forall v, In v vs -> (1 <= v <= 9)%Z) ->
  np_array_byte (list_ascii_of_string (String.concat "" (map py_str vs))) = inr vs.
Proof.
  induction vs as [|v t IH]; intros Hall; [reflexivity|].
  destruct (py_str_digit v) as (ch & Hstr & Hint); [apply Hall; simpl; auto|].
  assert (IH' := IH ltac:(intros; apply Hall; simpl; auto)).
  cbn [map String.concat]. rewrite Hstr.
  destruct t as [|v' t'].
  - simpl. rewrite Hint. reflexivity.
  - cbn [map] in *. cbn [String.append list_ascii_of_string np_array_byte].
    rewrite Hint. rewrite IH'. reflexivity.
Qed.

Lemma rows_of_concat (g : grid) :
  Forall (fun row : list Z => length row = 9) g ->
  rows_of (length g) (concat g) = g.
Proof.
  induction g as [|row g IH]; intros Hall; [reflexivity|].
  apply Forall_cons in Hall. destruct Hall as [Hrow Hall].
  simpl. rewrite take_app_length' by auto. rewrite drop_app_length' by auto.
  rewrite IH by auto. reflexivity.
Qed.

Lemma length_concat9 (g : grid) :
  Forall (fun row : list Z => length row = 9) g -> length (concat g) = 9 * length g.
Proof.
  induction g as [|row g IH]; intros Hall; [reflexivity|].
  apply Forall_cons in Hall. destruct Hall as [Hrow Hall].
  simpl. rewrite length_app, IH by auto. lia.
Qed.

Lemma argmax_plus1_rows (o : cube) :
  shape9 o ->
  length (argmax_plus1 o) = 9 /\
  Forall (fun row : list Z => length row = 9) (argmax_plus1 o).
Proof.
  intros [Hlen Hrows]. unfold argmax_plus1. split; [rewrite length_map; exact Hlen|].
  apply Forall_map. eapply Forall_impl; [exact Hrows|].
  intros row [Hl _]. simpl. rewrite length_map. exact Hl.
Qed.

Lemma lookup_map {A B : Type} (f : A -> B) (l : list A) (i : nat) :
  map f l !! i = option_map f (l !! i).
Proof. revert i. induction l as [|x t IH]; intros [|i]; simpl; auto. Qed.

Lemma get2_argmax_plus1 (o : cube) (r c : nat) :
  shape9 o -> r < 9 -> c < 9 ->
  get2 (argmax_plus1 o) r c = (Z.of_nat (argmax (cell_at o r c)) + 1)%Z.
Proof.
  intros Hs Hr Hc.
  destruct (shape9_cell o r c Hs Hr Hc) as (row & cl & Hrow & Hcl & _).
  unfold get2, argmax_plus1, cell_at, row_at.
  rewrite lookup_map, Hrow. cbn [option_map from_option id].
  rewrite lookup_map, Hcl. reflexivity.
Qed.

Lemma argmax_plus1_range (o : cube) (v : Z) :
  shape9 o -> In v (concat (argmax_plus1 o)) -> (1 <= v <= 9)%Z.
Proof.
  intros [_ Hrows] Hin. apply in_concat in Hin. destruct Hin as (vs & Hvs & Hv).
  unfold argmax_plus1 in Hvs. apply in_map_iff in Hvs. destruct Hvs as (row & <- & Hrow).
  apply in_map_iff in Hv. destruct Hv as (cl & <- & Hcl).
  rewrite List.Forall_forall in Hrows. destruct (Hrows row Hrow) as [_ Hcells].
  rewrite List.Forall_forall in Hcells. specialize (Hcells cl Hcl).
  assert (cl <> []) by (intros ->; discriminate).
  pose proof (argmax_lt cl H). lia.
Qed.

(** C9: a fully known grid, one candidate per cell, survives the round
    trip through its 81-digit string: parsing the string gives back the
    digit grid and the one-hot array. *)
Theorem string_round_trip (G : cube) :
  shape9 G -> one_hot G ->
  _string_to_np_puzzle (_np_puzzle_to_string G) = inr (argmax_plus1 G, G).
Proof.
  intros Hs Hoh.
  destruct (argmax_plus1_rows G Hs) as [Hlen Hrows].
  destruct (_string_to_np_puzzle (_np_puzzle_to_string G)) as [e|[p o]] eqn:E.
  - exfalso. revert E. unfold _string_to_np_puzzle, _np_puzzle_to_string.
    rewrite np_array_byte_join by (intros v; apply argmax_plus1_range; exact Hs).
    unfold reshape9. rewrite length_concat9, Hlen by auto. simpl. discriminate.
  - assert (Hp : p = argmax_plus1 G).
    { revert E. unfold _string_to_np_puzzle, _np_puzzle_to_string.
      rewrite np_array_byte_join by (intros v; apply argmax_plus1_range; exact Hs).
      unfold reshape9. rewrite length_concat9, Hlen by auto.
      change (9 * 9 =? 81) with true. cbv iota.
      rewrite <- Hlen at 1. rewrite rows_of_concat by auto. congruence. }
    subst p. f_equal. f_equal.
    destruct (_string_to_np_puzzle_entries _ _ _ E) as [Hso Hent].
    apply cube_ext; auto. intros r c d Hr Hc Hd.
    rewrite Hent by auto. rewrite get2_argmax_plus1 by auto.
    rewrite (one_hot_argmax G r c d) by auto.
    destruct (Z.eqb_spec (Z.of_nat (argmax (cell_at G r c)) + 1) 0); [lia|].
    destruct (Nat.eqb_spec d (argmax (cell_at G r c))) as [-> | Hne].
    + rewrite (proj2 (Z.eqb_eq _ _)) by lia. reflexivity.
    + rewrite (proj2 (Z.eqb_neq _ _)) by lia. reflexivity.
Qed.

Lemma string_round_trip_witness :
  _string_to_np_puzzle (_np_puzzle_to_string (options_of_string solved_grid))
  = inr (argmax_plus1 (options_of_string solved_grid), options_of_string solved_grid).
Proof.
  apply (string_round_trip (options_of_string solved_grid)).
  - apply has_shape9_spec. vm_compute. reflexivity.
  - apply one_hot_check. vm_compute. reflexivity.
Defined.

(** ** The delta generator *)

Section CombinationFacts.

Context {A : Type} (eqb : A -> A -> bool).

Lemma product_nonempty (iterables : list (list A)) :
  Forall (fun l => l <> []) iterables -> product iterables <> [].
Proof.
  induction iterables as [|l rest IH]; intros Hall; simpl; [discriminate|].
  apply Forall_cons in Hall. destruct Hall as [Hl Hrest].
  destruct l as [|x l]; [congruence|]. simpl.
  destruct (product rest) as [|comb combs]; [exfalso; apply IH; auto|].
  simpl. discriminate.
Qed.

Lemma in_product (iterables : list (list A)) (comb : list A) :
  In comb (product iterables) -> Forall2 (fun x l => In x l) comb iterables.
Proof.
  revert comb. induction iterables as [|l rest IH]; intros comb Hin; simpl in Hin.
  - destruct Hin as [<- | []]. constructor.
  - apply in_flat_map in Hin. destruct Hin as (x & Hx & Hin).
    apply in_map_iff in Hin. destruct Hin as (comb' & <- & Hin).
    constructor; auto.
Qed.

Lemma omap_pair_at_shift (c p : A) (comb prev_comb : list A) (k n : nat) :
  omap (pair_at eqb (c :: comb) (p :: prev_comb)) (seq (S k) n)
  = omap (pair_at eqb comb prev_comb) (seq k n).
Proof.
  revert k. induction n as [|n IH]; intros k; [reflexivity|].
  cbn [seq omap list_omap]. rewrite <- IH. reflexivity.
Qed.

Lemma changed_differing_pairs (comb prev_comb : list A) :
  changed eqb comb prev_comb = differing_pairs eqb comb prev_comb.
Proof.
  unfold differing_pairs. revert prev_comb.
  induction comb as [|c comb IH]; intros prev_comb; [reflexivity|].
  destruct prev_comb as [|p prev_comb].
  - simpl changed. clear IH. generalize 0.
    assert (forall i, pair_at eqb (c :: comb) [] i = None) as Hnone.
    { intros i. unfold pair_at. destruct ((c :: comb) !! i); reflexivity. }
    induction (length (c :: comb)) as [|n IHn]; intros k; [reflexivity|].
    cbn [seq omap list_omap]. rewrite Hnone. apply IHn.
  - cbn [changed length seq omap list_omap].
    rewrite omap_pair_at_shift, <- IH.
    unfold pair_at at 1. cbn [lookup list_lookup].
    destruct (eqb c p); reflexivity.
Qed.

Lemma deltas_lookup (prev_comb : list A) (combs : list (list A)) (k : nat)
      (prev comb : list A) :
  (prev_comb :: combs) !! k = Some prev -> combs !! k = Some comb ->
  deltas eqb prev_comb combs !! k = Some (changed eqb comb prev).
Proof.
  revert prev_comb k. induction combs as [|c0 combs IH]; intros prev_comb k Hp Hc;
    [discriminate|].
  destruct k as [|k]; simpl in *.
  - congruence.
  - apply IH; auto.
Qed.

Lemma _unique_combinations_yields (iterables : list (list A)) :
  Forall (fun l => l <> []) iterables ->
  exists comb0 combs,
    product iterables = comb0 :: combs /\
    _unique_combinations eqb iterables
    = inr (map (fun c => (None, c)) comb0 :: deltas eqb comb0 combs).
Proof.
  intros Hall. pose proof (product_nonempty iterables Hall) as Hne.
  unfold _unique_combinations.
  destruct (product iterables) as [|comb0 combs]; [congruence|]. eauto.
Qed.

End CombinationFacts.

(** ** Replaying the deltas on the array *)

Lemma set_first_plain (o : cube) (comb : list idx) :
  set_first o (plain comb) = write_all o comb.
Proof.
  unfold set_first, plain, write_all. revert o.
  induction comb as [|x comb IH]; intros o; simpl; auto.
Qed.

Lemma idx_eqb_eq (a b : idx) : idx_eqb a b = true <-> a = b.
Proof.
  destruct a as [[r1 c1] d1], b as [[r2 c2] d2]. unfold idx_eqb.
  rewrite !andb_true_iff, !Nat.eqb_eq. split.
  - intros [[-> ->] ->]. reflexivity.
  - intros E. injection E as -> -> ->. auto.
Qed.

Lemma shape9_write_digit (o : cube) (x : idx) : shape9 o -> shape9 (write_digit o x).
Proof.
  destruct x as [[r c] d]. intros Hs. unfold write_digit. repeat apply shape9_assign. exact Hs.
Qed.

Lemma shape9_write_all (o : cube) (comb : list idx) : shape9 o -> shape9 (write_all o comb).
Proof.
  unfold write_all. revert o. induction comb as [|x comb IH]; intros o Hs; simpl; auto.
  apply IH, shape9_write_digit, Hs.
Qed.

Lemma get3_write_digit (o : cube) (r0 c0 d0 r c d : nat) :
  shape9 o -> r < 9 -> c < 9 -> d < 9 ->
  get3 (write_digit o (r0, c0, d0)) r c d =
    if (r =? r0) && (c =? c0) then (if d =? d0 then 1%Z else 0%Z) else get3 o r c d.
Proof.
  intros Hs Hr Hc Hd. unfold write_digit.
  rewrite get3_assign by (try apply shape9_assign; auto).
  rewrite get3_assign by auto. unfold idx_eqb.
  destruct (r =? r0), (c =? c0), (d =? d0); reflexivity.
Qed.

Lemma get3_write_all (comb : list idx) (o : cube) (r c d : nat) :
  shape9 o -> r < 9 -> c < 9 -> d < 9 ->
  get3 (write_all o comb) r c d =
    match written comb r c with
    | Some d0 => if d =? d0 then 1%Z else 0%Z
    | None => get3 o r c d
    end.
Proof.
  unfold write_all. revert o.
  induction comb as [|[[r0 c0] d0] rest IH]; intros o Hs Hr Hc Hd; [reflexivity|].
  cbn [fold_left written]. rewrite IH by (auto using shape9_write_digit).
  destruct (written rest r c); [reflexivity|].
  rewrite get3_write_digit by auto.
  destruct ((r =? r0) && (c =? c0)); reflexivity.
Qed.

Lemma written_app (l1 l2 : list idx) (r c : nat) :
  written (l1 ++ l2) r c =
    match written l2 r c with
    | Some d => Some d
    | None => written l1 r c
    end.
Proof.
  induction l1 as [|[[r0 c0] d0] l1 IH]; simpl.
  - destruct (written l2 r c); reflexivity.
  - rewrite IH. destruct (written l2 r c); reflexivity.
Qed.

Lemma written_none (comb : list idx) (r c : nat) :
  ~ In (r, c) (map cell_of comb) -> written comb r c = None.
Proof.
  induction comb as [|[[r0 c0] d0] rest IH]; intros Hn; [reflexivity|].
  simpl in *. rewrite IH by tauto.
  destruct (Nat.eqb_spec r r0) as [-> | ?]; [|reflexivity].
  destruct (Nat.eqb_spec c c0) as [-> | ?]; [|reflexivity].
  exfalso. apply Hn. left. reflexivity.
Qed.

(** One retract-and-set step on an array in which the previous combination
    is written turns it into the array of the combination with that one
    position replaced. *)
Lemma change_one_position (o : cube) (done rest : list idx) (p c : idx) :
  shape9 o -> cell_of p = cell_of c ->
  ~ In (cell_of p) (map cell_of rest) ->
  assign (fun r c' d => idx_eqb (r, c', d) c) 1%Z
    (assign (fun r c' d => idx_eqb (r, c', d) p) 0%Z (write_all o (done ++ p :: rest)))
  = write_all o (done ++ c :: rest).
Proof.
  intros Hs Hcell Hfresh.
  apply cube_ext; [repeat apply shape9_assign; apply shape9_write_all; exact Hs
                  | apply shape9_write_all; exact Hs |].
  intros r c' d Hr Hc Hd.
  rewrite get3_assign by (try apply shape9_assign; try apply shape9_write_all; auto).
  rewrite get3_assign by (try apply shape9_write_all; auto).
  rewrite !get3_write_all by auto. rewrite !written_app.
  destruct p as [[rp cp] dp], c as [[rc cc] dc].
  unfold cell_of in Hcell, Hfresh. simpl in Hcell, Hfresh. injection Hcell as -> ->.
  cbn [written]. unfold idx_eqb.
  destruct (Nat.eqb_spec r rc) as [-> | Hne1]; cbn [andb].
  - destruct (Nat.eqb_spec c' cc) as [-> | Hne2]; cbn [andb].
    + rewrite (written_none rest rc cc) by exact Hfresh.
      destruct (d =? dc), (d =? dp); reflexivity.
    + destruct (written rest rc c'); reflexivity.
  - destruct (written rest r c'); reflexivity.
Qed.

(** Applying a delta to the array of the previous combination yields the
    array of the current one. *)
Lemma apply_changes_replays (o : cube) (comb : list idx) :
  shape9 o ->
  forall (done prev : list idx),
    map cell_of prev = map cell_of comb ->
    NoDup (map cell_of (done ++ prev)) ->
    apply_changes (write_all o (done ++ prev)) (changed idx_eqb comb prev)
    = inr (write_all o (done ++ comb)).
Proof.
  intros Hs. induction comb as [|c comb IH]; intros done prev Hcells Hnd.
  - destruct prev; [reflexivity | discriminate].
  - destruct prev as [|p prev]; [discriminate|].
    pose proof (f_equal (hd (0, 0)) Hcells) as Hcell.
    apply (f_equal (@tl _)) in Hcells. cbn [map hd tl] in Hcell, Hcells.
    assert (Hfresh : ~ In (cell_of p) (map cell_of prev)).
    { rewrite map_app in Hnd. apply NoDup_app in Hnd. destruct Hnd as (_ & _ & Hnd).
      simpl in Hnd. apply NoDup_cons in Hnd. destruct Hnd as [Hnin _].
      rewrite <- list_elem_of_In. exact Hnin. }
    cbn [changed]. destruct (idx_eqb c p) eqn:E.
    + apply idx_eqb_eq in E. subst c.
      rewrite (cons_middle p done prev), (cons_middle p done comb), !app_assoc.
      apply IH; auto. rewrite <- app_assoc. exact Hnd.
    + cbn [apply_changes].
      rewrite (change_one_position o done prev p c Hs Hcell Hfresh).
      rewrite (cons_middle c done prev), (cons_middle c done comb), !app_assoc.
      apply IH; auto. rewrite <- app_assoc. simpl.
      rewrite map_app in *. simpl in *. rewrite <- Hcell. exact Hnd.
Qed.

Lemma per_cell_nonempty (cells : list (nat * nat)) (lists : list (list idx)) :
  per_cell cells lists -> Forall (fun l => l <> []) lists.
Proof.
  induction 1 as [|cell l cells lists [Hne _] _ IH]; constructor; auto.
Qed.

Lemma product_cells (cells : list (nat * nat)) (lists : list (list idx)) (comb : list idx) :
  per_cell cells lists -> In comb (product lists) -> map cell_of comb = cells.
Proof.
  intros Hper Hin. apply in_product in Hin. revert cells Hper.
  induction Hin as [|x l comb lists Hx _ IH]; intros cells Hper.
  - inversion Hper. reflexivity.
  - inversion Hper as [|cell l' cells' lists' [_ Hcell] Hrest]; subst.
    simpl. rewrite (Hcell x Hx). f_equal. apply IH. exact Hrest.
Qed.

Lemma replay_rest_deltas (o : cube) (cells : list (nat * nat)) :
  shape9 o -> NoDup cells ->
  forall (combs : list (list idx)) (prev : list idx),
    map cell_of prev = cells ->
    (forall comb, In comb combs -> map cell_of comb = cells) ->
    forall k comb, (prev :: combs) !! k = Some comb ->
      replay_rest (write_all o prev) (take k (deltas idx_eqb prev combs))
      = inr (write_all o comb).
Proof.
  intros Hs Hnd. induction combs as [|c0 combs IH]; intros prev Hprev Hall k comb Hk.
  - destruct k as [|k]; simpl in Hk; [|discriminate]. injection Hk as <-.
    reflexivity.
  - destruct k as [|k]; simpl in Hk.
    + injection Hk as <-. reflexivity.
    + cbn [deltas take replay_rest].
      pose proof (apply_changes_replays o c0 Hs [] prev) as Hstep. simpl in Hstep.
      rewrite Hstep.
      * apply IH; auto.
        -- apply Hall. simpl. auto.
        -- intros comb' Hin. apply Hall. simpl. auto.
      * rewrite Hprev. symmetry. apply Hall. simpl. auto.
      * rewrite Hprev. exact Hnd.
Qed.

(** The generator's output and its replay, for the candidate lists of
    distinct cells. *)
Lemma unique_combinations_deltas_aux (cells : list (nat * nat)) (lists : list (list idx))
      (o : cube) :
  shape9 o -> NoDup cells -> per_cell cells lists ->
  exists comb0 combs,
    product lists = comb0 :: combs
    /\ _unique_combinations idx_eqb lists = inr (plain comb0 :: deltas idx_eqb comb0 combs)
    /\ (forall k comb,
          (comb0 :: combs) !! k = Some comb ->
          replay o (take (S k) (plain comb0 :: deltas idx_eqb comb0 combs))
          = inr (set_first o (plain comb))).
Proof.
  intros Hs Hnd Hper.
  destruct (_unique_combinations_yields idx_eqb lists (per_cell_nonempty _ _ Hper))
    as (comb0 & combs & Hprod & Hgen).
  exists comb0, combs. split; [exact Hprod|]. split; [exact Hgen|].
  intros k comb Hk. cbn [take replay]. rewrite !set_first_plain.
  assert (Hin : forall comb', In comb' (comb0 :: combs) -> map cell_of comb' = cells).
  { intros comb' Hin. apply (product_cells cells lists); auto. rewrite Hprod. exact Hin. }
  apply (replay_rest_deltas o cells Hs Hnd); auto.
  - apply Hin. simpl. auto.
  - intros comb' Hin'. apply Hin. simpl. auto.
Qed.

(** The elements of the generator against [product]: the first one is the
    first combination, every pair without a retraction; element [k + 1] is
    the list of pairs at the positions where combination [k + 1] differs
    from combination [k]; and consuming the first [k + 1] elements the way
    [solve] does leaves the array [solve] writes for combination [k]. *)
Lemma unique_combinations_replay (cells : list (nat * nat)) (lists : list (list idx))
        (o : cube) :
  shape9 o -> NoDup cells -> per_cell cells lists ->
  exists first generator comb0 combs,
    product lists = comb0 :: combs
    /\ _unique_combinations idx_eqb lists = inr (first :: generator)
    /\ first = map (fun c => (None, c)) comb0
    /\ (forall k prev comb,
          (comb0 :: combs) !! k = Some prev -> combs !! k = Some comb ->
          generator !! k = Some (differing_pairs idx_eqb comb prev))
    /\ (forall k comb,
          (comb0 :: combs) !! k = Some comb ->
          replay o (take (S k) (first :: generator)) = inr (set_first o (plain comb))).
Proof.
  intros Hs Hnd Hper.
  destruct (_unique_combinations_yields idx_eqb lists (per_cell_nonempty _ _ Hper))
    as (comb0 & combs & Hprod & Hgen).
  exists (map (fun c => (None, c)) comb0), (deltas idx_eqb comb0 combs), comb0, combs.
  repeat split; auto.
  - intros k prev comb Hp Hc. rewrite <- changed_differing_pairs.
    apply deltas_lookup; auto.
  - intros k comb Hk. cbn [take replay].
    fold (plain comb0). rewrite !set_first_plain.
    assert (Hin : forall comb', In comb' (comb0 :: combs) -> map cell_of comb' = cells).
    { intros comb' Hin. apply (product_cells cells lists); auto. rewrite Hprod. exact Hin. }
    apply (replay_rest_deltas o cells Hs Hnd); auto.
    + apply Hin. simpl. auto.
    + intros comb' Hin'. apply Hin. simpl. auto.
Qed.

(** ** One pass of the propagation loop *)

Lemma in_all_cells (r c : nat) : In (r, c) all_cells <-> r < 9 /\ c < 9.
Proof.
  unfold all_cells, range9. rewrite in_flat_map. split.
  - intros (r' & Hr & Hin). apply in_map_iff in Hin. destruct Hin as (c' & E & Hc).
    injection E as -> ->. apply in_seq in Hr, Hc. lia.
  - intros [Hr Hc]. exists r. split; [apply in_seq; lia|].
    apply in_map_iff. exists c. split; auto. apply in_seq. lia.
Qed.

Lemma NoDup_all_cells : NoDup all_cells.
Proof. apply (bool_decide_unpack _). vm_compute. exact I. Qed.

Lemma in_known_cells (p : grid) (r c : nat) (v : Z) :
  In (r, c, v) (known_cells p) <-> r < 9 /\ c < 9 /\ v = get2 p r c /\ v <> 0%Z.
Proof.
  unfold known_cells. rewrite in_map_iff. split.
  - intros ([r' c'] & E & Hin). simpl in E. injection E as -> -> <-.
    apply filter_In in Hin. destruct Hin as [Hin Hv]. apply in_all_cells in Hin.
    simpl in Hv. apply negb_true_iff, Z.eqb_neq in Hv. tauto.
  - intros (Hr & Hc & -> & Hv). exists (r, c). split; [reflexivity|].
    apply filter_In. split; [apply in_all_cells; auto|].
    simpl. apply negb_true_iff, Z.eqb_neq. exact Hv.
Qed.

Lemma in_unknown_cells (p : grid) (r c : nat) :
  In (r, c) (unknown_cells p) <-> r < 9 /\ c < 9 /\ get2 p r c = 0%Z.
Proof.
  unfold unknown_cells. rewrite filter_In, in_all_cells. simpl.
  rewrite Z.eqb_eq. tauto.
Qed.

Lemma shape9_eliminate (o : cube) (cell : nat * nat * Z) :
  shape9 o -> shape9 (eliminate o cell).
Proof.
  destruct cell as [[r c] v]. intros Hs. unfold eliminate.
  repeat apply shape9_assign. exact Hs.
Qed.

Lemma get3_eliminate (o : cube) (r0 c0 : nat) (v : Z) (r c d : nat) :
  shape9 o -> r < 9 -> c < 9 -> d < 9 ->
  get3 (eliminate o (r0, c0, v)) r c d =
    let d0 := Z.to_nat (v - 1) in
    if (r =? r0) && (c =? c0) && (d =? d0) then 1%Z
    else if in_box (r0 / 3) (c0 / 3) r c && (d =? d0) then 0%Z
    else if (c =? c0) && (d =? d0) then 0%Z
    else if (r =? r0) && (d =? d0) then 0%Z
    else get3 o r c d.
Proof.
  intros Hs Hr Hc Hd. unfold eliminate.
  rewrite get3_assign by (repeat apply shape9_assign; auto).
  rewrite get3_assign by (repeat apply shape9_assign; auto).
  rewrite get3_assign by (repeat apply shape9_assign; auto).
  rewrite get3_assign by auto. reflexivity.
Qed.

Lemma eliminate_bounded (o0 o : cube) (r0 c0 : nat) (v : Z) :
  shape9 o -> bounded_by o0 o ->
  get3 o0 r0 c0 (Z.to_nat (v - 1)) = 1%Z ->
  bounded_by o0 (eliminate o (r0, c0, v)).
Proof.
  intros Hs Hb Hbit r c d Hr Hc Hd. rewrite get3_eliminate by auto. cbv zeta.
  pose proof (Hb r c d Hr Hc Hd) as Hrcd.
  destruct (Nat.eqb_spec r r0) as [-> | ?]; cbn [andb].
  - destruct (Nat.eqb_spec c c0) as [-> | ?]; cbn [andb].
    + destruct (Nat.eqb_spec d (Z.to_nat (v - 1))) as [-> | ?].
      * lia.
      * rewrite !andb_false_r. exact Hrcd.
    + destruct (d =? Z.to_nat (v - 1)); rewrite ?andb_false_r, ?andb_true_r;
        [destruct (in_box _ _ _ _); lia | exact Hrcd].
  - destruct (d =? Z.to_nat (v - 1)); rewrite ?andb_false_r, ?andb_true_r.
    + destruct (in_box _ _ _ _); [lia|]. destruct (c =? c0); lia.
    + exact Hrcd.
Qed.

Lemma fold_eliminate_bounded (o0 : cube) (cells : list (nat * nat * Z)) (o : cube) :
  shape9 o -> bounded_by o0 o ->
  (forall r c v, In (r, c, v) cells -> get3 o0 r c (Z.to_nat (v - 1)) = 1%Z) ->
  shape9 (fold_left eliminate cells o) /\ bounded_by o0 (fold_left eliminate cells o).
Proof.
  revert o. induction cells as [|[[r0 c0] v] cells IH]; intros o Hs Hb Hbits; [auto|].
  cbn [fold_left]. apply IH.
  - apply shape9_eliminate, Hs.
  - apply eliminate_bounded; auto. apply Hbits. simpl. auto.
  - intros r c v' Hin. apply Hbits. simpl. auto.
Qed.

Lemma indicator_bounded (o0 o : cube) : indicator o0 -> bounded_by o0 o -> indicator o.
Proof.
  intros Hi Hb r c d Hr Hc Hd. specialize (Hb r c d Hr Hc Hd).
  destruct (Hi r c d Hr Hc Hd) as [E | E]; rewrite E in Hb; lia.
Qed.

Lemma bounded_refl (o : cube) : indicator o -> bounded_by o o.
Proof.
  intros Hi r c d Hr Hc Hd. destruct (Hi r c d Hr Hc Hd) as [E | E]; rewrite E; lia.
Qed.

(** A full pass only clears bits: the bit a known cell sets back was set
    when the pass began. *)
Lemma propagate_pass_shrinks (p : grid) (o : cube) :
  shape9 o -> indicator o -> known_ok p o ->
  shape9 (propagate_pass p o) /\ indicator (propagate_pass p o)
  /\ bounded_by o (propagate_pass p o).
Proof.
  intros Hs Hi Hk.
  destruct (fold_eliminate_bounded o (known_cells p) o Hs (bounded_refl o Hi) Hk) as [Hs' Hb].
  split; [exact Hs'|]. split; [eapply indicator_bounded; eauto | exact Hb].
Qed.

(** ** The loop invariant *)

Lemma grid_ext (p q : grid) :
  grid9 p -> grid9 q ->
  (forall r c, r < 9 -> c < 9 -> get2 p r c = get2 q r c) -> p = q.
Proof.
  intros [Hp Hprows] [Hq Hqrows] Hall.
  apply (list_eq_same_length p q 9); auto.
  intros r row1 row2 Hr H1 H2.
  rewrite Forall_lookup in Hprows, Hqrows.
  apply (list_eq_same_length row1 row2 9); eauto.
  intros c x y Hc Hx Hy. specialize (Hall r c Hr Hc).
  unfold get2 in Hall. rewrite H1, H2 in Hall. simpl in Hall.
  rewrite Hx, Hy in Hall. exact Hall.
Qed.

Lemma grid9_puzzle_of (o : cube) : shape9 o -> grid9 (puzzle_of o).
Proof.
  intros [Hlen Hrows]. unfold puzzle_of. split; [rewrite length_map; exact Hlen|].
  apply Forall_map. eapply Forall_impl; [exact Hrows|].
  intros row [Hl _]. simpl. rewrite length_map. exact Hl.
Qed.

Lemma grid9_rows_of (l : list Z) : length l = 81 -> grid9 (rows_of 9 l).
Proof.
  intros Hl. split; [apply length_rows_of|].
  rewrite Forall_lookup. intros r row Hrow.
  assert (Hr : r < 9).
  { apply lookup_lt_Some in Hrow. rewrite length_rows_of in Hrow. exact Hrow. }
  rewrite rows_of_lookup in Hrow by auto. injection Hrow as <-.
  rewrite length_take, length_drop. lia.
Qed.

Lemma get2_puzzle_of (o : cube) (r c : nat) :
  shape9 o -> r < 9 -> c < 9 ->
  get2 (puzzle_of o) r c =
    if (Zsum (cell_at o r c) =? 1)%Z
    then (Z.of_nat (argmax (cell_at o r c)) + 1)%Z else 0%Z.
Proof.
  intros Hs Hr Hc.
  destruct (shape9_cell o r c Hs Hr Hc) as (row & cl & Hrow & Hcl & _).
  unfold get2, puzzle_of, cell_at, row_at.
  rewrite lookup_map, Hrow. cbn [option_map from_option id].
  rewrite lookup_map, Hcl. reflexivity.
Qed.

(** In a cell that sums to 1 the digit set is the one [argmax] finds. *)
Lemma cell_single_argmax (o : cube) (r c d : nat) :
  shape9 o -> indicator o -> r < 9 -> c < 9 -> d < 9 ->
  Zsum (cell_at o r c) = 1%Z ->
  get3 o r c d = if d =? argmax (cell_at o r c) then 1%Z else 0%Z.
Proof.
  intros Hs Hi Hr Hc Hd Hsum.
  pose proof (shape9_cell_at o r c Hs Hr Hc) as Hlen.
  pose proof (cell_at_entries o r c Hs Hr Hc) as Hent.
  rewrite indicator_digits_set in Hsum by auto.
  destruct (single_one_shape (cell_at o r c)) as (k & m & Hshape).
  - rewrite Hent. intros x Hx. apply in_map_iff in Hx. destruct Hx as (d' & <- & Hd').
    apply in_seq in Hd'. apply Hi; lia.
  - rewrite Hent. rewrite filter_map_length. change (digits_set o r c = 1). lia.
  - unfold get3. rewrite Hshape. rewrite argmax_single_one.
    apply lookup_single_one.
    rewrite Hshape in Hlen. rewrite length_app, length_replicate in Hlen.
    simpl in Hlen. rewrite length_replicate in Hlen. lia.
Qed.

Lemma known_ok_puzzle_of (o : cube) : shape9 o -> indicator o -> known_ok (puzzle_of o) o.
Proof.
  intros Hs Hi r c v Hin. apply in_known_cells in Hin.
  destruct Hin as (Hr & Hc & -> & Hv). rewrite get2_puzzle_of in * by auto.
  destruct (Z.eqb_spec (Zsum (cell_at o r c)) 1) as [Hsum|]; [|congruence].
  replace (Z.to_nat (Z.of_nat (argmax (cell_at o r c)) + 1 - 1)) with (argmax (cell_at o r c))
    by lia.
  assert (Hlt : argmax (cell_at o r c) < 9).
  { rewrite <- (shape9_cell_at o r c Hs Hr Hc). apply argmax_lt.
    intros E. rewrite E in Hsum. discriminate. }
  rewrite (cell_single_argmax o r c _ Hs Hi Hr Hc Hlt Hsum).
  rewrite Nat.eqb_refl. reflexivity.
Qed.

Lemma np_array_byte_range (chars : list ascii) (vs : list Z) :
  np_array_byte chars = inr vs -> Forall (fun v => (0 <= v <= 9)%Z) vs.
Proof.
  revert vs. induction chars as [|ch rest IH]; intros vs H; simpl in H.
  - injection H as <-. constructor.
  - rewrite int_of_char_digit in H. destruct (is_digit ch) eqn:D; [|discriminate].
    destruct (np_array_byte rest) as [e|vs']; [discriminate|].
    injection H as <-. constructor; [|apply IH; reflexivity].
    unfold is_digit in D. apply andb_true_iff in D. destruct D as [D1 D2].
    apply Nat.leb_le in D1, D2. lia.
Qed.

Lemma _string_to_np_puzzle_grid (s : string) (p : grid) (o : cube) :
  _string_to_np_puzzle s = inr (p, o) ->
  grid9 p /\ forall r c, r < 9 -> c < 9 -> (0 <= get2 p r c <= 9)%Z.
Proof.
  unfold _string_to_np_puzzle. intros H.
  destruct (np_array_byte (list_ascii_of_string s)) as [e|vs] eqn:E; [discriminate|].
  unfold reshape9 in H. destruct (Nat.eqb_spec (length vs) 81) as [Hl|]; [|discriminate].
  assert (Hp : p = rows_of 9 vs) by congruence. subst p. clear H.
  split; [apply grid9_rows_of; exact Hl|].
  intros r c Hr Hc. rewrite get2_rows_of by auto.
  apply np_array_byte_range in E. rewrite Forall_lookup in E.
  destruct (vs !! (9 * r + c)) as [v|] eqn:Hv; simpl; [exact (E _ _ Hv) | lia].
Qed.

Lemma _string_to_np_puzzle_inv (s : string) (p : grid) (o : cube) :
  _string_to_np_puzzle s = inr (p, o) -> loop_inv p o.
Proof.
  intros H.
  destruct (_string_to_np_puzzle_entries s p o H) as [Hs Hent].
  destruct (_string_to_np_puzzle_grid s p o H) as [Hg Hrange].
  split; [exact Hs|]. split.
  - intros r c d Hr Hc Hd. rewrite Hent by auto.
    destruct (get2 p r c =? 0)%Z; [auto|].
    destruct (Z.of_nat d =? get2 p r c - 1)%Z; auto.
  - apply grid_ext; [exact Hg | apply grid9_puzzle_of; exact Hs |].
    intros r c Hr Hc. rewrite get2_puzzle_of by auto.
    rewrite cell_at_entries by auto. unfold range9. cbn [seq map].
    rewrite !Hent by lia.
    specialize (Hrange r c Hr Hc).
    assert (get2 p r c = 0 \/ get2 p r c = 1 \/ get2 p r c = 2 \/ get2 p r c = 3
            \/ get2 p r c = 4 \/ get2 p r c = 5 \/ get2 p r c = 6 \/ get2 p r c = 7
            \/ get2 p r c = 8 \/ get2 p r c = 9)%Z as Hcases by lia.
    repeat (destruct Hcases as [-> | Hcases]; [reflexivity|]).
    rewrite Hcases. reflexivity.
Qed.

(** ** Termination of the propagation loop *)

Lemma Zsum_map_le {A : Type} (f g : A -> Z) (l : list A) :
  (forall x, In x l -> (f x <= g x)%Z) -> (Zsum (map f l) <= Zsum (map g l))%Z.
Proof.
  induction l as [|x t IH]; intros H; cbn [map Zsum foldr]; [lia|].
  fold (Zsum (map f t)) (Zsum (map g t)).
  pose proof (H x ltac:(simpl; auto)).
  assert (Zsum (map f t) <= Zsum (map g t))%Z by (apply IH; intros; apply H; simpl; auto).
  lia.
Qed.

Lemma Zsum_map_eq_inv {A : Type} (f g : A -> Z) (l : list A) :
  (forall x, In x l -> (f x <= g x)%Z) ->
  (Zsum (map g l) <= Zsum (map f l))%Z ->
  forall x, In x l -> f x = g x.
Proof.
  induction l as [|y t IH]; intros H Hsum x Hx; [destruct Hx|].
  cbn [map Zsum foldr] in Hsum. fold (Zsum (map f t)) (Zsum (map g t)) in Hsum.
  pose proof (H y ltac:(simpl; auto)).
  assert (Hle : (Zsum (map f t) <= Zsum (map g t))%Z)
    by (apply Zsum_map_le; intros; apply H; simpl; auto).
  destruct Hx as [-> | Hx]; [lia|].
  apply IH; auto; [intros; apply H; simpl; auto | lia].
Qed.

Lemma total_le (o o' : cube) : bounded_by o o' -> (total o' <= total o)%Z.
Proof.
  intros Hb. unfold total. apply Zsum_map_le. intros [r c] Hin.
  apply in_all_cells in Hin. cbn [fst snd]. apply Zsum_map_le. intros d Hd.
  apply in_seq in Hd. apply Hb; lia.
Qed.

Lemma total_eq (o o' : cube) :
  shape9 o -> shape9 o' -> bounded_by o o' -> (total o <= total o')%Z -> o' = o.
Proof.
  intros Hs Hs' Hb Hle. apply cube_ext; auto. intros r c d Hr Hc Hd.
  assert (Hcell : Zsum (map (get3 o' r c) range9) = Zsum (map (get3 o r c) range9)).
  { apply (Zsum_map_eq_inv
             (fun rc => Zsum (map (get3 o' (fst rc) (snd rc)) range9))
             (fun rc => Zsum (map (get3 o (fst rc) (snd rc)) range9))
             all_cells) with (x := (r, c)); [| exact Hle | apply in_all_cells; auto].
    intros [r' c'] Hin. apply in_all_cells in Hin. cbn [fst snd].
    apply Zsum_map_le. intros d' Hd'. apply in_seq in Hd'. apply Hb; lia. }
  apply (Zsum_map_eq_inv (get3 o' r c) (get3 o r c) range9).
  - intros d' Hd'. apply in_seq in Hd'. apply Hb; lia.
  - lia.
  - apply in_seq. lia.
Qed.

Lemma total_bounds (o : cube) : indicator o -> (0 <= total o <= 729)%Z.
Proof.
  intros Hi. unfold total. split.
  - transitivity (Zsum (map (fun _ : nat * nat => 0%Z) all_cells)); [vm_compute; discriminate|].
    apply Zsum_map_le. intros [r c] Hin. apply in_all_cells in Hin. cbn [fst snd].
    transitivity (Zsum (map (fun _ : nat => 0%Z) range9)); [vm_compute; discriminate|].
    apply Zsum_map_le. intros d Hd. apply in_seq in Hd.
    destruct (Hi r c d ltac:(lia) ltac:(lia) ltac:(lia)) as [E | E]; rewrite E; lia.
  - transitivity (Zsum (map (fun _ : nat * nat => 9%Z) all_cells)); [|vm_compute; discriminate].
    apply Zsum_map_le. intros [r c] Hin. apply in_all_cells in Hin. cbn [fst snd].
    transitivity (Zsum (map (fun _ : nat => 1%Z) range9)); [|vm_compute; discriminate].
    apply Zsum_map_le. intros d Hd. apply in_seq in Hd.
    destruct (Hi r c d ltac:(lia) ltac:(lia) ltac:(lia)) as [E | E]; rewrite E; lia.
Qed.

Lemma bounded_trans (o0 o1 o2 : cube) :
  bounded_by o0 o1 -> bounded_by o1 o2 -> bounded_by o0 o2.
Proof.
  intros H1 H2 r c d Hr Hc Hd.
  specialize (H1 r c d Hr Hc Hd). specialize (H2 r c d Hr Hc Hd). lia.
Qed.

(** What one turn of the loop does to a state that satisfies the
    invariant. *)
Lemma loop_step (p : grid) (o : cube) :
  loop_inv p o ->
  loop_inv (puzzle_of (propagate_pass p o)) (propagate_pass p o)
  /\ bounded_by o (propagate_pass p o)
  /\ (puzzle_of (propagate_pass p o) <> p -> (total (propagate_pass p o) < total o)%Z).
Proof.
  intros (Hs & Hi & Hp).
  assert (Hk : known_ok p o) by (rewrite Hp; apply known_ok_puzzle_of; auto).
  destruct (propagate_pass_shrinks p o Hs Hi Hk) as (Hs' & Hi' & Hb).
  split; [split; [exact Hs' | split; [exact Hi' | reflexivity]]|]. split; [exact Hb|].
  intros Hne. pose proof (total_le _ _ Hb).
  destruct (Z.lt_ge_cases (total (propagate_pass p o)) (total o)) as [|Hge]; [assumption|].
  exfalso. apply Hne. rewrite (total_eq o (propagate_pass p o) Hs Hs' Hb Hge).
  symmetry. exact Hp.
Qed.

(** With enough fuel the loop leaves by its [break] or by its [return], in
    a state below the one it started from. *)
Lemma propagate_exits (fuel : nat) (p : grid) (o : cube) :
  loop_inv p o -> (total o < Z.of_nat fuel)%Z ->
  match propagate fuel p o with
  | Break p' o' => loop_inv p' o' /\ bounded_by o o'
  | SolvedInLoop o' => shape9 o' /\ indicator o' /\ bounded_by o o'
  | OutOfFuel => False
  end.
Proof.
  revert p o. induction fuel as [|fuel IH]; intros p o Hinv Hfuel.
  - destruct Hinv as (_ & Hi & _). pose proof (total_bounds o Hi). lia.
  - cbn [propagate].
    destruct (loop_step p o Hinv) as (Hinv' & Hb & Hdec).
    unfold grid_eqb. destruct (bool_decide_reflect (puzzle_of (propagate_pass p o) = p)).
    + split; assumption.
    + destruct (Zsum (concat (puzzle_of (propagate_pass p o))) =? 9 * 45)%Z.
      * destruct Hinv' as (Hs' & Hi' & _). split; [exact Hs' | split; [exact Hi' | exact Hb]].
      * specialize (Hdec n).
        specialize (IH _ _ Hinv' ltac:(lia)).
        destruct (propagate fuel (puzzle_of (propagate_pass p o)) (propagate_pass p o))
          as [p' o' | o' |]; auto.
        -- destruct IH as [Hi2 Hb2]. split; auto. eapply bounded_trans; eauto.
        -- destruct IH as (Hs2 & Hi2 & Hb2).
           split; [exact Hs2 | split; [exact Hi2 | eapply bounded_trans; eauto]].
Qed.

(** The fuel of [solve] is enough for every accepted input. *)
Lemma solve_loop_exits (s : string) (p : grid) (o : cube) :
  _string_to_np_puzzle s = inr (p, o) ->
  match propagate loop_fuel p o with
  | Break p' o' => loop_inv p' o' /\ bounded_by o o'
  | SolvedInLoop o' => shape9 o' /\ indicator o' /\ bounded_by o o'
  | OutOfFuel => False
  end.
Proof.
  intros H. pose proof (_string_to_np_puzzle_inv s p o H) as Hinv.
  apply propagate_exits; auto.
  destruct Hinv as (_ & Hi & _). pose proof (total_bounds o Hi).
  unfold loop_fuel. lia.
Qed.

(** [solve] never runs out of fuel. *)
Lemma solve_not_diverged (s : string) (m : Z) : solve s m <> Diverged.
Proof.
  unfold solve. destruct (_string_to_np_puzzle s) as [e|[p o]] eqn:E; [discriminate|].
  pose proof (solve_loop_exits s p o E) as Hex.
  destruct (propagate loop_fuel p o) as [p' o' | o' |]; [|discriminate|destruct Hex].
  destruct (budget_gate o' m); try discriminate.
  unfold search.
  destruct (options_idx p' o') as [e|lists]; [discriminate|].
  destruct (_unique_combinations idx_eqb lists) as [e|[|first generator]]; try discriminate.
  destruct (validate_solution (set_first o' first)) as [e|[|]]; try discriminate.
  generalize (set_first o' first). induction generator as [|ch gen IH]; intros o0; simpl.
  - discriminate.
  - destruct (apply_changes o0 ch) as [e|o1]; [discriminate|].
    destruct (validate_solution o1) as [e|[|]]; try discriminate. apply IH.
Qed.

(** ** The search *)

Lemma collect_inr {E B : Type} (l : list (E + B)) (bs : list B) :
  collect l = inr bs -> l = map inr bs.
Proof.
  revert bs. induction l as [|[e|b] l IH]; intros bs H; simpl in H.
  - injection H as <-. reflexivity.
  - discriminate.
  - destruct (collect l) as [e|bs']; [discriminate|]. injection H as <-.
    simpl. f_equal. apply IH. reflexivity.
Qed.

Lemma collect_inl {E B : Type} (l : list (E + B)) (e0 : E) :
  (forall e, In (inl e) l -> e = e0) -> (exists e, In (inl e) l) -> collect l = inl e0.
Proof.
  induction l as [|[e|b] l IH]; intros Hall (e1 & Hin); [destruct Hin| |].
  - simpl. f_equal. apply Hall. simpl. auto.
  - simpl. rewrite IH; auto.
    + intros e He. apply Hall. simpl. auto.
    + destruct Hin as [Hin | Hin]; [discriminate | eauto].
Qed.

Lemma in_where1 (cl : list Z) (d : nat) :
  In d (where1 cl) <-> d < length cl /\ default 0%Z (cl !! d) = 1%Z.
Proof.
  unfold where1. rewrite filter_In, in_seq, Z.eqb_eq. split; intros [H1 H2]; split; auto; lia.
Qed.

(** The candidate lists [solve] builds, when it can build them. *)
Lemma options_idx_lists (p : grid) (o : cube) (lists : list (list idx)) :
  options_idx p o = inr lists ->
  per_cell (unknown_cells p) lists
  /\ forall l x, In l lists -> In x l ->
       In (cell_of x) (unknown_cells p)
       /\ In (snd x) (where1 (cell_at o (fst (fst x)) (snd (fst x)))).
Proof.
  unfold options_idx. intros H. apply collect_inr in H.
  revert lists H. induction (unknown_cells p) as [|[r c] cells IH]; intros lists H.
  - destruct lists; [|discriminate]. split; [constructor|]. intros l x [].
  - destruct lists as [|l lists]; [discriminate|].
    simpl in H. injection H as Hl Hrest.
    destruct (IH lists Hrest) as [Hper Hin].
    unfold cell_options in Hl. cbn [fst snd] in Hl.
    destruct (where1 (cell_at o r c)) as [|d ds] eqn:W; [discriminate|].
    assert (El : l = map (fun d' => (r, c, d')) (d :: ds)) by congruence.
    clear Hl. subst l. split.
    + constructor; [|exact Hper]. split; [discriminate|].
      intros x Hx. apply in_map_iff in Hx. destruct Hx as (d' & <- & _). reflexivity.
    + intros l x [<- | Hl] Hx.
      * apply in_map_iff in Hx. destruct Hx as (d' & <- & Hd').
        simpl. rewrite W. auto.
      * destruct (Hin l x Hl Hx). simpl. auto.
Qed.

(** ... and when it cannot: some unknown cell has no candidate left. *)
Lemma options_idx_raises (p : grid) (o : cube) (r c : nat) :
  In (r, c) (unknown_cells p) -> where1 (cell_at o r c) = [] ->
  options_idx p o = inl (ValueError ZeroSizedIteration).
Proof.
  intros Hin Hw. unfold options_idx. apply collect_inl.
  - intros e He. apply in_map_iff in He. destruct He as (rc & Hrc & _).
    unfold cell_options in Hrc.
    destruct (where1 (cell_at o (fst rc) (snd rc))); [congruence | discriminate].
  - exists (ValueError ZeroSizedIteration). apply in_map_iff. exists (r, c).
    split; auto. unfold cell_options. simpl. rewrite Hw. reflexivity.
Qed.

Lemma NoDup_unknown_cells (p : grid) : NoDup (unknown_cells p).
Proof.
  unfold unknown_cells. apply NoDup_ListNoDup, List.NoDup_filter, NoDup_ListNoDup.
  exact NoDup_all_cells.
Qed.

Lemma written_some (comb : list idx) (r c d : nat) :
  written comb r c = Some d -> In (r, c, d) comb.
Proof.
  induction comb as [|[[r0 c0] d0] rest IH]; intros H; [discriminate|].
  simpl in H. destruct (written rest r c) as [d'|].
  - injection H as ->. right. apply IH. reflexivity.
  - destruct (Nat.eqb_spec r r0) as [-> | ?]; [|discriminate].
    destruct (Nat.eqb_spec c c0) as [-> | ?]; [|discriminate].
    injection H as ->. left. reflexivity.
Qed.

Lemma written_in (comb : list idx) (r c : nat) :
  In (r, c) (map cell_of comb) -> exists d, written comb r c = Some d.
Proof.
  induction comb as [|[[r0 c0] d0] rest IH]; intros H; [destruct H|].
  simpl. destruct (written rest r c) as [d'|] eqn:W; [eauto|].
  destruct H as [H | H].
  - unfold cell_of in H. simpl in H. injection H as -> ->.
    rewrite !Nat.eqb_refl. simpl. eauto.
  - destruct (IH H) as [d Hd]. congruence.
Qed.

Lemma Zsum_one_hot (d0 : nat) :
  d0 < 9 -> Zsum (map (fun d => if d =? d0 then 1%Z else 0%Z) range9) = 1%Z.
Proof.
  intros H. do 9 (destruct d0 as [|d0]; [reflexivity|]). lia.
Qed.

Lemma Zsum_map_ext {A : Type} (f g : A -> Z) (l : list A) :
  (forall x, In x l -> f x = g x) -> Zsum (map f l) = Zsum (map g l).
Proof.
  intros H. f_equal. apply map_ext_in. exact H.
Qed.

(** The combinations of the candidate lists of a state that satisfies the
    loop invariant: written into the array they give every cell exactly
    one digit, so [validate_solution] does not raise on them, and they only
    set bits that were candidates. *)
Lemma combination_written (p : grid) (o : cube) (lists : list (list idx)) (comb : list idx) :
  loop_inv p o -> options_idx p o = inr lists -> In comb (product lists) ->
  shape9 (write_all o comb) /\ cells_one (write_all o comb)
  /\ bounded_by o (write_all o comb).
Proof.
  intros (Hs & Hi & Hp) Hopt Hin.
  destruct (options_idx_lists p o lists Hopt) as [Hper Hel].
  pose proof (product_cells _ _ _ Hper Hin) as Hcells.
  pose proof (in_product _ _ Hin) as Hmem.
  assert (Hcomb : forall r c d, In (r, c, d) comb ->
            r < 9 /\ c < 9 /\ d < 9 /\ get3 o r c d = 1%Z).
  { intros r c d Hx. apply list_elem_of_In, list_elem_of_lookup in Hx. destruct Hx as [i Hi'].
    destruct (Forall2_lookup_l _ _ _ _ _ Hmem Hi') as (l & Hl & Hxl).
    destruct (Hel l (r, c, d)) as [Hu Hw];
      [apply list_elem_of_In, list_elem_of_lookup; eauto | exact Hxl |].
    unfold cell_of in Hu. simpl in Hu, Hw. apply in_unknown_cells in Hu.
    apply in_where1 in Hw. destruct Hu as (Hr & Hc & _).
    rewrite (shape9_cell_at o r c Hs Hr Hc) in Hw. unfold get3. tauto. }
  split; [apply shape9_write_all; exact Hs|]. split.
  - intros r c Hr Hc.
    rewrite cell_at_entries by (auto using shape9_write_all).
    destruct (written comb r c) as [d0|] eqn:W.
    + destruct (Hcomb r c d0 (written_some _ _ _ _ W)) as (_ & _ & Hd0 & _).
      rewrite <- (Zsum_one_hot d0 Hd0). apply Zsum_map_ext. intros d Hd.
      apply in_seq in Hd. rewrite get3_write_all by (auto; lia). rewrite W. reflexivity.
    + assert (Hknown : get2 p r c <> 0%Z).
      { intros Hz. assert (Hu : In (r, c) (unknown_cells p)) by (apply in_unknown_cells; auto).
        rewrite <- Hcells in Hu. destruct (written_in _ _ _ Hu) as [d Hd]. congruence. }
      rewrite Hp, get2_puzzle_of in Hknown by auto.
      destruct (Z.eqb_spec (Zsum (cell_at o r c)) 1) as [Hsum|]; [|congruence].
      rewrite <- Hsum. rewrite (cell_at_entries o r c) by auto.
      apply Zsum_map_ext. intros d Hd. apply in_seq in Hd.
      rewrite get3_write_all by (auto; lia). rewrite W. reflexivity.
  - intros r c d Hr Hc Hd. rewrite get3_write_all by auto.
    destruct (written comb r c) as [d0|] eqn:W.
    + destruct (Hcomb r c d0 (written_some _ _ _ _ W)) as (_ & _ & _ & Hbit).
      destruct (Nat.eqb_spec d d0) as [-> | ?]; [lia|].
      destruct (Hi r c d Hr Hc Hd) as [E | E]; rewrite E; lia.
    + destruct (Hi r c d Hr Hc Hd) as [E | E]; rewrite E; lia.
Qed.

(** The loop over the generator, when no combination validates. *)
Lemma search_rest_exhausted (o : cube) (cells : list (nat * nat)) :
  shape9 o -> NoDup cells ->
  forall (combs : list (list idx)) (prev : list idx),
    map cell_of prev = cells ->
    (forall comb, In comb combs ->
       map cell_of comb = cells /\ validate_solution (write_all o comb) = inr false) ->
    search_rest (write_all o prev) (deltas idx_eqb prev combs) = Exhausted.
Proof.
  intros Hs Hnd. induction combs as [|c0 combs IH]; intros prev Hprev Hall; [reflexivity|].
  destruct (Hall c0 ltac:(simpl; auto)) as [Hc0 Hv].
  cbn [deltas search_rest].
  pose proof (apply_changes_replays o c0 Hs [] prev) as Hstep. simpl in Hstep.
  rewrite Hstep by (rewrite Hprev; first [symmetry; exact Hc0 | exact Hnd]).
  rewrite Hv. apply IH; auto. intros comb Hin. apply Hall. simpl. auto.
Qed.

Lemma search_exhausted (p : grid) (o : cube) (lists : list (list idx)) :
  loop_inv p o -> options_idx p o = inr lists ->
  (forall comb, In comb (product lists) ->
     validate_solution (set_first o (plain comb)) <> inr true) ->
  search p o = Exhausted.
Proof.
  intros Hinv Hopt Hnone.
  assert (Hfalse : forall comb, In comb (product lists) ->
            validate_solution (write_all o comb) = inr false).
  { intros comb Hin.
    destruct (combination_written p o lists comb Hinv Hopt Hin) as (Hs & Hc & _).
    destruct (validate_solution_returns _ Hs Hc) as (b & Hb & _).
    specialize (Hnone comb Hin). rewrite set_first_plain in Hnone.
    destruct b; congruence. }
  destruct (options_idx_lists p o lists Hopt) as [Hper _].
  destruct (_unique_combinations_yields idx_eqb lists (per_cell_nonempty _ _ Hper))
    as (comb0 & combs & Hprod & Hgen).
  unfold search. rewrite Hopt, Hgen. fold (plain comb0). rewrite set_first_plain.
  rewrite Hfalse by (rewrite Hprod; simpl; auto).
  destruct Hinv as (Hs & _ & _).
  apply (search_rest_exhausted o (unknown_cells p) Hs (NoDup_unknown_cells p)).
  - apply (product_cells _ lists); auto. rewrite Hprod. simpl. auto.
  - intros comb Hin. split.
    + apply (product_cells _ lists); auto. rewrite Hprod. simpl. auto.
    + apply Hfalse. rewrite Hprod. simpl. auto.
Qed.

Lemma none_validates_check (o : cube) (lists : list (list idx)) :
  forallb (fun comb =>
             match validate_solution (set_first o (plain comb)) with
             | inr true => false
             | _ => true
             end) (product lists) = true ->
  forall comb, In comb (product lists) ->
    validate_solution (set_first o (plain comb)) <> inr true.
Proof.
  intros H comb Hin. rewrite forallb_forall in H. specialize (H comb Hin).
  intros E. rewrite E in H. discriminate.
Qed.

(** C3: when the search is reached (the loop left by its break, the count
    passed the budget gate, the candidate lists were built) and no
    combination of the Cartesian product validates, [solve] falls off its
    end: it returns None, not a digit string, without a warning and without
    raising. *)
Theorem solve_exhausted (s : string) (m : Z) (p : grid) (o : cube)
        (p' : grid) (o' : cube) (lists : list (list idx)) :
  _string_to_np_puzzle s = inr (p, o) ->
  propagate loop_fuel p o = Break p' o' ->
  budget_gate o' m = Enumerate ->
  options_idx p' o' = inr lists ->
  (forall comb, In comb (product lists) ->
     validate_solution (set_first o' (plain comb)) <> inr true) ->
  solve s m = Exhausted /\ return_value (solve s m) = Some None.
Proof.
  intros Hparse Hloop Hgate Hopt Hnone.
  assert (E : solve s m = Exhausted).
  { unfold solve. rewrite Hparse, Hloop, Hgate.
    pose proof (solve_loop_exits s p o Hparse) as Hex. rewrite Hloop in Hex.
    apply (search_exhausted p' o' lists); tauto. }
  rewrite E. split; reflexivity.
Qed.

Lemma solve_exhausted_witness :
  solve unsatisfiable_grid default_max_iterations = Exhausted
  /\ return_value (solve unsatisfiable_grid default_max_iterations) = Some None.
Proof.
  eapply (solve_exhausted unsatisfiable_grid default_max_iterations).
  - vm_compute. reflexivity.
  - vm_compute. reflexivity.
  - vm_compute. reflexivity.
  - vm_compute. reflexivity.
  - apply none_validates_check. vm_compute. reflexivity.
Defined.

(** ** Monotonicity *)

Lemma after_passes_inv (n : nat) (p : grid) (o : cube) :
  loop_inv p o -> loop_inv (fst (after_passes n p o)) (snd (after_passes n p o)).
Proof.
  revert p o. induction n as [|n IH]; intros p o Hinv; [exact Hinv|].
  simpl. apply IH. apply loop_step. exact Hinv.
Qed.

Lemma filter_length_le {A : Type} (f g : A -> bool) (l : list A) :
  (forall x, In x l -> f x = true -> g x = true) ->
  length (List.filter f l) <= length (List.filter g l).
Proof.
  induction l as [|x t IH]; intros H; simpl; [lia|].
  assert (length (List.filter f t) <= length (List.filter g t))
    by (apply IH; intros; apply H; simpl; auto).
  destruct (f x) eqn:F.
  - rewrite (H x) by (simpl; auto). simpl. lia.
  - destruct (g x); simpl; lia.
Qed.

Lemma digits_set_le (o o' : cube) (r c : nat) :
  bounded_by o o' -> r < 9 -> c < 9 -> digits_set o' r c <= digits_set o r c.
Proof.
  intros Hb Hr Hc. unfold digits_set. apply filter_length_le.
  intros d Hd. apply in_seq in Hd. specialize (Hb r c d Hr Hc ltac:(lia)).
  rewrite !negb_true_iff, !Z.eqb_neq. lia.
Qed.

(** C8: candidate sets never grow.  Every full pass of the propagation
    loop only clears bits (the bit a known cell sets back was set when the
    pass began), and every array the search validates has one digit in
    each unknown cell, taken from that cell's candidates. *)
Theorem candidate_sets_never_grow (s : string) (p : grid) (o : cube) :
  _string_to_np_puzzle s = inr (p, o) ->
  passes_only_clear p o /\ search_only_narrows p o.
Proof.
  intros Hparse. pose proof (_string_to_np_puzzle_inv s p o Hparse) as Hinv. split.
  - intros n pn on Hn.
    pose proof (after_passes_inv n p o Hinv) as Hinv'. rewrite Hn in Hinv'. simpl in Hinv'.
    destruct Hinv' as (Hs & Hi & Hp).
    assert (Hk : known_ok pn on) by (rewrite Hp; apply known_ok_puzzle_of; auto).
    split; [exact Hk|].
    destruct (propagate_pass_shrinks pn on Hs Hi Hk) as (_ & _ & Hb).
    intros r c Hr Hc. split.
    + intros d Hd. apply Hb; auto.
    + apply digits_set_le; auto.
  - intros p' o' lists k comb Hloop Hopt Hk.
    pose proof (solve_loop_exits s p o Hparse) as Hex. rewrite Hloop in Hex.
    destruct Hex as [Hinv' _].
    assert (Hin : In comb (product lists))
      by (apply list_elem_of_In, list_elem_of_lookup; eauto).
    destruct (combination_written p' o' lists comb Hinv' Hopt Hin) as (Hs & Hone & Hb).
    destruct (options_idx_lists p' o' lists Hopt) as [Hper _].
    destruct Hinv' as (Hs' & Hi' & Hp').
    destruct (unique_combinations_deltas_aux (unknown_cells p') lists o' Hs'
                (NoDup_unknown_cells p') Hper) as (comb0 & combs & Hprod & Hgen & Hreplay).
    exists (plain comb0 :: deltas idx_eqb comb0 combs), (write_all o' comb).
    split; [exact Hgen|]. split.
    + rewrite Hprod in Hk. rewrite (Hreplay k comb Hk). rewrite set_first_plain. reflexivity.
    + intros r c Hr Hc. split; [intros d Hd; apply Hb; auto|].
      split; [apply digits_set_le; auto|].
      intros Hz. apply Nat2Z.inj.
      rewrite <- indicator_digits_set; auto. eapply indicator_bounded; eauto.
Qed.

Lemma candidate_sets_never_grow_witness :
  passes_only_clear (puzzle_of_string unsatisfiable_grid) (options_of_string unsatisfiable_grid)
  /\ search_only_narrows (puzzle_of_string unsatisfiable_grid)
                         (options_of_string unsatisfiable_grid).
Proof.
  apply (candidate_sets_never_grow unsatisfiable_grid). vm_compute. reflexivity.
Defined.

(** Within a pass the bit of a known cell can be cleared and set back: on
    the grid that begins with two 1s the second cell has no candidate
    after the first elimination and its 1 again after the second. *)
Example restore_within_pass :
  let o := options_of_string
    "110000000000000000000000000000000000000000000000000000000000000000000000000000000" in
  digits_set o 0 1 = 1
  /\ digits_set (eliminate o (0, 0, 1%Z)) 0 1 = 0
  /\ digits_set (eliminate (eliminate o (0, 0, 1%Z)) (0, 1, 1%Z)) 0 1 = 1
  /\ digits_set (eliminate (eliminate o (0, 0, 1%Z)) (0, 1, 1%Z)) 0 0 = 0.
Proof. vm_compute. repeat split; reflexivity. Qed.

(** ** The budget gate *)

Lemma wrap64_range (z : Z) : (- 2 ^ 63 <= wrap64 z < 2 ^ 63)%Z.
Proof.
  unfold wrap64. pose proof (Z.mod_pos_bound (z + 2 ^ 63) (2 ^ 64) ltac:(lia)). lia.
Qed.

Lemma wrap64_small (z : Z) : (- 2 ^ 63 <= z < 2 ^ 63)%Z -> wrap64 z = z.
Proof.
  intros H. unfold wrap64. rewrite Z.mod_small by lia. lia.
Qed.

(** The enumeration branch is taken exactly when the wrapped count is not
    1, not negative and below the budget. *)
Lemma budget_gate_enumerate (o : cube) (m : Z) :
  budget_gate o m = Enumerate <->
  (num_possibilities o <> 1 /\ 0 <= num_possibilities o < m)%Z.
Proof.
  unfold budget_gate.
  destruct (Z.eqb_spec (num_possibilities o) 1); [split; [discriminate | lia]|].
  destruct (Z.geb_spec (num_possibilities o) m); simpl; [split; [discriminate | lia]|].
  destruct (Z.ltb_spec (num_possibilities o) 0); split; try discriminate; try lia; auto.
Qed.

(** A negative count is treated as over budget, whatever the budget. *)
Lemma budget_gate_negative (o : cube) (m : Z) :
  (num_possibilities o < 0)%Z -> budget_gate o m = OverBudget.
Proof.
  intros H. unfold budget_gate.
  destruct (Z.eqb_spec (num_possibilities o) 1); [lia|].
  destruct (Z.ltb_spec (num_possibilities o) 0); [|lia].
  rewrite orb_true_r. reflexivity.
Qed.

Lemma budget_gate_over (o : cube) (m : Z) :
  (num_possibilities o >= m)%Z -> (num_possibilities o <> 1)%Z ->
  budget_gate o m = OverBudget.
Proof.
  intros H H1. unfold budget_gate.
  destruct (Z.eqb_spec (num_possibilities o) 1); [lia|].
  destruct (Z.geb_spec (num_possibilities o) m); [reflexivity | lia].
Qed.

Lemma Zprod_zero (l : list Z) : In 0%Z l -> Zprod l = 0%Z.
Proof.
  induction l as [|x t IH]; intros H; [destruct H|].
  cbn [Zprod foldr]. fold (Zprod t). destruct H as [-> | H]; [lia|].
  rewrite IH by auto. lia.
Qed.

Lemma in_sum_axis2 (o : cube) (r c : nat) :
  shape9 o -> r < 9 -> c < 9 -> In (Zsum (cell_at o r c)) (concat (sum_axis2 o)).
Proof.
  intros Hs Hr Hc.
  destruct (shape9_cell o r c Hs Hr Hc) as (row & cl & Hrow & Hcl & _).
  unfold cell_at, row_at. rewrite Hrow. cbn [from_option id]. rewrite Hcl.
  cbn [from_option id]. apply in_concat. exists (map Zsum row). split.
  - unfold sum_axis2. apply in_map. apply list_elem_of_In, list_elem_of_lookup. eauto.
  - apply in_map. apply list_elem_of_In, list_elem_of_lookup. eauto.
Qed.

(** An empty candidate set makes the count 0. *)
Lemma empty_cell_count (o : cube) (r c : nat) :
  shape9 o -> indicator o -> r < 9 -> c < 9 -> digits_set o r c = 0 ->
  num_possibilities o = 0%Z.
Proof.
  intros Hs Hi Hr Hc H0. unfold num_possibilities, exact_possibilities.
  rewrite Zprod_zero; [reflexivity|].
  pose proof (in_sum_axis2 o r c Hs Hr Hc) as Hin.
  rewrite indicator_digits_set, H0 in Hin by auto. exact Hin.
Qed.

(** The search never warns and aborts, and it cannot run out of fuel. *)
Lemma search_rest_outcome (o : cube) (generator : list (list (option idx * idx))) :
  search_rest o generator <> Aborted /\ search_rest o generator <> Diverged.
Proof.
  revert o. induction generator as [|ch gen IH]; intros o; simpl.
  - split; discriminate.
  - destruct (apply_changes o ch) as [e|o1]; [split; discriminate|].
    destruct (validate_solution o1) as [e|[|]]; try (split; discriminate). apply IH.
Qed.

Lemma search_outcome (p : grid) (o : cube) :
  search p o <> Aborted /\ search p o <> Diverged.
Proof.
  unfold search.
  destruct (options_idx p o) as [e|lists]; [split; discriminate|].
  destruct (_unique_combinations idx_eqb lists) as [e|[|first generator]];
    try (split; discriminate).
  destruct (validate_solution (set_first o first)) as [e|[|]]; try (split; discriminate).
  apply search_rest_outcome.
Qed.

(** With a cell that has no candidate, building the candidate lists
    raises. *)
Lemma search_raises_on_empty_cell (p : grid) (o : cube) (r c : nat) :
  loop_inv p o -> r < 9 -> c < 9 -> digits_set o r c = 0 ->
  search p o = Raised (ValueError ZeroSizedIteration).
Proof.
  intros (Hs & Hi & Hp) Hr Hc H0. unfold search.
  rewrite (options_idx_raises p o r c); [reflexivity | |].
  - apply in_unknown_cells. repeat split; auto.
    rewrite Hp, get2_puzzle_of by auto.
    rewrite indicator_digits_set, H0 by auto. reflexivity.
  - destruct (where1 (cell_at o r c)) as [|d ds] eqn:W; [reflexivity|]. exfalso.
    assert (Hd : In d (where1 (cell_at o r c))) by (rewrite W; simpl; auto).
    apply in_where1 in Hd. destruct Hd as [Hlt Hone].
    rewrite (shape9_cell_at o r c Hs Hr Hc) in Hlt.
    assert (Hpos : 0 < digits_set o r c); [|lia].
    unfold digits_set.
    assert (Hin : In d (List.filter (fun d => negb (get3 o r c d =? 0)%Z) range9)).
    { apply filter_In. split; [apply in_seq; lia|]. unfold get3. rewrite Hone. reflexivity. }
    destruct (List.filter _ range9); [destruct Hin | simpl; lia].
Qed.

Lemma solve_after_break (s : string) (m : Z) (p : grid) (o : cube) (p' : grid) (o' : cube) :
  _string_to_np_puzzle s = inr (p, o) ->
  propagate loop_fuel p o = Break p' o' ->
  solve s m =
    match budget_gate o' m with
    | Unique => Returned (_np_puzzle_to_string o')
    | OverBudget => Aborted
    | Enumerate => search p' o'
    end.
Proof. intros Hparse Hloop. unfold solve. rewrite Hparse, Hloop. reflexivity. Qed.

(** When the loop breaks and the count [solve] computes is not 1 and is
    negative or at least the budget, [solve] warns and returns None. *)
Lemma solve_aborts_on_computed_count (s : string) (m : Z) (p : grid) (o : cube)
      (p' : grid) (o' : cube) :
  _string_to_np_puzzle s = inr (p, o) ->
  propagate loop_fuel p o = Break p' o' ->
  (num_possibilities o' <> 1)%Z ->
  (num_possibilities o' >= m \/ num_possibilities o' < 0)%Z ->
  solve s m = Aborted.
Proof.
  intros Hparse Hloop Hne Hover.
  rewrite (solve_after_break s m p o p' o' Hparse Hloop).
  destruct Hover as [Hge | Hneg].
  - rewrite budget_gate_over by assumption. reflexivity.
  - rewrite budget_gate_negative by assumption. reflexivity.
Qed.

(** ** Contradictory puzzles *)

(** C2, as stated, fails: on the grid with two 1s in its first row the
    elimination for the first cell empties the candidate set of the
    second; the pass goes on with the elimination for the second cell,
    which changes the grid again; the loop runs to its break, and [solve]
    ends by raising from the search set-up: no value, negative or not, is
    returned. *)
Lemma solve_contradiction_not_detected :
  exists p o p' o',
    _string_to_np_puzzle twin_ones_grid = inr (p, o)
    /\ digits_set (eliminate o (0, 0, 1%Z)) 0 1 = 0
    /\ propagate_pass p o = eliminate (eliminate o (0, 0, 1%Z)) (0, 1, 1%Z)
    /\ propagate_pass p o <> eliminate o (0, 0, 1%Z)
    /\ propagate loop_fuel p o = Break p' o'
    /\ solve twin_ones_grid default_max_iterations = Raised (ValueError ZeroSizedIteration)
    /\ return_value (solve twin_ones_grid default_max_iterations) = None.
Proof.
  do 4 eexists. split; [vm_compute; reflexivity|].
  split; [vm_compute; reflexivity|].
  split; [vm_compute; reflexivity|].
  split; [vm_compute; discriminate|].
  split; [vm_compute; reflexivity|].
  split; vm_compute; reflexivity.
Qed.

(** C2 (amended): [solve] has no check for an emptied candidate set.  When
    the loop leaves by its break with a cell that has no candidate, the
    count is 0, which for a budget of at least 1 is neither the solved nor
    the over-budget case: [solve] goes on into the search phase with that
    grid. *)
Theorem solve_contradiction_reaches_search (s : string) (m : Z) (p : grid) (o : cube)
        (p' : grid) (o' : cube) (r c : nat) :
  _string_to_np_puzzle s = inr (p, o) ->
  propagate loop_fuel p o = Break p' o' ->
  r < 9 -> c < 9 -> digits_set o' r c = 0 ->
  (1 <= m)%Z ->
  num_possibilities o' = 0%Z
  /\ budget_gate o' m = Enumerate
  /\ solve s m = search p' o'.
Proof.
  intros Hparse Hloop Hr Hc H0 Hm.
  pose proof (solve_loop_exits s p o Hparse) as Hex. rewrite Hloop in Hex.
  destruct Hex as [(Hs & Hi & _) _].
  pose proof (empty_cell_count o' r c Hs Hi Hr Hc H0) as Hnum.
  assert (Hgate : budget_gate o' m = Enumerate) by (apply budget_gate_enumerate; lia).
  repeat split; auto.
  rewrite (solve_after_break s m p o p' o' Hparse Hloop), Hgate. reflexivity.
Qed.

Lemma solve_contradiction_reaches_search_witness :
  exists p' o',
    num_possibilities o' = 0%Z
    /\ budget_gate o' default_max_iterations = Enumerate
    /\ solve twin_ones_grid default_max_iterations = search p' o'.
Proof.
  do 2 eexists.
  eapply (solve_contradiction_reaches_search twin_ones_grid default_max_iterations _ _ _ _ 0 0).
  - vm_compute. reflexivity.
  - vm_compute. reflexivity.
  - lia.
  - lia.
  - vm_compute. reflexivity.
  - vm_compute. discriminate.
Defined.

(** ** Counts that wrap around *)

(** The count of the grid with the givens 1 and 2 wraps to a negative
    number, and [solve] aborts. *)
Example negative_count_aborts :
  exists p o p' o',
    _string_to_np_puzzle two_givens_grid = inr (p, o)
    /\ propagate loop_fuel p o = Break p' o'
    /\ num_possibilities o' = (-2539626188033228800)%Z
    /\ solve two_givens_grid default_max_iterations = Aborted.
Proof.
  do 4 eexists. repeat split; vm_compute; reflexivity.
Qed.

(** C4: the budget gate compares the wrapped count.  After propagation of
    the grid with the givens 1, 2, 3 the product of the candidate-set sizes
    is far above the default budget, but it is a multiple of 2^64: the
    count [solve] computes is 0, and with the default budget as with a
    budget of 1 [solve] does not abort but starts the enumeration. *)
Theorem budget_gate_misses_wrapped_count :
  exists p o p' o',
    _string_to_np_puzzle three_givens_grid = inr (p, o)
    /\ propagate loop_fuel p o = Break p' o'
    /\ (default_max_iterations <= exact_possibilities o')%Z
    /\ num_possibilities o' = 0%Z
    /\ solve three_givens_grid default_max_iterations = search p' o'
    /\ solve three_givens_grid 1 = search p' o'
    /\ solve three_givens_grid 1 <> Aborted.
Proof.
  exists (puzzle_of_string three_givens_grid), (options_of_string three_givens_grid),
         (fst (break_state three_givens_grid)), (snd (break_state three_givens_grid)).
  assert (Hparse : _string_to_np_puzzle three_givens_grid
                   = inr (puzzle_of_string three_givens_grid,
                          options_of_string three_givens_grid))
    by (vm_compute; reflexivity).
  assert (Hloop : propagate loop_fuel (puzzle_of_string three_givens_grid)
                    (options_of_string three_givens_grid)
                  = Break (fst (break_state three_givens_grid))
                          (snd (break_state three_givens_grid)))
    by (vm_compute; reflexivity).
  assert (Hg1 : budget_gate (snd (break_state three_givens_grid)) 1 = Enumerate)
    by (vm_compute; reflexivity).
  assert (Hg : budget_gate (snd (break_state three_givens_grid)) default_max_iterations
               = Enumerate)
    by (vm_compute; reflexivity).
  assert (H1 : solve three_givens_grid 1
               = search (fst (break_state three_givens_grid))
                        (snd (break_state three_givens_grid))).
  { rewrite (solve_after_break _ 1 _ _ _ _ Hparse Hloop), Hg1. reflexivity. }
  split; [exact Hparse|]. split; [exact Hloop|].
  split; [apply Z.leb_le; vm_compute; reflexivity|].
  split; [vm_compute; reflexivity|].
  split; [|split; [exact H1|]].
  - rewrite (solve_after_break _ default_max_iterations _ _ _ _ Hparse Hloop), Hg.
    reflexivity.
  - rewrite H1. apply search_outcome.
Qed.

(** C10: the enumeration branch is entered on counts that are not the
    number of combinations.  For the grid with the givens 1, 2, 3 the
    wrapped count is 0 and passes the default budget; for the empty grid
    the wrapped count is a positive number other than 9^81, and passes the
    gate when the budget is the largest 64-bit integer. *)
Theorem wrapped_count_enters_enumeration :
  (exists p o p' o',
     _string_to_np_puzzle three_givens_grid = inr (p, o)
     /\ propagate loop_fuel p o = Break p' o'
     /\ num_possibilities o' = 0%Z
     /\ exact_possibilities o' <> num_possibilities o'
     /\ budget_gate o' default_max_iterations = Enumerate)
  /\ (exists p o p' o',
        _string_to_np_puzzle empty_grid = inr (p, o)
        /\ propagate loop_fuel p o = Break p' o'
        /\ exact_possibilities o' = (9 ^ 81)%Z
        /\ num_possibilities o' = 8677311020002933897%Z
        /\ budget_gate o' (2 ^ 63 - 1) = Enumerate).
Proof.
  split.
  - exists (puzzle_of_string three_givens_grid), (options_of_string three_givens_grid),
           (fst (break_state three_givens_grid)), (snd (break_state three_givens_grid)).
    split; [vm_compute; reflexivity|]. split; [vm_compute; reflexivity|].
    split; [vm_compute; reflexivity|]. split; [vm_compute; discriminate|].
    vm_compute. reflexivity.
  - exists (puzzle_of_string empty_grid), (options_of_string empty_grid),
           (fst (break_state empty_grid)), (snd (break_state empty_grid)).
    split; [vm_compute; reflexivity|]. split; [vm_compute; reflexivity|].
    split; [vm_compute; reflexivity|]. split; vm_compute; reflexivity.
Qed.
(** * Further properties *)

(** ** Validation of a grid given as a string *)

Lemma Zsum_indicator_count {A : Type} (f : A -> Z) (v : Z) (l : list A) :
  Zsum (map (fun x => if (v =? f x)%Z then 1%Z else 0%Z) l)
  = Z.of_nat (count_in v (map f l)).
Proof.
  unfold count_in. induction l as [|x t IH]; [reflexivity|].
  cbn [map Zsum foldr List.filter].
  fold (Zsum (map (fun x => if (v =? f x)%Z then 1%Z else 0%Z) t)). rewrite IH.
  destruct (v =? f x)%Z; simpl length; lia.
Qed.

Lemma string_get_in (s : string) (n : nat) :
  n < String.length s ->
  exists ch, String.get n s = Some ch /\ In ch (list_ascii_of_string s).
Proof.
  intros Hn. rewrite <- length_list_ascii_of_string in Hn.
  destruct (lookup_lt_is_Some_2 _ _ Hn) as [ch Hch].
  exists ch. rewrite <- get_list_ascii. split; auto.
  apply list_elem_of_In, list_elem_of_lookup. eauto.
Qed.

Lemma completeb_spec (s : string) : completeb s = true <-> complete s.
Proof.
  unfold completeb, complete. rewrite andb_true_iff, Nat.eqb_eq, forallb_forall.
  split; intros [Hl Hall]; split; auto; intros ch Hin; specialize (Hall ch Hin).
  - apply andb_true_iff in Hall. destruct Hall as [Hd Hz]. split; auto.
    intros ->. discriminate.
  - destruct Hall as [Hd Hz]. rewrite Hd. simpl.
    destruct (Ascii.eqb_spec ch "0"%char); [contradiction | reflexivity].
Qed.

Lemma complete_not_malformed (s : string) : complete s -> ~ malformed s.
Proof.
  intros [Hl Hall] [Hlen | (ch & Hin & Hd)]; [congruence|].
  destruct (Hall ch Hin). congruence.
Qed.

(** The arrays of a complete string. *)
Lemma complete_arrays (s : string) :
  complete s ->
  exists p o, _string_to_np_puzzle s = inr (p, o)
    /\ (forall r c, r < 9 -> c < 9 -> (1 <= get2 p r c <= 9)%Z)
    /\ (forall r c d, r < 9 -> c < 9 -> d < 9 ->
          get3 o r c d = if (Z.of_nat d + 1 =? get2 p r c)%Z then 1%Z else 0%Z).
Proof.
  intros Hc. destruct (_string_to_np_puzzle_accepts s (complete_not_malformed s Hc))
    as (p & o & Hparse).
  exists p, o. split; [exact Hparse|].
  assert (Hrange : forall r c, r < 9 -> c < 9 -> (1 <= get2 p r c <= 9)%Z).
  { intros r c Hr Hc'. destruct Hc as [Hl Hall].
    destruct (string_get_in s (9 * r + c) ltac:(lia)) as (ch & Hget & Hin).
    pose proof (_string_to_np_puzzle_digits s p o r c ch Hparse Hr Hc' Hget) as Hv.
    apply (int_of_char_nonzero ch); auto. apply Hall. exact Hin. }
  split; [exact Hrange|].
  intros r c d Hr Hc' Hd.
  destruct (_string_to_np_puzzle_entries s p o Hparse) as [_ Hent].
  rewrite Hent by auto. specialize (Hrange r c Hr Hc').
  destruct (Z.eqb_spec (get2 p r c) 0); [lia|].
  destruct (Z.eqb_spec (Z.of_nat d) (get2 p r c - 1)), (Z.eqb_spec (Z.of_nat d + 1) (get2 p r c));
    auto; lia.
Qed.

Lemma one_hot_digit_sum (v : Z) :
  (1 <= v <= 9)%Z ->
  Zsum (map (fun d => if (Z.of_nat d + 1 =? v)%Z then 1%Z else 0%Z) range9) = 1%Z.
Proof.
  intros Hv.
  assert (v = 1 \/ v = 2 \/ v = 3 \/ v = 4 \/ v = 5 \/ v = 6 \/ v = 7 \/ v = 8 \/ v = 9)%Z
    as Hcases by lia.
  repeat (destruct Hcases as [-> | Hcases]; [reflexivity|]). subst v. reflexivity.
Qed.

Section DigitArrays.
Variables (p : grid) (o : cube).
Hypothesis Hshape : shape9 o.
Hypothesis Hdigits : forall r c, r < 9 -> c < 9 -> (1 <= get2 p r c <= 9)%Z.
Hypothesis Hentries : forall r c d, r < 9 -> c < 9 -> d < 9 ->
  get3 o r c d = if (Z.of_nat d + 1 =? get2 p r c)%Z then 1%Z else 0%Z.

Lemma digit_array_cells_one : cells_one o.
Proof.
  intros r c Hr Hc. rewrite cell_at_entries by auto.
  rewrite <- (one_hot_digit_sum (get2 p r c)) by auto.
  apply Zsum_map_ext. intros d Hd. apply in_seq in Hd. apply Hentries; lia.
Qed.

Lemma digit_array_row_count (r d : nat) :
  r < 9 -> d < 9 ->
  sum_axis1 o r d = Z.of_nat (count_in (Z.of_nat d + 1) (row_digits p r)).
Proof.
  intros Hr Hd. unfold sum_axis1, row_digits.
  rewrite <- Zsum_indicator_count. apply Zsum_map_ext.
  intros c Hc. apply in_seq in Hc. apply Hentries; lia.
Qed.

Lemma digit_array_col_count (c d : nat) :
  c < 9 -> d < 9 ->
  sum_axis0 o c d = Z.of_nat (count_in (Z.of_nat d + 1) (col_digits p c)).
Proof.
  intros Hc Hd. unfold sum_axis0, col_digits.
  rewrite <- Zsum_indicator_count. apply Zsum_map_ext.
  intros r Hr. apply in_seq in Hr. apply Hentries; lia.
Qed.

Lemma digit_array_box_count (bi bj d : nat) :
  bi < 3 -> bj < 3 -> d < 9 ->
  box_sum o (3 * bi) (3 * bj) d = Z.of_nat (count_in (Z.of_nat d + 1) (box_digits p bi bj)).
Proof.
  intros Hbi Hbj Hd. unfold box_sum, box_digits.
  rewrite <- (Zsum_indicator_count (fun rc => get2 p (fst rc) (snd rc))).
  apply Zsum_map_ext.
  intros [r c] Hin. apply in_box_cells in Hin. cbn [fst snd]. apply Hentries; lia.
Qed.

(** The three legality checks on the array say that the digit grid obeys
    the rules. *)
Lemma digit_array_valid :
  (rows_one o /\ cols_one o /\ boxes_one o) <-> valid_grid p.
Proof.
  split.
  - intros (Hr & Hc & Hb) v Hv.
    assert (Ev : v = (Z.of_nat (Z.to_nat (v - 1)) + 1)%Z) by lia.
    assert (Hd : Z.to_nat (v - 1) < 9) by lia.
    rewrite Ev. repeat split.
    + intros r Hr'. apply Nat2Z.inj. rewrite <- digit_array_row_count by auto. apply Hr; auto.
    + intros c Hc'. apply Nat2Z.inj. rewrite <- digit_array_col_count by auto. apply Hc; auto.
    + intros bi bj Hbi Hbj. apply Nat2Z.inj.
      rewrite <- digit_array_box_count by auto. apply Hb; auto.
  - intros Hv. repeat split.
    + intros r d Hr Hd. rewrite digit_array_row_count by auto.
      destruct (Hv (Z.of_nat d + 1)%Z ltac:(lia)) as (H & _ & _). rewrite H by auto. reflexivity.
    + intros c d Hc Hd. rewrite digit_array_col_count by auto.
      destruct (Hv (Z.of_nat d + 1)%Z ltac:(lia)) as (_ & H & _). rewrite H by auto. reflexivity.
    + intros bi bj d Hbi Hbj Hd. rewrite digit_array_box_count by auto.
      destruct (Hv (Z.of_nat d + 1)%Z ltac:(lia)) as (_ & _ & H). rewrite H by auto. reflexivity.
Qed.

Lemma digit_array_validate :
  exists b, validate_solution o = inr b /\ (b = true <-> valid_grid p).
Proof.
  destruct (validate_solution_returns o Hshape digit_array_cells_one) as (b & Hb & Hiff).
  exists b. split; [exact Hb|]. rewrite Hiff, <- digit_array_valid. split.
  - intros (Hr & Hc & Hbx). repeat split; auto. intros bi bj d. apply all_boxes_one; auto.
  - intros (Hr & Hc & Hbx). repeat split; auto.
    intros i j d Hi Hj Hd. simpl in Hi, Hj.
    destruct Hi as [<- | [<- | []]], Hj as [<- | [<- | []]].
    + apply (Hbx 0 0); auto; lia.
    + apply (Hbx 0 1); auto; lia.
    + apply (Hbx 1 0); auto; lia.
    + apply (Hbx 1 1); auto; lia.
Qed.
End DigitArrays.

Lemma valid_gridb_spec (p : grid) : valid_gridb p = true -> valid_grid p.
Proof.
  unfold valid_gridb. rewrite forallb_forall. intros H v Hv.
  assert (Hin : In v digits19).
  { unfold digits19. apply in_map_iff. exists (Z.to_nat (v - 1)). split; [lia|].
    apply in_seq. lia. }
  specialize (H v Hin). rewrite !andb_true_iff in H. destruct H as [[Hr Hc] Hb].
  rewrite forallb_range9 in Hr, Hc. rewrite forallb_forall in Hb.
  repeat split.
  - intros r Hr'. apply Nat.eqb_eq. auto.
  - intros c Hc'. apply Nat.eqb_eq. auto.
  - intros bi bj Hbi Hbj. specialize (Hb bi ltac:(apply in_seq; lia)).
    rewrite forallb_forall in Hb. apply Nat.eqb_eq, Hb, in_seq. lia.
Qed.

(** X1: on a complete grid [validate_solution_list_or_string] does not
    raise, and it returns True exactly when every digit occurs once in
    every row, every column and every box of the grid. *)
Theorem validate_string_iff_valid_grid (s : string) :
  complete s ->
  exists b, validate_solution_list_or_string s = inr b
            /\ (b = true <-> valid_grid (puzzle_of_string s)).
Proof.
  intros Hc. destruct (complete_arrays s Hc) as (p & o & Hparse & Hrange & Hent).
  unfold validate_solution_list_or_string, puzzle_of_string. rewrite Hparse.
  destruct (_string_to_np_puzzle_entries s p o Hparse) as [Hs _].
  apply (digit_array_validate p o); auto.
Qed.

Lemma validate_string_iff_valid_grid_witness :
  validate_solution_list_or_string solved_grid = inr true
  /\ validate_solution_list_or_string box_duplicate_grid = inr false.
Proof.
  split.
  - destruct (validate_string_iff_valid_grid solved_grid) as (b & Hb & Hiff).
    + apply completeb_spec. vm_compute. reflexivity.
    + rewrite Hb. f_equal. apply Hiff. apply valid_gridb_spec. vm_compute. reflexivity.
  - destruct (validate_string_iff_valid_grid box_duplicate_grid) as (b & Hb & Hiff).
    + apply completeb_spec. vm_compute. reflexivity.
    + rewrite Hb. f_equal. destruct b; [|reflexivity]. exfalso.
      destruct (proj1 Hiff eq_refl 3%Z ltac:(lia)) as (Hrow & _ & _).
      specialize (Hrow 0 ltac:(lia)). vm_compute in Hrow. discriminate.
Defined.

Lemma malformed_dec (s : string) : malformed s \/ ~ malformed s.
Proof.
  destruct (Nat.eq_dec (String.length s) 81) as [Hl|Hl]; [|left; left; exact Hl].
  destruct (forallb is_digit (list_ascii_of_string s)) eqn:D.
  - right. intros [Hlen | (ch & Hin & Hd)]; [congruence|].
    rewrite forallb_forall in D. rewrite D in Hd by auto. discriminate.
  - left. right.
    destruct (existsb (fun ch => negb (is_digit ch)) (list_ascii_of_string s)) eqn:E.
    + apply existsb_exists in E. destruct E as (ch & Hin & Hd). exists ch. split; auto.
      destruct (is_digit ch); [discriminate | reflexivity].
    + exfalso. apply not_true_iff_false in D. apply D, forallb_forall. intros ch Hin.
      destruct (is_digit ch) eqn:Hd; [reflexivity|]. exfalso.
      assert (existsb (fun ch => negb (is_digit ch)) (list_ascii_of_string s) = true).
      { apply existsb_exists. exists ch. rewrite Hd. auto. }
      congruence.
Qed.

Lemma not_complete_cases (s : string) :
  ~ complete s ->
  malformed s \/ (~ malformed s /\ In "0"%char (list_ascii_of_string s)).
Proof.
  intros Hn. destruct (malformed_dec s) as [Hbad|Hok]; [left; exact Hbad|].
  right. split; [exact Hok|].
  destruct (in_dec ascii_dec "0"%char (list_ascii_of_string s)) as [Hin|Hnin]; [exact Hin|].
  exfalso. apply Hn. split.
  - destruct (Nat.eq_dec (String.length s) 81); [assumption|]. exfalso. apply Hok. left. auto.
  - intros ch Hch. split.
    + destruct (is_digit ch) eqn:Hd; [reflexivity|]. exfalso. apply Hok. right. eauto.
    + intros ->. contradiction.
Qed.

(** A blank cell of the parsed array has nine digits set, so the array
    fails the structural test of [validate_solution]. *)
Lemma blank_not_cells_one (s : string) (p : grid) (o : cube) :
  _string_to_np_puzzle s = inr (p, o) -> In "0"%char (list_ascii_of_string s) ->
  ~ cells_one o.
Proof.
  intros Hparse Hin Hcells.
  apply list_elem_of_In, list_elem_of_lookup in Hin. destruct Hin as [n Hn].
  assert (Hlt : n < 81).
  { apply lookup_lt_Some in Hn. rewrite length_list_ascii_of_string in Hn.
    destruct (Nat.eq_dec (String.length s) 81) as [E|Hne]; [lia|].
    destruct (_string_to_np_puzzle_rejects s (or_introl Hne)) as [why Hwhy]. congruence. }
  rewrite get_list_ascii in Hn.
  assert (En : n = 9 * (n / 9) + n mod 9) by (apply Nat.div_mod_eq).
  assert (Hr : n / 9 < 9) by (apply Nat.Div0.div_lt_upper_bound; lia).
  assert (Hc : n mod 9 < 9) by (apply Nat.mod_upper_bound; lia).
  rewrite En in Hn.
  pose proof (_string_to_np_puzzle_digits s p o _ _ _ Hparse Hr Hc Hn) as Hv.
  assert (H0 : get2 p (n / 9) (n mod 9) = 0%Z).
  { change (int_of_char "0"%char) with (Some 0%Z) in Hv. congruence. }
  destruct (_string_to_np_puzzle_entries s p o Hparse) as [Hs Hent].
  specialize (Hcells _ _ Hr Hc). rewrite cell_at_entries in Hcells by auto.
  rewrite (Zsum_map_ext _ (fun _ => 1%Z)) in Hcells; [vm_compute in Hcells; discriminate|].
  intros d Hd. apply in_seq in Hd. rewrite Hent by lia. rewrite H0. reflexivity.
Qed.

(** X2: on every string of one-byte characters that is not a complete
    grid [validate_solution_list_or_string] raises ValueError and returns
    no boolean; a well-formed puzzle with a blank ('0') cell is rejected
    by the structural test of [validate_solution]. *)
Theorem validate_string_raises_unless_complete (s : string) :
  ~ complete s ->
  exists why, validate_solution_list_or_string s = inl (ValueError why)
              /\ (~ malformed s -> why = NotOneDigit).
Proof.
  intros Hn. unfold validate_solution_list_or_string.
  destruct (not_complete_cases s Hn) as [Hbad | [Hok H0]].
  - destruct (_string_to_np_puzzle_rejects s Hbad) as [why ->].
    exists why. split; [reflexivity | tauto].
  - destruct (_string_to_np_puzzle_accepts s Hok) as (p & o & Hparse). rewrite Hparse.
    exists NotOneDigit. split; [|reflexivity].
    destruct (_string_to_np_puzzle_entries s p o Hparse) as [Hs _].
    apply validate_solution_raises; [exact Hs|].
    apply (blank_not_cells_one s p o); auto.
Qed.

Lemma validate_string_raises_unless_complete_witness :
  validate_solution_list_or_string zero_blank_grid = inl (ValueError NotOneDigit).
Proof.
  destruct (validate_string_raises_unless_complete zero_blank_grid) as (why & Hwhy & Hnot).
  - intros Hc. apply completeb_spec in Hc. vm_compute in Hc. discriminate.
  - rewrite Hwhy, Hnot; [reflexivity|].
    intros [Hlen | (ch & Hin & Hd)]; [vm_compute in Hlen; congruence|].
    assert (D : forallb is_digit (list_ascii_of_string zero_blank_grid) = true)
      by (vm_compute; reflexivity).
    rewrite forallb_forall in D. rewrite D in Hd by auto. discriminate.
Defined.

(** ** From a string to the array and back *)


Lemma py_str_blank_value (ch : ascii) (v : Z) :
  int_of_char ch = Some v ->
  py_str (blank_value v) = String (blank_to_one ch) EmptyString.
Proof.
  rewrite int_of_char_digit. unfold is_digit.
  destruct ((48 <=? nat_of_ascii ch) && (nat_of_ascii ch <=? 57)) eqn:D; [|discriminate].
  intros H. injection H as <-.
  apply andb_true_iff in D. destruct D as [D1 D2]. apply Nat.leb_le in D1, D2.
  rewrite <- (ascii_nat_embedding ch).
  assert (Hcases : nat_of_ascii ch = 48 \/ nat_of_ascii ch = 49 \/ nat_of_ascii ch = 50
                   \/ nat_of_ascii ch = 51 \/ nat_of_ascii ch = 52 \/ nat_of_ascii ch = 53
                   \/ nat_of_ascii ch = 54 \/ nat_of_ascii ch = 55 \/ nat_of_ascii ch = 56
                   \/ nat_of_ascii ch = 57) by lia.
  repeat (destruct Hcases as [-> | Hcases]; [reflexivity|]). rewrite Hcases. reflexivity.
Qed.

Lemma join_blank_values (chars : list ascii) (vs : list Z) :
  np_array_byte chars = inr vs ->
  String.concat "" (map py_str (map blank_value vs))
  = string_of_list_ascii (map blank_to_one chars).
Proof.
  revert vs. induction chars as [|ch rest IH]; intros vs H; simpl in H.
  - injection H as <-. reflexivity.
  - destruct (int_of_char ch) as [v|] eqn:Hv; [|discriminate].
    destruct (np_array_byte rest) as [e|vs'] eqn:E; [discriminate|].
    injection H as <-. specialize (IH vs' eq_refl).
    cbn [map String.concat string_of_list_ascii].
    rewrite (py_str_blank_value ch v Hv).
    destruct vs' as [|v' t'].
    + destruct rest as [|c' r']; [reflexivity|].
      apply np_array_byte_length in E. discriminate.
    + cbn [map] in IH |- *. cbn [String.append]. f_equal. exact IH.
Qed.

Lemma string_map_list (f : ascii -> ascii) (s : string) :
  string_of_list_ascii (map f (list_ascii_of_string s)) = string_map f s.
Proof. induction s as [|ch s IH]; simpl; congruence. Qed.

Lemma string_map_id (f : ascii -> ascii) (s : string) :
  (forall ch, In ch (list_ascii_of_string s) -> f ch = ch) -> string_map f s = s.
Proof.
  induction s as [|ch s IH]; intros H; simpl; [reflexivity|].
  rewrite H by (simpl; auto). f_equal. apply IH. intros c Hc. apply H. simpl. auto.
Qed.

Lemma concat_rows_of (n : nat) (l : list Z) :
  length l = 9 * n -> concat (rows_of n l) = l.
Proof.
  revert l. induction n as [|n IH]; intros l Hl; simpl.
  - destruct l; [reflexivity | discriminate].
  - rewrite IH by (rewrite length_drop; lia). apply take_drop.
Qed.

(** The cell [argmax] reads from a parsed array: a blank has all nine
    digits set and reads as 1. *)
Lemma argmax_parsed_cell (v : Z) :
  (0 <= v <= 9)%Z ->
  (Z.of_nat (argmax (map (fun d => if (v =? 0)%Z then 1%Z
                                   else if (Z.of_nat d =? v - 1)%Z then 1%Z else 0%Z) range9)) + 1)%Z
  = blank_value v.
Proof.
  intros Hv.
  assert (v = 0 \/ v = 1 \/ v = 2 \/ v = 3 \/ v = 4 \/ v = 5 \/ v = 6 \/ v = 7 \/ v = 8 \/ v = 9)%Z
    as Hcases by lia.
  repeat (destruct Hcases as [-> | Hcases]; [reflexivity|]). subst v. reflexivity.
Qed.

Lemma argmax_plus1_parsed (s : string) (p : grid) (o : cube) :
  _string_to_np_puzzle s = inr (p, o) ->
  exists vs, np_array_byte (list_ascii_of_string s) = inr vs
             /\ concat (argmax_plus1 o) = map blank_value vs.
Proof.
  intros Hparse.
  destruct (_string_to_np_puzzle_entries s p o Hparse) as [Hs Hent].
  destruct (_string_to_np_puzzle_grid s p o Hparse) as [Hg Hrange].
  unfold _string_to_np_puzzle in Hparse.
  destruct (np_array_byte (list_ascii_of_string s)) as [e|vs] eqn:E; [discriminate|].
  unfold reshape9 in Hparse. destruct (Nat.eqb_spec (length vs) 81) as [Hl|]; [|discriminate].
  assert (Hp : p = rows_of 9 vs) by congruence.
  exists vs. split; [reflexivity|].
  rewrite <- (concat_rows_of 9 (map blank_value vs)) by (rewrite length_map; lia).
  f_equal. destruct (argmax_plus1_rows o Hs) as [Hlen Hrows].
  apply grid_ext; [split; assumption | apply grid9_rows_of; rewrite length_map; lia |].
  intros r c Hr Hc. rewrite get2_argmax_plus1 by auto.
  rewrite cell_at_entries by auto.
  rewrite (map_ext_in _ (fun d => if (get2 p r c =? 0)%Z then 1%Z
             else if (Z.of_nat d =? get2 p r c - 1)%Z then 1%Z else 0%Z)).
  2:{ intros d Hd. apply in_seq in Hd. apply Hent; lia. }
  rewrite argmax_parsed_cell by auto.
  rewrite get2_rows_of by auto. rewrite Hp, get2_rows_of by auto.
  rewrite lookup_map.
  destruct (lookup_lt_is_Some_2 vs (9 * r + c) ltac:(lia)) as [v ->]. reflexivity.
Qed.

Lemma printed_parse (s : string) (p : grid) (o : cube) :
  _string_to_np_puzzle s = inr (p, o) ->
  _np_puzzle_to_string o = string_map blank_to_one s.
Proof.
  intros Hparse. destruct (argmax_plus1_parsed s p o Hparse) as (vs & Hvs & Hcat).
  unfold _np_puzzle_to_string. rewrite Hcat, (join_blank_values _ vs Hvs).
  apply string_map_list.
Qed.

Lemma printed_parse_complete (s : string) (p : grid) (o : cube) :
  _string_to_np_puzzle s = inr (p, o) -> complete s -> _np_puzzle_to_string o = s.
Proof.
  intros Hparse [_ Hall]. rewrite (printed_parse s p o Hparse). apply string_map_id.
  intros ch Hin. unfold blank_to_one.
  destruct (Ascii.eqb_spec ch "0"%char) as [->|]; [|reflexivity].
  destruct (Hall _ Hin). congruence.
Qed.

(** X3: for a string of one-byte characters that [_string_to_np_puzzle]
    accepts, printing the candidate array prints, character by character,
    the decimal digit of the character's value, with 1 for a blank (the
    value 0, whose cell is all ones and has argmax 0): the result is the
    input with every '0' replaced by '1', and a complete grid comes back
    unchanged. *)
Theorem parse_then_print (s : string) (p : grid) (o : cube) :
  _string_to_np_puzzle s = inr (p, o) ->
  (exists values, np_array_byte (list_ascii_of_string s) = inr values
     /\ _np_puzzle_to_string o = String.concat "" (map py_str (map blank_value values)))
  /\ _np_puzzle_to_string o = string_map blank_to_one s
  /\ (complete s -> _np_puzzle_to_string o = s).
Proof.
  intros Hparse. split; [|split].
  - destruct (argmax_plus1_parsed s p o Hparse) as (vs & Hvs & Hcat).
    exists vs. split; [exact Hvs|]. unfold _np_puzzle_to_string. rewrite Hcat. reflexivity.
  - apply (printed_parse s p o Hparse).
  - apply (printed_parse_complete s p o Hparse).
Qed.

Lemma parse_then_print_witness :
  (exists values, np_array_byte (list_ascii_of_string zero_blank_grid) = inr values
     /\ _np_puzzle_to_string (options_of_string zero_blank_grid)
        = String.concat "" (map py_str (map blank_value values)))
  /\ _np_puzzle_to_string (options_of_string zero_blank_grid)
     = string_map blank_to_one zero_blank_grid
  /\ (complete zero_blank_grid ->
      _np_puzzle_to_string (options_of_string zero_blank_grid) = zero_blank_grid).
Proof.
  apply (parse_then_print zero_blank_grid (puzzle_of_string zero_blank_grid)).
  vm_compute. reflexivity.
Defined.

(** ** The search returns the first combination that validates *)

Lemma search_rest_first_valid (o : cube) (cells : list (nat * nat)) :
  shape9 o -> NoDup cells ->
  forall (combs : list (list idx)) (prev : list idx),
    map cell_of prev = cells ->
    (forall comb, In comb combs ->
       map cell_of comb = cells
       /\ exists b, validate_solution (write_all o comb) = inr b) ->
    search_rest (write_all o prev) (deltas idx_eqb prev combs)
    = match first_valid o combs with
      | Some comb => Returned (_np_puzzle_to_string (write_all o comb))
      | None => Exhausted
      end.
Proof.
  intros Hs Hnd. induction combs as [|c0 combs IH]; intros prev Hprev Hall; [reflexivity|].
  destruct (Hall c0 ltac:(simpl; auto)) as [Hc0 [b Hv]].
  cbn [deltas search_rest].
  pose proof (apply_changes_replays o c0 Hs [] prev) as Hstep. simpl in Hstep.
  rewrite Hstep by (rewrite Hprev; first [symmetry; exact Hc0 | exact Hnd]).
  unfold first_valid. cbn [find]. unfold validates at 1. rewrite Hv.
  destruct b; [reflexivity|].
  apply IH; auto. intros comb Hin. apply Hall. simpl. auto.
Qed.

Lemma search_finds_first_valid (p : grid) (o : cube) (lists : list (list idx)) :
  loop_inv p o -> options_idx p o = inr lists ->
  search p o = match first_valid o (product lists) with
               | Some comb => Returned (_np_puzzle_to_string (write_all o comb))
               | None => Exhausted
               end.
Proof.
  intros Hinv Hopt.
  assert (Hret : forall comb, In comb (product lists) ->
            exists b, validate_solution (write_all o comb) = inr b).
  { intros comb Hin.
    destruct (combination_written p o lists comb Hinv Hopt Hin) as (Hs & Hc & _).
    destruct (validate_solution_returns _ Hs Hc) as (b & Hb & _). eauto. }
  destruct (options_idx_lists p o lists Hopt) as [Hper _].
  destruct (_unique_combinations_yields idx_eqb lists (per_cell_nonempty _ _ Hper))
    as (comb0 & combs & Hprod & Hgen).
  unfold search. rewrite Hopt, Hgen. fold (plain comb0). rewrite set_first_plain.
  rewrite Hprod. unfold first_valid. cbn [find]. unfold validates at 1.
  destruct (Hret comb0 ltac:(rewrite Hprod; simpl; auto)) as [b ->].
  destruct b; [reflexivity|].
  destruct Hinv as (Hs & _ & _).
  apply (search_rest_first_valid o (unknown_cells p) Hs (NoDup_unknown_cells p)).
  - apply (product_cells _ lists); auto. rewrite Hprod. simpl. auto.
  - intros comb Hin. split.
    + apply (product_cells _ lists); auto. rewrite Hprod. simpl. auto.
    + apply Hret. rewrite Hprod. simpl. auto.
Qed.

(** X4: when every unknown cell has a candidate, the search returns the
    string of the first combination of the Cartesian product, in the
    order of [itertools.product], whose array passes [validate_solution];
    it falls off the end of [solve] exactly when there is none. *)
Theorem search_first_valid (p : grid) (o : cube) (lists : list (list idx)) :
  loop_inv p o -> options_idx p o = inr lists ->
  search p o = match first_valid o (product lists) with
               | Some comb => Returned (_np_puzzle_to_string (write_all o comb))
               | None => Exhausted
               end.
Proof. exact (search_finds_first_valid p o lists). Qed.

Lemma search_first_valid_witness :
  search (fst (break_state two_solutions_grid)) (snd (break_state two_solutions_grid))
  = Returned solved_grid.
Proof.
  rewrite (search_first_valid _ _
             (map (fun rc => [(fst rc, snd rc, 5); (fst rc, snd rc, 6)])
                  [(0, 3); (0, 4); (3, 3); (3, 4)])).
  - vm_compute. reflexivity.
  - pose proof (solve_loop_exits two_solutions_grid (puzzle_of_string two_solutions_grid)
                  (options_of_string two_solutions_grid) ltac:(vm_compute; reflexivity)) as Hex.
    assert (E : propagate loop_fuel (puzzle_of_string two_solutions_grid)
                  (options_of_string two_solutions_grid)
                = Break (fst (break_state two_solutions_grid))
                        (snd (break_state two_solutions_grid)))
      by (vm_compute; reflexivity).
    rewrite E in Hex. tauto.
  - vm_compute. reflexivity.
Defined.

(** ** Propagation keeps every solution *)

Lemma solutionb_spec (S : cube) : solutionb S = true -> solution S.
Proof.
  unfold solutionb, validates. rewrite !andb_true_iff. intros [[[Hs Hi] Hd] Hv].
  split; [apply has_shape9_spec; exact Hs|]. split.
  - apply one_hot_check. rewrite Hi, Hd. reflexivity.
  - destruct (validate_solution S) as [e|[|]]; congruence.
Qed.

Lemma solution_rules (S : cube) :
  solution S -> indicator S /\ cells_one S /\ rows_one S /\ cols_one S /\ boxes_one S.
Proof.
  intros (Hs & Hoh & Hv). pose proof (one_hot_cells_one S Hs Hoh) as Hc.
  destruct (validate_solution_true_boxes S Hs Hc Hv) as (Hr & Hcl & Hb).
  destruct Hoh as [Hi _]. tauto.
Qed.

Lemma in_box_same_box (r0 c0 r c : nat) :
  in_box (r0 / 3) (c0 / 3) r c = true <-> same_box r0 c0 r c.
Proof.
  unfold in_box, same_box. rewrite !andb_true_iff, !Nat.leb_le, !Nat.ltb_lt.
  pose proof (Nat.div_mod_eq r0 3). pose proof (Nat.div_mod_eq r 3).
  pose proof (Nat.div_mod_eq c0 3). pose proof (Nat.div_mod_eq c 3).
  pose proof (Nat.mod_upper_bound r0 3). pose proof (Nat.mod_upper_bound r 3).
  pose proof (Nat.mod_upper_bound c0 3). pose proof (Nat.mod_upper_bound c 3).
  lia.
Qed.

(** In a solution a digit occurs once among the cells that share a row, a
    column or a box. *)
Lemma solution_peer (S : cube) (r0 c0 r c d : nat) :
  solution S -> r0 < 9 -> c0 < 9 -> r < 9 -> c < 9 -> d < 9 ->
  get3 S r0 c0 d = 1%Z -> (r, c) <> (r0, c0) ->
  r = r0 \/ c = c0 \/ in_box (r0 / 3) (c0 / 3) r c = true ->
  get3 S r c d = 0%Z.
Proof.
  intros Hsol Hr0 Hc0 Hr Hc Hd H1 Hne Hpeer.
  destruct (solution_rules S Hsol) as (Hi & _ & Hrows & Hcols & Hboxes).
  destruct (Hi r c d Hr Hc Hd) as [E|E]; [exact E|]. exfalso.
  assert (Hnn : forall (f : nat -> Z), (forall x, x < 9 -> f x = 0%Z \/ f x = 1%Z) ->
            forall z, In z range9 -> (0 <= f z)%Z).
  { intros f Hf z Hz. apply in_seq in Hz. destruct (Hf z ltac:(lia)); lia. }
  destruct Hpeer as [-> | [-> | Hbox]].
  - assert (c <> c0) by congruence.
    pose proof (Zsum_two_ones (fun c' => get3 S r0 c' d) range9 c0 c
                  (Hnn _ (fun x Hx => Hi r0 x d Hr0 Hx Hd))
                  ltac:(apply in_seq; lia) ltac:(apply in_seq; lia) ltac:(auto) H1 E) as H2.
    specialize (Hrows r0 d Hr0 Hd). unfold sum_axis1 in Hrows. lia.
  - assert (r <> r0) by congruence.
    pose proof (Zsum_two_ones (fun r' => get3 S r' c0 d) range9 r0 r
                  (Hnn _ (fun x Hx => Hi x c0 d Hx Hc0 Hd))
                  ltac:(apply in_seq; lia) ltac:(apply in_seq; lia) ltac:(auto) H1 E) as H2.
    specialize (Hcols c0 d Hc0 Hd). unfold sum_axis0 in Hcols. lia.
  - apply in_box_same_box in Hbox.
    pose proof (box_twice S r0 c0 r c d Hi Hr0 Hc0 Hr Hc Hd Hbox ltac:(congruence) H1 E) as H2.
    assert (r0 / 3 < 3) by (apply Nat.Div0.div_lt_upper_bound; lia).
    assert (c0 / 3 < 3) by (apply Nat.Div0.div_lt_upper_bound; lia).
    specialize (Hboxes (r0 / 3) (c0 / 3) d ltac:(auto) ltac:(auto) Hd). lia.
Qed.

(** A solution inside the candidate array has, in every known cell, the
    digit of that cell. *)
Lemma known_cell_of_solution (p : grid) (o S : cube) (r c : nat) (v : Z) :
  loop_inv p o -> solution S -> bounded_by o S ->
  In (r, c, v) (known_cells p) ->
  r < 9 /\ c < 9 /\ Z.to_nat (v - 1) < 9 /\ get3 S r c (Z.to_nat (v - 1)) = 1%Z.
Proof.
  intros (Hs & Hi & Hp) Hsol Hb Hin.
  apply in_known_cells in Hin. destruct Hin as (Hr & Hc & Hv & Hnz).
  rewrite Hp, get2_puzzle_of in Hv by auto.
  destruct (Z.eqb_spec (Zsum (cell_at o r c)) 1) as [Hsum|]; [|congruence].
  assert (Hlt : argmax (cell_at o r c) < 9).
  { pose proof (shape9_cell_at o r c Hs Hr Hc) as Hlen.
    pose proof (argmax_lt (cell_at o r c)) as Hlt. rewrite Hlen in Hlt. apply Hlt.
    intros E. rewrite E in Hlen. discriminate. }
  assert (Ed : Z.to_nat (v - 1) = argmax (cell_at o r c)) by lia.
  rewrite Ed. repeat split; auto.
  destruct (solution_rules S Hsol) as (HiS & Hcells & _).
  destruct (HiS r c (argmax (cell_at o r c)) Hr Hc Hlt) as [E|E]; [|exact E]. exfalso.
  specialize (Hcells r c Hr Hc). destruct Hsol as (HsS & _).
  rewrite cell_at_entries in Hcells by auto.
  rewrite (Zsum_map_ext _ (fun _ => 0%Z)) in Hcells; [vm_compute in Hcells; discriminate|].
  intros d Hd. apply in_seq in Hd.
  destruct (Nat.eq_dec d (argmax (cell_at o r c))) as [->|Hne]; [exact E|].
  pose proof (cell_single_argmax o r c d Hs Hi Hr Hc ltac:(lia) Hsum) as Ho.
  destruct (Nat.eqb_spec d (argmax (cell_at o r c))); [contradiction|].
  specialize (Hb r c d Hr Hc ltac:(lia)). lia.
Qed.

Lemma eliminate_keeps_solution (o S : cube) (r0 c0 : nat) (v : Z) :
  shape9 o -> solution S -> bounded_by o S ->
  r0 < 9 -> c0 < 9 -> Z.to_nat (v - 1) < 9 ->
  get3 S r0 c0 (Z.to_nat (v - 1)) = 1%Z ->
  bounded_by (eliminate o (r0, c0, v)) S.
Proof.
  intros Hs Hsol Hb Hr0 Hc0 Hd0 H1 r c d Hr Hc Hd.
  destruct (solution_rules S Hsol) as (HiS & _).
  rewrite get3_eliminate by auto. cbv zeta.
  destruct (Nat.eqb_spec d (Z.to_nat (v - 1))) as [Ed|Ed];
    [|rewrite !andb_false_r; apply Hb; auto].
  subst d. rewrite !andb_true_r.
  destruct ((r =? r0) && (c =? c0)) eqn:Cell.
  { destruct (HiS r c _ Hr Hc Hd) as [E|E]; rewrite E; lia. }
  assert (Hne : (r, c) <> (r0, c0)).
  { intros E. injection E as -> ->. rewrite !Nat.eqb_refl in Cell. discriminate. }
  assert (Hpeer : r = r0 \/ c = c0 \/ in_box (r0 / 3) (c0 / 3) r c = true ->
            (0 <= get3 S r c (Z.to_nat (v - 1)) <= 0)%Z).
  { intros Hp. rewrite (solution_peer S r0 c0 r c _ Hsol) by auto. lia. }
  destruct (in_box (r0 / 3) (c0 / 3) r c) eqn:B; [apply Hpeer; auto|].
  destruct (Nat.eqb_spec c c0); [apply Hpeer; auto|].
  destruct (Nat.eqb_spec r r0); [apply Hpeer; auto|].
  apply Hb; auto.
Qed.

Lemma propagate_pass_keeps_solution (p : grid) (o S : cube) :
  loop_inv p o -> solution S -> bounded_by o S -> bounded_by (propagate_pass p o) S.
Proof.
  intros Hinv Hsol Hb. unfold propagate_pass.
  assert (Hknown := fun r c v => known_cell_of_solution p o S r c v Hinv Hsol Hb).
  destruct Hinv as (Hs & _ & _).
  revert o Hs Hb. induction (known_cells p) as [|[[r c] v] cells IH]; intros o Hs Hb; [exact Hb|].
  cbn [fold_left].
  destruct (Hknown r c v ltac:(simpl; auto)) as (Hr & Hc & Hd & H1).
  apply IH.
  - intros r' c' v' Hin. apply Hknown. simpl. auto.
  - apply shape9_eliminate; auto.
  - apply eliminate_keeps_solution; auto.
Qed.

Lemma propagate_keeps_solution (fuel : nat) (p : grid) (o S : cube) :
  loop_inv p o -> solution S -> bounded_by o S ->
  match propagate fuel p o with
  | Break _ o' | SolvedInLoop o' => bounded_by o' S
  | OutOfFuel => True
  end.
Proof.
  revert p o. induction fuel as [|fuel IH]; intros p o Hinv Hsol Hb; [exact I|].
  pose proof (propagate_pass_keeps_solution p o S Hinv Hsol Hb) as Hb'.
  destruct (loop_step p o Hinv) as (Hinv' & _ & _).
  cbn [propagate].
  destruct (grid_eqb (puzzle_of (propagate_pass p o)) p); [exact Hb'|].
  destruct (Zsum (concat (puzzle_of (propagate_pass p o))) =? 9 * 45)%Z; [exact Hb'|].
  apply IH; auto.
Qed.

(** The loop returns from inside only on a digit sum of 405. *)
Lemma propagate_solved_sum (fuel : nat) (p : grid) (o o' : cube) :
  propagate fuel p o = SolvedInLoop o' -> Zsum (concat (puzzle_of o')) = 405%Z.
Proof.
  revert p o. induction fuel as [|fuel IH]; intros p o H; [discriminate|].
  cbn [propagate] in H.
  destruct (grid_eqb (puzzle_of (propagate_pass p o)) p); [discriminate|].
  destruct (Z.eqb_spec (Zsum (concat (puzzle_of (propagate_pass p o)))) (9 * 45)) as [E|E].
  - injection H as <-. exact E.
  - eapply IH. exact H.
Qed.

(** A cell with a single candidate holds the digit of every solution
    inside the array. *)
Lemma single_candidate_is_solution (o S : cube) (r c d : nat) :
  shape9 o -> indicator o -> solution S -> bounded_by o S ->
  r < 9 -> c < 9 -> d < 9 -> Zsum (cell_at o r c) = 1%Z ->
  get3 o r c d = get3 S r c d.
Proof.
  intros Hs Hi Hsol Hb Hr Hc Hd Hsum.
  destruct (solution_rules S Hsol) as (HiS & HcS & _). destruct Hsol as (HsS & _).
  assert (Hle : forall x, In x range9 -> (get3 S r c x <= get3 o r c x)%Z).
  { intros x Hx. apply in_seq in Hx. apply Hb; lia. }
  apply eq_sym, (Zsum_map_eq_inv (get3 S r c) (get3 o r c) range9 Hle).
  - rewrite <- !cell_at_entries by auto. rewrite Hsum, (HcS r c Hr Hc). lia.
  - apply in_seq. lia.
Qed.

Lemma solution_cell_sum_le (o S : cube) (r c : nat) :
  shape9 o -> solution S -> bounded_by o S -> r < 9 -> c < 9 ->
  (1 <= Zsum (cell_at o r c))%Z.
Proof.
  intros Hs Hsol Hb Hr Hc.
  destruct (solution_rules S Hsol) as (_ & HcS & _). destruct Hsol as (HsS & _).
  rewrite <- (HcS r c Hr Hc). rewrite !cell_at_entries by auto.
  apply Zsum_map_le. intros d Hd. apply in_seq in Hd. apply Hb; lia.
Qed.

Lemma concat_grid_cells (g : grid) :
  grid9 g -> concat g = map (fun rc => get2 g (fst rc) (snd rc)) all_cells.
Proof.
  intros [Hlen Hrows].
  destruct g as [|r0 [|r1 [|r2 [|r3 [|r4 [|r5 [|r6 [|r7 [|r8 [|]]]]]]]]]]; try discriminate.
  clear Hlen.
  repeat match goal with
         | H : Forall _ (_ :: _) |- _ => apply Forall_cons in H; destruct H as [? H]
         end.
  repeat match goal with
         | H : length ?l = 9 |- _ =>
             is_var l;
             destruct l as [|? [|? [|? [|? [|? [|? [|? [|? [|? [|]]]]]]]]]]; try discriminate H;
             clear H
         end.
  reflexivity.
Qed.

Lemma Zsum_all_cells (f : nat * nat -> Z) :
  Zsum (map f all_cells)
  = Zsum (map (fun r => Zsum (map (fun c => f (r, c)) range9)) range9).
Proof. unfold all_cells, range9. cbn. lia. Qed.

Lemma digit_weights (a : nat) :
  a < 9 ->
  Zsum (map (fun d => ((Z.of_nat d + 1) * (if (d =? a)%nat then 1 else 0))%Z) range9)
  = (Z.of_nat a + 1)%Z.
Proof.
  intros Ha.
  do 9 (destruct a as [|a]; [reflexivity|]). lia.
Qed.

(** The digits of a solution add up to 405. *)
Lemma solution_digit_sum (S : cube) :
  solution S -> Zsum (concat (puzzle_of S)) = 405%Z.
Proof.
  intros Hsol. destruct (solution_rules S Hsol) as (HiS & HcS & Hrows & _).
  destruct Hsol as (HsS & Hoh & _).
  rewrite (concat_grid_cells _ (grid9_puzzle_of S HsS)), Zsum_all_cells.
  rewrite (Zsum_map_ext _ (fun _ => 45%Z)); [reflexivity|].
  intros r Hr. apply in_seq in Hr.
  rewrite (Zsum_map_ext _ (fun c =>
             Zsum (map (fun d => ((Z.of_nat d + 1) * get3 S r c d)%Z) range9))).
  2:{ intros c Hc. apply in_seq in Hc. cbn [fst snd].
      rewrite get2_puzzle_of by (auto; lia). rewrite HcS by lia. cbn [Z.eqb Pos.eqb].
      assert (Ha : argmax (cell_at S r c) < 9).
      { pose proof (shape9_cell_at S r c HsS ltac:(lia) ltac:(lia)) as Hlen.
        pose proof (argmax_lt (cell_at S r c)) as Hlt. rewrite Hlen in Hlt. apply Hlt.
        intros E. rewrite E in Hlen. discriminate. }
      rewrite <- (digit_weights _ Ha). apply Zsum_map_ext.
      intros d Hd. apply in_seq in Hd. rewrite (one_hot_argmax S r c d) by (auto; lia).
      reflexivity. }
  assert (H := fun d Hd => Hrows r d ltac:(lia) Hd).
  pose proof (H 0 ltac:(lia)). pose proof (H 1 ltac:(lia)). pose proof (H 2 ltac:(lia)).
  pose proof (H 3 ltac:(lia)). pose proof (H 4 ltac:(lia)). pose proof (H 5 ltac:(lia)).
  pose proof (H 6 ltac:(lia)). pose proof (H 7 ltac:(lia)). pose proof (H 8 ltac:(lia)).
  clear H. unfold sum_axis1, range9 in *. cbn [seq map Zsum foldr] in *.
  cbn [Z.of_nat Pos.of_succ_nat Pos.succ Z.add Pos.add] in *. lia.
Qed.

Lemma all_single_is_solution (o S : cube) :
  shape9 o -> indicator o -> solution S -> bounded_by o S ->
  (forall r c, r < 9 -> c < 9 -> Zsum (cell_at o r c) = 1%Z) -> o = S.
Proof.
  intros Hs Hi Hsol Hb Hall. apply cube_ext; [exact Hs | apply Hsol |].
  intros r c d Hr Hc Hd. apply single_candidate_is_solution; auto.
Qed.

Lemma puzzle_of_digit_range (o : cube) (r c : nat) :
  shape9 o -> r < 9 -> c < 9 ->
  (get2 (puzzle_of o) r c = 0 /\ Zsum (cell_at o r c) <> 1
   \/ 1 <= get2 (puzzle_of o) r c <= 9 /\ Zsum (cell_at o r c) = 1)%Z.
Proof.
  intros Hs Hr Hc. rewrite get2_puzzle_of by auto.
  destruct (Z.eqb_spec (Zsum (cell_at o r c)) 1) as [E|E]; [right | left; auto].
  split; [|exact E].
  pose proof (shape9_cell_at o r c Hs Hr Hc) as Hlen.
  pose proof (argmax_lt (cell_at o r c)) as Hlt. rewrite Hlen in Hlt.
  assert (cell_at o r c <> []) by (intros E'; rewrite E' in Hlen; discriminate).
  specialize (Hlt ltac:(auto)). lia.
Qed.

(** When the loop returns on the digit sum 405 with a solution inside the
    array, the array is that solution. *)
Lemma digit_sum_is_solution (o S : cube) :
  shape9 o -> indicator o -> solution S -> bounded_by o S ->
  Zsum (concat (puzzle_of o)) = 405%Z -> o = S.
Proof.
  intros Hs Hi Hsol Hb Hsum.
  pose proof (solution_digit_sum S Hsol) as HsumS.
  destruct (solution_rules S Hsol) as (HiS & HcS & _).
  assert (HsS : shape9 S) by apply Hsol.
  rewrite (concat_grid_cells _ (grid9_puzzle_of o Hs)) in Hsum.
  rewrite (concat_grid_cells _ (grid9_puzzle_of S HsS)) in HsumS.
  assert (Hle : forall rc, In rc all_cells ->
            (get2 (puzzle_of o) (fst rc) (snd rc) <= get2 (puzzle_of S) (fst rc) (snd rc))%Z).
  { intros [r c] Hin. apply in_all_cells in Hin. destruct Hin as [Hr Hc]. cbn [fst snd].
    destruct (puzzle_of_digit_range S r c HsS Hr Hc) as [[_ Hn] | [HrS _]];
      [specialize (HcS r c Hr Hc); contradiction|].
    destruct (puzzle_of_digit_range o r c Hs Hr Hc) as [[-> _] | [_ H1]]; [lia|].
    rewrite !get2_puzzle_of by auto. rewrite H1, (HcS r c Hr Hc). cbn [Z.eqb Pos.eqb].
    rewrite (cell_at_entries o), (cell_at_entries S) by auto.
    rewrite (map_ext_in (get3 o r c) (get3 S r c)); [lia|].
    intros d Hd. apply in_seq in Hd. apply single_candidate_is_solution; auto; lia. }
  pose proof (Zsum_map_eq_inv _ _ all_cells Hle ltac:(lia)) as Heq.
  apply all_single_is_solution; auto. intros r c Hr Hc.
  specialize (Heq (r, c) ltac:(apply in_all_cells; auto)). cbn [fst snd] in Heq.
  destruct (puzzle_of_digit_range S r c HsS Hr Hc) as [[_ Hn] | [HrS _]];
    [specialize (HcS r c Hr Hc); contradiction|].
  destruct (puzzle_of_digit_range o r c Hs Hr Hc) as [[H0 _] | [_ H1]]; [lia | exact H1].
Qed.

Lemma in_sum_axis2_inv (o : cube) (x : Z) :
  shape9 o -> In x (concat (sum_axis2 o)) ->
  exists r c, r < 9 /\ c < 9 /\ x = Zsum (cell_at o r c).
Proof.
  intros Hs Hin. unfold sum_axis2 in Hin.
  apply in_concat in Hin. destruct Hin as (row' & Hrow' & Hx).
  apply in_map_iff in Hrow'. destruct Hrow' as (row & <- & Hrow).
  apply in_map_iff in Hx. destruct Hx as (cl & <- & Hcl).
  apply list_elem_of_In, list_elem_of_lookup in Hrow. destruct Hrow as [r Hr].
  apply list_elem_of_In, list_elem_of_lookup in Hcl. destruct Hcl as [c Hc].
  destruct Hs as [Hlen Hrows].
  pose proof (lookup_lt_Some _ _ _ Hr) as Hr9. rewrite Hlen in Hr9.
  rewrite Forall_lookup in Hrows. destruct (Hrows r row Hr) as [Hrl _].
  pose proof (lookup_lt_Some _ _ _ Hc) as Hc9. rewrite Hrl in Hc9.
  exists r, c. repeat split; auto.
  unfold cell_at, row_at. rewrite Hr. cbn [from_option id]. rewrite Hc. reflexivity.
Qed.

Lemma Zprod_one (l : list Z) :
  (forall x, In x l -> (1 <= x)%Z) ->
  (1 <= Zprod l)%Z /\ (Zprod l = 1%Z -> forall x, In x l -> x = 1%Z).
Proof.
  induction l as [|y t IH]; intros Hall; [split; [simpl; lia | intros _ x []]|].
  destruct (IH ltac:(intros; apply Hall; simpl; auto)) as [Hge Hone].
  pose proof (Hall y ltac:(simpl; auto)) as Hy.
  change (Zprod (y :: t)) with (y * Zprod t)%Z. split; [nia|].
  intros Hp. assert (y = 1 /\ Zprod t = 1)%Z as [-> Ht] by nia.
  intros x [<- | Hx]; auto.
Qed.

(** With a solution inside the array the count is positive, and a count
    of one leaves that solution. *)
Lemma count_with_solution (o S : cube) :
  shape9 o -> indicator o -> solution S -> bounded_by o S ->
  (1 <= exact_possibilities o)%Z /\ (exact_possibilities o = 1%Z -> o = S).
Proof.
  intros Hs Hi Hsol Hb.
  assert (Hall : forall x, In x (concat (sum_axis2 o)) -> (1 <= x)%Z).
  { intros x Hx. destruct (in_sum_axis2_inv o x Hs Hx) as (r & c & Hr & Hc & ->).
    apply (solution_cell_sum_le o S); auto. }
  destruct (Zprod_one _ Hall) as [Hge Hone]. split; [exact Hge|].
  intros H1. apply all_single_is_solution; auto. intros r c Hr Hc.
  apply (Hone H1). apply in_sum_axis2; auto.
Qed.

(** ** The search with a solution among the candidates *)

Lemma solution_digit_candidate (o S : cube) (r c : nat) :
  shape9 o -> indicator o -> solution S -> bounded_by o S -> r < 9 -> c < 9 ->
  In (argmax (cell_at S r c)) (where1 (cell_at o r c)).
Proof.
  intros Hs Hi Hsol Hb Hr Hc. destruct Hsol as (HsS & Hoh & _).
  pose proof (shape9_cell_at S r c HsS Hr Hc) as HlenS.
  assert (Ha : argmax (cell_at S r c) < 9).
  { pose proof (argmax_lt (cell_at S r c)) as Hlt. rewrite HlenS in Hlt. apply Hlt.
    intros E. rewrite E in HlenS. discriminate. }
  apply in_where1. rewrite (shape9_cell_at o r c Hs Hr Hc). split; [exact Ha|].
  pose proof (one_hot_argmax S r c _ HsS Hoh Hr Hc Ha) as H1.
  rewrite Nat.eqb_refl in H1.
  specialize (Hb r c _ Hr Hc Ha). destruct (Hi r c _ Hr Hc Ha) as [E|E]; [lia|]. exact E.
Qed.

Lemma options_idx_with_solution (p : grid) (o S : cube) :
  shape9 o -> indicator o -> solution S -> bounded_by o S ->
  options_idx p o = inr (candidate_lists p o).
Proof.
  intros Hs Hi Hsol Hb. unfold options_idx, candidate_lists.
  assert (Hcells : forall rc, In rc (unknown_cells p) -> fst rc < 9 /\ snd rc < 9).
  { intros [r c] Hin. apply in_unknown_cells in Hin. simpl. tauto. }
  induction (unknown_cells p) as [|rc cells IH]; [reflexivity|].
  cbn [map collect]. rewrite IH by (intros; apply Hcells; simpl; auto).
  destruct (Hcells rc ltac:(simpl; auto)) as [Hr Hc].
  pose proof (solution_digit_candidate o S _ _ Hs Hi Hsol Hb Hr Hc) as Hin.
  unfold cell_options. destruct (where1 (cell_at o (fst rc) (snd rc))); [destruct Hin|].
  reflexivity.
Qed.

Lemma product_in {A : Type} (iterables : list (list A)) (comb : list A) :
  Forall2 (fun x l => In x l) comb iterables -> In comb (product iterables).
Proof.
  induction 1 as [|x l comb iterables Hx _ IH]; [simpl; auto|].
  cbn [product]. apply in_flat_map. exists x. split; [exact Hx|].
  apply in_map. exact IH.
Qed.

Lemma combination_of_solution_in (p : grid) (o S : cube) :
  shape9 o -> indicator o -> solution S -> bounded_by o S ->
  In (combination_of S (unknown_cells p)) (product (candidate_lists p o)).
Proof.
  intros Hs Hi Hsol Hb. apply product_in. unfold combination_of, candidate_lists.
  assert (Hcells : forall rc, In rc (unknown_cells p) -> fst rc < 9 /\ snd rc < 9).
  { intros [r c] Hin. apply in_unknown_cells in Hin. simpl. tauto. }
  induction (unknown_cells p) as [|rc cells IH]; [constructor|].
  cbn [map]. constructor; [|apply IH; intros; apply Hcells; simpl; auto].
  destruct (Hcells rc ltac:(simpl; auto)) as [Hr Hc].
  apply in_map. apply (solution_digit_candidate o S); auto.
Qed.

(** Writing the digits of a solution into the unknown cells of an array
    that contains it gives the solution. *)
Lemma write_solution (p : grid) (o S : cube) :
  loop_inv p o -> solution S -> bounded_by o S ->
  write_all o (combination_of S (unknown_cells p)) = S.
Proof.
  intros (Hs & Hi & Hp) Hsol Hb. assert (HsS : shape9 S) by apply Hsol.
  apply cube_ext; [apply shape9_write_all; exact Hs | exact HsS |].
  intros r c d Hr Hc Hd. rewrite get3_write_all by auto.
  assert (Hcell : map cell_of (combination_of S (unknown_cells p)) = unknown_cells p).
  { unfold combination_of. rewrite map_map. rewrite <- (map_id (unknown_cells p)) at 2.
    apply map_ext. intros [r' c']. reflexivity. }
  destruct (written (combination_of S (unknown_cells p)) r c) as [d0|] eqn:W.
  - apply written_some in W. unfold combination_of in W. apply in_map_iff in W.
    destruct W as ([r' c'] & E & _). cbn [fst snd] in E. injection E as -> -> <-.
    destruct Hsol as (_ & Hoh & _). symmetry. apply one_hot_argmax; auto.
  - assert (Hknown : ~ In (r, c) (unknown_cells p)).
    { intros Hin. rewrite <- Hcell in Hin. destruct (written_in _ _ _ Hin) as [d' Hd'].
      congruence. }
    apply single_candidate_is_solution; auto.
    rewrite in_unknown_cells in Hknown.
    rewrite Hp in Hknown.
    destruct (puzzle_of_digit_range o r c Hs Hr Hc) as [[H0 _] | [_ H1]]; [tauto | exact H1].
Qed.

(** With a solution among the candidates the search returns the string
    of a solution that lies inside the array it started from. *)
Lemma search_with_solution (p : grid) (o S : cube) :
  loop_inv p o -> solution S -> bounded_by o S ->
  exists comb, In comb (product (candidate_lists p o))
    /\ first_valid o (product (candidate_lists p o)) = Some comb
    /\ search p o = Returned (_np_puzzle_to_string (write_all o comb))
    /\ solution (write_all o comb) /\ bounded_by o (write_all o comb).
Proof.
  intros Hinv Hsol Hb. assert (Hinv' := Hinv). destruct Hinv' as (Hs & Hi & Hp).
  pose proof (options_idx_with_solution p o S Hs Hi Hsol Hb) as Hopt.
  rewrite (search_finds_first_valid p o _ Hinv Hopt).
  destruct (first_valid o (product (candidate_lists p o))) as [comb|] eqn:F.
  - unfold first_valid in F. apply find_some in F. destruct F as [Hin Hv].
    exists comb. split; [exact Hin|]. split; [reflexivity|]. split; [reflexivity|].
    destruct (combination_written p o _ comb Hinv Hopt Hin) as (Hsw & Hcw & Hbw).
    split; [|exact Hbw].
    pose proof (indicator_bounded o _ Hi Hbw) as Hiw.
    split; [exact Hsw|]. split.
    + split; [exact Hiw|]. intros r c Hr Hc. apply Nat2Z.inj.
      rewrite <- indicator_digits_set by auto. apply Hcw; auto.
    + unfold validates in Hv. destruct (validate_solution (write_all o comb)) as [e|[|]];
        congruence.
  - exfalso. unfold first_valid in F.
    pose proof (find_none _ _ F _ (combination_of_solution_in p o S Hs Hi Hsol Hb)) as Hv.
    cbv beta in Hv. rewrite (write_solution p o S Hinv Hsol Hb) in Hv.
    unfold validates in Hv. destruct Hsol as (_ & _ & HvS). rewrite HvS in Hv. discriminate.
Qed.

(** ** [solve] on a puzzle that has a solution *)

Lemma bounded_byb_spec (o0 o : cube) : bounded_byb o0 o = true -> bounded_by o0 o.
Proof.
  unfold bounded_byb. rewrite forallb_range9. intros H r c d Hr Hc Hd.
  specialize (H r Hr). rewrite forallb_range9 in H. specialize (H c Hc).
  rewrite forallb_range9 in H. specialize (H d Hd).
  apply andb_true_iff in H. destruct H as [H1 H2].
  apply Z.leb_le in H1, H2. lia.
Qed.

(** X5: the propagation loop of [solve] never removes a digit of a
    solution: when the parsed array contains a solution, the loop ends
    with an array that lies inside the parsed one and still contains that
    solution. *)
Theorem propagation_keeps_solutions (s : string) (p : grid) (o S : cube) :
  _string_to_np_puzzle s = inr (p, o) -> solution S -> bounded_by o S ->
  exists o', (propagate loop_fuel p o = Break (puzzle_of o') o'
              \/ propagate loop_fuel p o = SolvedInLoop o')
             /\ bounded_by o o' /\ bounded_by o' S.
Proof.
  intros Hparse Hsol Hb.
  pose proof (solve_loop_exits s p o Hparse) as Hex.
  pose proof (propagate_keeps_solution loop_fuel p o S
                (_string_to_np_puzzle_inv s p o Hparse) Hsol Hb) as Hkeep.
  destruct (propagate loop_fuel p o) as [p' o' | o' |]; [| |contradiction].
  - destruct Hex as [(_ & _ & ->) Hbo]. exists o'. auto.
  - destruct Hex as (_ & _ & Hbo). exists o'. auto.
Qed.

Lemma propagation_keeps_solutions_witness :
  exists o', (propagate loop_fuel (puzzle_of_string two_solutions_grid)
                (options_of_string two_solutions_grid) = Break (puzzle_of o') o'
              \/ propagate loop_fuel (puzzle_of_string two_solutions_grid)
                   (options_of_string two_solutions_grid) = SolvedInLoop o')
             /\ bounded_by (options_of_string two_solutions_grid) o'
             /\ bounded_by o' (options_of_string solved_grid).
Proof.
  apply (propagation_keeps_solutions two_solutions_grid).
  - vm_compute. reflexivity.
  - apply solutionb_spec. vm_compute. reflexivity.
  - apply bounded_byb_spec. vm_compute. reflexivity.
Defined.

(** What [solve] does when the parsed array contains a solution and the
    count fits the machine integer. *)
Lemma solve_with_solution (s : string) (m : Z) (p : grid) (o S : cube) :
  _string_to_np_puzzle s = inr (p, o) -> solution S -> bounded_by o S ->
  (forall p' o', propagate loop_fuel p o = Break p' o' ->
                 (exact_possibilities o' < 2 ^ 63)%Z) ->
  (exists R, solve s m = Returned (_np_puzzle_to_string R)
             /\ solution R /\ bounded_by o R)
  \/ (solve s m = Aborted
      /\ exists p' o', propagate loop_fuel p o = Break p' o'
                       /\ (m <= exact_possibilities o')%Z
                       /\ exact_possibilities o' <> 1%Z).
Proof.
  intros Hparse Hsol Hb Hfit.
  pose proof (solve_loop_exits s p o Hparse) as Hex.
  pose proof (propagate_keeps_solution loop_fuel p o S
                (_string_to_np_puzzle_inv s p o Hparse) Hsol Hb) as Hkeep.
  destruct (propagate loop_fuel p o) as [p' o' | o' |] eqn:Hloop; [| |contradiction].
  - destruct Hex as [Hinv Hbo]. assert (Hinv' := Hinv). destruct Hinv' as (Hs & Hi & Hp).
    rewrite (solve_after_break s m p o p' o' Hparse Hloop).
    destruct (count_with_solution o' S Hs Hi Hsol Hkeep) as [Hge Hone].
    specialize (Hfit p' o' eq_refl).
    assert (Hnum : num_possibilities o' = exact_possibilities o').
    { apply wrap64_small. lia. }
    unfold budget_gate. cbv zeta. rewrite Hnum.
    destruct (Z.eqb_spec (exact_possibilities o') 1) as [E1|E1].
    + left. exists o'. rewrite (Hone E1). split; [reflexivity|]. split; [exact Hsol|].
      rewrite <- (Hone E1). exact Hbo.
    + destruct (exact_possibilities o' >=? m)%Z eqn:G.
      * right. split; [reflexivity|]. exists p', o'. repeat split; auto.
        apply Z.geb_le in G. exact G.
      * replace (exact_possibilities o' <? 0)%Z with false by (symmetry; apply Z.ltb_ge; lia).
        cbn [orb].
        destruct (search_with_solution p' o' S Hinv Hsol Hkeep)
          as (comb & _ & _ & Hsearch & Hsolw & Hbw).
        left. exists (write_all o' comb). split; [exact Hsearch|]. split; [exact Hsolw|].
        apply (bounded_trans o o'); auto.
  - destruct Hex as (Hs & Hi & Hbo).
    pose proof (propagate_solved_sum _ _ _ _ Hloop) as Hsum.
    pose proof (digit_sum_is_solution o' S Hs Hi Hsol Hkeep Hsum) as E.
    left. exists o'. unfold solve. rewrite Hparse, Hloop. split; [reflexivity|].
    rewrite E at 1. split; [exact Hsol|]. exact Hbo.
Qed.

(** X6: on a puzzle that has a solution, when the count of combinations
    left after the propagation fits the 64 bits, [solve] returns the
    string of a solution that keeps the givens, or it warns and gives up
    because the count is not below [max_iterations]; it never raises and
    never falls off its end. *)
Theorem solve_solvable (s : string) (m : Z) (p : grid) (o S : cube) :
  _string_to_np_puzzle s = inr (p, o) -> solution S -> bounded_by o S ->
  (forall p' o', propagate loop_fuel p o = Break p' o' ->
                 (exact_possibilities o' < 2 ^ 63)%Z) ->
  (exists R, solve s m = Returned (_np_puzzle_to_string R)
             /\ solution R /\ bounded_by o R)
  \/ (solve s m = Aborted
      /\ exists p' o', propagate loop_fuel p o = Break p' o'
                       /\ (m <= exact_possibilities o')%Z
                       /\ exact_possibilities o' <> 1%Z).
Proof. exact (solve_with_solution s m p o S). Qed.

Lemma solve_solvable_witness :
  (exists R, solve two_solutions_grid default_max_iterations = Returned (_np_puzzle_to_string R)
             /\ solution R /\ bounded_by (options_of_string two_solutions_grid) R)
  \/ (solve two_solutions_grid default_max_iterations = Aborted
      /\ exists p' o', propagate loop_fuel (puzzle_of_string two_solutions_grid)
                         (options_of_string two_solutions_grid) = Break p' o'
                       /\ (default_max_iterations <= exact_possibilities o')%Z
                       /\ exact_possibilities o' <> 1%Z).
Proof.
  apply (solve_solvable two_solutions_grid default_max_iterations
           (puzzle_of_string two_solutions_grid) (options_of_string two_solutions_grid)
           (options_of_string solved_grid)).
  - vm_compute. reflexivity.
  - apply solutionb_spec. vm_compute. reflexivity.
  - apply bounded_byb_spec. vm_compute. reflexivity.
  - intros p' o' H.
    assert (E : propagate loop_fuel (puzzle_of_string two_solutions_grid)
                  (options_of_string two_solutions_grid)
                = Break (fst (break_state two_solutions_grid))
                        (snd (break_state two_solutions_grid)))
      by (vm_compute; reflexivity).
    rewrite E in H.
    assert (Ho : o' = snd (break_state two_solutions_grid)) by congruence.
    rewrite Ho. vm_compute. reflexivity.
Defined.

(** ** The string [solve] returns *)

(** The string of a one-hot array parses back to the array. *)
Lemma printed_array_parses (G : cube) :
  shape9 G -> one_hot G ->
  _string_to_np_puzzle (_np_puzzle_to_string G) = inr (argmax_plus1 G, G).
Proof.
  intros Hs Hoh.
  destruct (argmax_plus1_rows G Hs) as [Hlen Hrows].
  assert (Hbytes : np_array_byte (list_ascii_of_string (_np_puzzle_to_string G))
                   = inr (concat (argmax_plus1 G))).
  { unfold _np_puzzle_to_string. apply np_array_byte_join.
    intros v. apply argmax_plus1_range. exact Hs. }
  assert (Hre : reshape9 (concat (argmax_plus1 G)) = inr (argmax_plus1 G)).
  { unfold reshape9. rewrite length_concat9, Hlen by auto.
    change (9 * 9 =? 81) with true. cbv iota.
    rewrite <- Hlen at 1. rewrite rows_of_concat by auto. reflexivity. }
  destruct (_string_to_np_puzzle (_np_puzzle_to_string G)) as [e|[p o]] eqn:E.
  - exfalso. revert E. unfold _string_to_np_puzzle. rewrite Hbytes, Hre. discriminate.
  - assert (Hp : p = argmax_plus1 G).
    { revert E. unfold _string_to_np_puzzle. rewrite Hbytes, Hre. congruence. }
    subst p. f_equal. f_equal.
    destruct (_string_to_np_puzzle_entries _ _ _ E) as [Hso Hent].
    apply cube_ext; auto. intros r c d Hr Hc Hd.
    rewrite Hent by auto. rewrite get2_argmax_plus1 by auto.
    rewrite (one_hot_argmax G r c d) by auto.
    destruct (Z.eqb_spec (Z.of_nat (argmax (cell_at G r c)) + 1) 0); [lia|].
    destruct (Nat.eqb_spec d (argmax (cell_at G r c))) as [-> | Hne].
    + rewrite (proj2 (Z.eqb_eq _ _)) by lia. reflexivity.
    + rewrite (proj2 (Z.eqb_neq _ _)) by lia. reflexivity.
Qed.

Lemma int_of_char_inj (a b : ascii) (v : Z) :
  int_of_char a = Some v -> int_of_char b = Some v -> a = b.
Proof.
  rewrite !int_of_char_digit. unfold is_digit.
  destruct ((48 <=? nat_of_ascii a) && (nat_of_ascii a <=? 57)) eqn:Da; [|discriminate].
  destruct ((48 <=? nat_of_ascii b) && (nat_of_ascii b <=? 57)) eqn:Db; [|discriminate].
  intros Ha Hb. apply andb_true_iff in Da, Db. destruct Da as [Da _], Db as [Db _].
  apply Nat.leb_le in Da, Db.
  rewrite <- (ascii_nat_embedding a), <- (ascii_nat_embedding b). f_equal.
  injection Ha as Ha. injection Hb as Hb. lia.
Qed.

Lemma parsed_length (s : string) (p : grid) (o : cube) :
  _string_to_np_puzzle s = inr (p, o) -> String.length s = 81.
Proof.
  intros H. destruct (Nat.eq_dec (String.length s) 81) as [E|E]; [exact E|].
  destruct (_string_to_np_puzzle_rejects s (or_introl E)) as [why Hw]. congruence.
Qed.

(** A given keeps its digit in every one-hot array inside the parsed
    one. *)
Lemma given_digit_kept (s : string) (p : grid) (o R : cube) (i : nat) (ch : ascii) :
  _string_to_np_puzzle s = inr (p, o) -> shape9 R -> one_hot R -> bounded_by o R ->
  String.get i s = Some ch -> ch <> "0"%char ->
  String.get i (_np_puzzle_to_string R) = Some ch.
Proof.
  intros Hparse HsR HohR Hb Hget Hnz.
  pose proof (parsed_length s p o Hparse) as Hlen.
  assert (Hi : i < 81).
  { rewrite <- Hlen, <- length_list_ascii_of_string. apply (lookup_lt_Some _ _ ch).
    rewrite get_list_ascii. exact Hget. }
  assert (En : i = 9 * (i / 9) + i mod 9) by (apply Nat.div_mod_eq).
  assert (Hr : i / 9 < 9) by (apply Nat.Div0.div_lt_upper_bound; lia).
  assert (Hc : i mod 9 < 9) by (apply Nat.mod_upper_bound; lia).
  set (r := i / 9) in *. set (c := i mod 9) in *.
  rewrite En in Hget.
  pose proof (_string_to_np_puzzle_digits s p o r c ch Hparse Hr Hc Hget) as Hv.
  destruct (_string_to_np_puzzle_grid s p o Hparse) as [_ Hrange].
  specialize (Hrange r c Hr Hc).
  assert (Hv0 : get2 p r c <> 0%Z).
  { intros E. rewrite E in Hv. apply Hnz.
    apply (int_of_char_inj _ _ 0%Z Hv). reflexivity. }
  destruct (_string_to_np_puzzle_entries s p o Hparse) as [Hs Hent].
  pose proof (printed_array_parses R HsR HohR) as Hpr.
  pose proof (parsed_length _ _ _ Hpr) as HlenR.
  destruct (string_get_in (_np_puzzle_to_string R) i ltac:(lia)) as (ch' & Hget' & _).
  rewrite Hget'. f_equal.
  rewrite En in Hget'.
  pose proof (_string_to_np_puzzle_digits _ _ _ r c ch' Hpr Hr Hc Hget') as Hv'.
  rewrite get2_argmax_plus1 in Hv' by auto.
  apply (int_of_char_inj ch' ch (get2 p r c)); [|exact Hv].
  rewrite Hv'. f_equal.
  pose proof (shape9_cell_at R r c HsR Hr Hc) as HlenC.
  assert (Ha : argmax (cell_at R r c) < 9).
  { pose proof (argmax_lt (cell_at R r c)) as Hlt. rewrite HlenC in Hlt. apply Hlt.
    intros E. rewrite E in HlenC. discriminate. }
  pose proof (one_hot_argmax R r c _ HsR HohR Hr Hc Ha) as H1.
  rewrite Nat.eqb_refl in H1.
  specialize (Hb r c _ Hr Hc Ha). rewrite H1, Hent in Hb by auto.
  destruct (Z.eqb_spec (get2 p r c) 0); [contradiction|].
  destruct (Z.eqb_spec (Z.of_nat (argmax (cell_at R r c))) (get2 p r c - 1)); lia.
Qed.

(** X7: on a puzzle that has a solution (the count fitting 64 bits), a
    string [solve] returns passes [validate_solution_list_or_string] and
    has, at every position where the puzzle gives a digit, that digit. *)
Theorem solve_result_checks (s : string) (m : Z) (p : grid) (o S : cube) (t : string) :
  _string_to_np_puzzle s = inr (p, o) -> solution S -> bounded_by o S ->
  (forall p' o', propagate loop_fuel p o = Break p' o' ->
                 (exact_possibilities o' < 2 ^ 63)%Z) ->
  solve s m = Returned t ->
  validate_solution_list_or_string t = inr true
  /\ forall i ch, String.get i s = Some ch -> ch <> "0"%char -> String.get i t = Some ch.
Proof.
  intros Hparse Hsol Hb Hfit Hret.
  destruct (solve_with_solution s m p o S Hparse Hsol Hb Hfit)
    as [(R & HR & (HsR & HohR & HvR) & HbR) | [Hab _]]; [|congruence].
  assert (t = _np_puzzle_to_string R) by congruence. subst t. split.
  - unfold validate_solution_list_or_string.
    rewrite (printed_array_parses R HsR HohR). exact HvR.
  - intros i ch Hget Hnz. apply (given_digit_kept s p o R); auto.
Qed.

Lemma solve_result_checks_witness :
  validate_solution_list_or_string solved_grid = inr true
  /\ forall i ch, String.get i two_solutions_grid = Some ch -> ch <> "0"%char ->
                  String.get i solved_grid = Some ch.
Proof.
  apply (solve_result_checks two_solutions_grid default_max_iterations
           (puzzle_of_string two_solutions_grid) (options_of_string two_solutions_grid)
           (options_of_string solved_grid)).
  - vm_compute. reflexivity.
  - apply solutionb_spec. vm_compute. reflexivity.
  - apply bounded_byb_spec. vm_compute. reflexivity.
  - intros p' o' H.
    assert (E : propagate loop_fuel (puzzle_of_string two_solutions_grid)
                  (options_of_string two_solutions_grid)
                = Break (fst (break_state two_solutions_grid))
                        (snd (break_state two_solutions_grid)))
      by (vm_compute; reflexivity).
    rewrite E in H.
    assert (Ho : o' = snd (break_state two_solutions_grid)) by congruence.
    rewrite Ho. vm_compute. reflexivity.
  - vm_compute. reflexivity.
Defined.

(** ** [solve] on a grid that is already solved *)

Lemma Zprod_all_one (l : list Z) : (forall x, In x l -> x = 1%Z) -> Zprod l = 1%Z.
Proof.
  induction l as [|y t IH]; intros Hall; [reflexivity|].
  change (Zprod (y :: t)) with (y * Zprod t)%Z.
  rewrite (Hall y), IH by (simpl; auto || (intros; apply Hall; simpl; auto)). reflexivity.
Qed.

Lemma propagate_succ (fuel : nat) (p : grid) (o : cube) :
  propagate (S fuel) p o =
    if grid_eqb (puzzle_of (propagate_pass p o)) p
    then Break (puzzle_of (propagate_pass p o)) (propagate_pass p o)
    else if (Zsum (concat (puzzle_of (propagate_pass p o))) =? 9 * 45)%Z
         then SolvedInLoop (propagate_pass p o)
         else propagate fuel (puzzle_of (propagate_pass p o)) (propagate_pass p o).
Proof. reflexivity. Qed.

Lemma bounded_antisym (o1 o2 : cube) :
  shape9 o1 -> shape9 o2 -> bounded_by o1 o2 -> bounded_by o2 o1 -> o1 = o2.
Proof.
  intros H1 H2 H12 H21. apply cube_ext; auto. intros r c d Hr Hc Hd.
  specialize (H12 r c d Hr Hc Hd). specialize (H21 r c d Hr Hc Hd). lia.
Qed.

(** The array of a complete, valid grid is a solution. *)
Lemma valid_grid_solution (s : string) :
  complete s -> valid_grid (puzzle_of_string s) ->
  exists p o, _string_to_np_puzzle s = inr (p, o) /\ solution o.
Proof.
  intros Hc Hv. destruct (complete_arrays s Hc) as (p & o & Hparse & Hrange & Hent).
  exists p, o. split; [exact Hparse|].
  destruct (_string_to_np_puzzle_inv s p o Hparse) as (Hs & Hi & _).
  unfold puzzle_of_string in Hv. rewrite Hparse in Hv.
  destruct (digit_array_validate p o Hs Hrange Hent) as (b & Hb & Hiff).
  split; [exact Hs|]. split.
  - split; [exact Hi|]. intros r c Hr Hc'. apply Nat2Z.inj.
    rewrite <- indicator_digits_set by auto.
    apply (digit_array_cells_one p o Hs Hrange Hent); auto.
  - rewrite Hb. f_equal. apply Hiff. exact Hv.
Qed.

(** X8: [solve] returns a complete grid that obeys the rules unchanged,
    whatever the iteration budget. *)
Theorem solve_solved_grid (s : string) (m : Z) :
  complete s -> valid_grid (puzzle_of_string s) -> solve s m = Returned s.
Proof.
  intros Hc Hv. destruct (valid_grid_solution s Hc Hv) as (p & o & Hparse & Hsol).
  pose proof (_string_to_np_puzzle_inv s p o Hparse) as Hinv.
  assert (Hinv' := Hinv). destruct Hinv' as (Hs & Hi & Hp).
  destruct (loop_step p o Hinv) as ((Hs1 & _ & _) & Hb1 & _).
  pose proof (propagate_pass_keeps_solution p o o Hinv Hsol (bounded_refl o Hi)) as Hb2.
  pose proof (bounded_antisym _ _ Hs1 Hs Hb2 Hb1) as Hfix.
  assert (Hloop : propagate loop_fuel p o = Break p o).
  { change loop_fuel with (S 729). rewrite propagate_succ, Hfix, <- Hp.
    unfold grid_eqb. rewrite bool_decide_eq_true_2 by reflexivity. reflexivity. }
  rewrite (solve_after_break s m p o p o Hparse Hloop).
  assert (Hone : exact_possibilities o = 1%Z).
  { apply Zprod_all_one. intros x Hx.
    destruct (in_sum_axis2_inv o x Hs Hx) as (r & c & Hr & Hc' & ->).
    destruct (solution_rules o Hsol) as (_ & Hcells & _). apply Hcells; auto. }
  unfold budget_gate, num_possibilities. cbv zeta. rewrite Hone.
  change (wrap64 1 =? 1)%Z with true. cbv iota.
  rewrite (printed_parse_complete s p o Hparse Hc). reflexivity.
Qed.

Lemma solve_solved_grid_witness : solve solved_grid 0 = Returned solved_grid.
Proof.
  apply solve_solved_grid.
  - apply completeb_spec. vm_compute. reflexivity.
  - apply valid_gridb_spec. vm_compute. reflexivity.
Defined.

(** ** The format of a returned string *)

Lemma shape9_set_first (o : cube) (first : list (option idx * idx)) :
  shape9 o -> shape9 (set_first o first).
Proof.
  unfold set_first. revert o. induction first as [|x first IH]; intros o Hs; simpl; auto.
  apply IH, shape9_write_digit, Hs.
Qed.

Lemma shape9_apply_changes (changes : list (option idx * idx)) (o o' : cube) :
  shape9 o -> apply_changes o changes = inr o' -> shape9 o'.
Proof.
  revert o. induction changes as [|[[prev|] cur] rest IH]; intros o Hs H;
    cbn [apply_changes] in H.
  - congruence.
  - apply IH in H; [exact H|]. apply shape9_assign, shape9_assign, Hs.
  - discriminate.
Qed.

Lemma search_rest_returns (generator : list (list (option idx * idx))) (o : cube) (t : string) :
  shape9 o -> search_rest o generator = Returned t ->
  exists R, shape9 R /\ t = _np_puzzle_to_string R.
Proof.
  revert o. induction generator as [|changes generator IH]; intros o Hs H; [discriminate|].
  cbn [search_rest] in H.
  destruct (apply_changes o changes) as [e|o'] eqn:E; [discriminate|].
  pose proof (shape9_apply_changes _ _ _ Hs E) as Hs'.
  destruct (validate_solution o') as [e|[|]]; [discriminate | | eauto].
  exists o'. split; [exact Hs' | congruence].
Qed.

Lemma search_returns (p : grid) (o : cube) (t : string) :
  shape9 o -> search p o = Returned t ->
  exists R, shape9 R /\ t = _np_puzzle_to_string R.
Proof.
  intros Hs H. unfold search in H.
  destruct (options_idx p o) as [e|lists]; [discriminate|].
  destruct (_unique_combinations idx_eqb lists) as [e|[|first generator]]; try discriminate.
  pose proof (shape9_set_first o first Hs) as Hs'.
  destruct (validate_solution (set_first o first)) as [e|[|]]; [discriminate | |].
  - exists (set_first o first). split; [exact Hs' | congruence].
  - apply (search_rest_returns generator _ t Hs' H).
Qed.

(** The string of an array of shape (9, 9, 9) has 81 characters, all of
    them digits from 1 to 9. *)
Lemma printed_complete (R : cube) : shape9 R -> complete (_np_puzzle_to_string R).
Proof.
  intros Hs. destruct (argmax_plus1_rows R Hs) as [Hlen Hrows].
  assert (Hbytes : np_array_byte (list_ascii_of_string (_np_puzzle_to_string R))
                   = inr (concat (argmax_plus1 R))).
  { unfold _np_puzzle_to_string. apply np_array_byte_join.
    intros v. apply argmax_plus1_range. exact Hs. }
  split.
  - rewrite <- length_list_ascii_of_string, <- (np_array_byte_length _ _ Hbytes).
    rewrite length_concat9, Hlen by auto. reflexivity.
  - intros ch Hin. apply list_elem_of_In, list_elem_of_lookup in Hin. destruct Hin as [i Hi].
    destruct (np_array_byte_lookup _ _ i ch Hbytes Hi) as (v & Hv & Hvi).
    assert (Hrange : (1 <= v <= 9)%Z).
    { apply (argmax_plus1_range R v Hs). apply list_elem_of_In, list_elem_of_lookup. eauto. }
    split.
    + rewrite int_of_char_digit in Hv. destruct (is_digit ch); [reflexivity | discriminate].
    + intros ->. change (int_of_char "0"%char) with (Some 0%Z) in Hv. injection Hv as <-. lia.
Qed.

(** X9: every string [solve] returns, on whatever input and by whichever
    of its three return statements, has 81 characters, each a digit from
    1 to 9: a returned grid never shows a blank. *)
Theorem solve_returns_complete (s : string) (m : Z) (t : string) :
  solve s m = Returned t -> complete t.
Proof.
  intros H. unfold solve in H.
  destruct (_string_to_np_puzzle s) as [e|[p o]] eqn:Hparse; [discriminate|].
  pose proof (solve_loop_exits s p o Hparse) as Hex.
  destruct (propagate loop_fuel p o) as [p' o' | o' |]; [| |discriminate].
  - destruct Hex as [(Hs & _ & _) _].
    destruct (budget_gate o' m); [| discriminate |].
    + assert (t = _np_puzzle_to_string o') by congruence. subst t.
      apply printed_complete. exact Hs.
    + destruct (search_returns p' o' t Hs H) as (R & HsR & ->).
      apply printed_complete. exact HsR.
  - destruct Hex as (Hs & _ & _).
    assert (t = _np_puzzle_to_string o') by congruence. subst t.
    apply printed_complete. exact Hs.
Qed.

Lemma solve_returns_complete_witness : complete solved_grid.
Proof.
  apply (solve_returns_complete two_solutions_grid default_max_iterations).
  vm_compute. reflexivity.
Defined.

(** ** The iteration budget *)

Lemma budget_gate_monotone (o : cube) (m m' : Z) :
  (m <= m')%Z -> budget_gate o m <> OverBudget -> budget_gate o m' = budget_gate o m.
Proof.
  intros Hle. unfold budget_gate. cbv zeta.
  destruct (num_possibilities o =? 1)%Z; [reflexivity|].
  destruct (num_possibilities o <? 0)%Z eqn:N; rewrite ?orb_true_r; [congruence|].
  rewrite !orb_false_r.
  destruct (Z.geb_spec (num_possibilities o) m); [congruence|].
  destruct (Z.geb_spec (num_possibilities o) m'); [lia | reflexivity].
Qed.

(** X10: the budget only decides whether [solve] gives up: when a call
    does not abort, the call with any larger [max_iterations] ends the
    same way, with the same string. *)
Theorem solve_budget_monotone (s : string) (m m' : Z) :
  (m <= m')%Z -> solve s m <> Aborted -> solve s m' = solve s m.
Proof.
  intros Hle Hna. unfold solve in *.
  destruct (_string_to_np_puzzle s) as [e|[p o]]; [reflexivity|].
  destruct (propagate loop_fuel p o) as [p' o' | o' |]; try reflexivity.
  rewrite (budget_gate_monotone o' m m' Hle); [reflexivity|].
  intros E. rewrite E in Hna. congruence.
Qed.

Lemma solve_budget_monotone_witness :
  solve two_solutions_grid default_max_iterations = solve two_solutions_grid 17.
Proof.
  apply solve_budget_monotone.
  - vm_compute. discriminate.
  - vm_compute. discriminate.
Defined.

(** ** The number of combinations the generator yields *)

Section CombinationCount.

Context {A : Type} (eqb : A -> A -> bool).

Lemma length_product (iterables : list (list A)) :
  length (product iterables) = product_size iterables.
Proof.
  induction iterables as [|l rest IH]; [reflexivity|].
  cbn [product product_size fold_right]. fold (product_size rest). rewrite <- IH.
  induction l as [|x l IHl]; [reflexivity|].
  cbn [flat_map]. rewrite length_app, length_map, IHl. simpl. lia.
Qed.

Lemma length_deltas (prev : list A) (combs : list (list A)) :
  length (deltas eqb prev combs) = length combs.
Proof.
  revert prev. induction combs as [|c combs IH]; intros prev; [reflexivity|].
  cbn [deltas length]. rewrite IH. reflexivity.
Qed.

Lemma product_size_zero (iterables : list (list A)) :
  product_size iterables = 0 <-> Exists (fun l => l = []) iterables.
Proof.
  induction iterables as [|l rest IH].
  - split; [discriminate | intros H; inversion H].
  - cbn [product_size fold_right]. fold (product_size rest). rewrite Exists_cons, <- IH.
    destruct l as [|x l]; simpl; [tauto|]. split; [intros H; right; nia|].
    intros [H|H]; [discriminate | nia].
Qed.

(** X11: [_unique_combinations] yields as many elements as the Cartesian
    product has combinations, the product of the lengths of the
    iterables; when one iterable is empty it yields nothing and ends with
    the RuntimeError of the failed [next]. *)
Theorem unique_combinations_count (iterables : list (list A)) :
  match _unique_combinations eqb iterables with
  | inr yields => length yields = product_size iterables
                  /\ Forall (fun l => l <> []) iterables
  | inl e => e = RuntimeError /\ Exists (fun l => l = []) iterables
  end.
Proof.
  unfold _unique_combinations. pose proof (length_product iterables) as Hlen.
  destruct (product iterables) as [|comb rest].
  - split; [reflexivity|]. apply product_size_zero. simpl in Hlen. lia.
  - split.
    + cbn [length]. rewrite length_deltas. exact Hlen.
    + apply Forall_forall. intros l Hin ->.
      assert (H0 : product_size iterables = 0).
      { apply product_size_zero. apply Exists_exists. eauto. }
      simpl in Hlen. lia.
Qed.

End CombinationCount.

(** ** The end of the propagation loop *)

Lemma propagate_more_fuel (fuel k : nat) (p : grid) (o : cube) :
  propagate fuel p o <> OutOfFuel -> propagate (fuel + k) p o = propagate fuel p o.
Proof.
  revert p o. induction fuel as [|fuel IH]; intros p o H; [simpl in H; congruence|].
  change (S fuel + k) with (S (fuel + k)). rewrite !propagate_succ in *.
  destruct (grid_eqb (puzzle_of (propagate_pass p o)) p); [reflexivity|].
  destruct (Zsum (concat (puzzle_of (propagate_pass p o))) =? 9 * 45)%Z; [reflexivity|].
  apply IH. exact H.
Qed.

(** X12: the [while True] loop of [solve] ends on every accepted string
    within 730 passes: it is left by the break or by the return, and
    further passes would not be run. *)
Theorem propagation_terminates (s : string) (p : grid) (o : cube) (k : nat) :
  _string_to_np_puzzle s = inr (p, o) ->
  propagate loop_fuel p o <> OutOfFuel
  /\ propagate (loop_fuel + k) p o = propagate loop_fuel p o.
Proof.
  intros Hparse. pose proof (solve_loop_exits s p o Hparse) as Hex.
  assert (Hne : propagate loop_fuel p o <> OutOfFuel).
  { intros E. rewrite E in Hex. exact Hex. }
  split; [exact Hne|]. apply propagate_more_fuel. exact Hne.
Qed.

Lemma propagation_terminates_witness :
  propagate loop_fuel (puzzle_of_string two_solutions_grid)
    (options_of_string two_solutions_grid) <> OutOfFuel
  /\ propagate (loop_fuel + 1) (puzzle_of_string two_solutions_grid)
       (options_of_string two_solutions_grid)
     = propagate loop_fuel (puzzle_of_string two_solutions_grid)
         (options_of_string two_solutions_grid).
Proof.
  apply (propagation_terminates two_solutions_grid). vm_compute. reflexivity.
Defined.

Lemma get3_eliminate_touch (o : cube) (cell : nat * nat * Z) (r c d : nat) :
  shape9 o -> r < 9 -> c < 9 -> d < 9 ->
  get3 (eliminate o cell) r c d = default (get3 o r c d) (touch cell r c d).
Proof.
  destruct cell as [[r0 c0] v]. intros Hs Hr Hc Hd.
  rewrite get3_eliminate by auto. unfold touch. cbv zeta.
  destruct ((r =? r0) && (c =? c0) && (d =? Z.to_nat (v - 1))); [reflexivity|].
  destruct (d =? Z.to_nat (v - 1)); rewrite ?andb_false_r, ?andb_true_r; [|reflexivity].
  destruct (in_box (r0 / 3) (c0 / 3) r c); [reflexivity|].
  destruct (c =? c0); [reflexivity|]. destruct (r =? r0); reflexivity.
Qed.

Lemma shape9_fold_eliminate (cells : list (nat * nat * Z)) (o : cube) :
  shape9 o -> shape9 (fold_left eliminate cells o).
Proof.
  revert o. induction cells as [|cell cells IH]; intros o Hs; [exact Hs|].
  apply IH, shape9_eliminate, Hs.
Qed.

(** An entry after a pass: the last write into it, or the entry the pass
    started from. *)
Lemma get3_fold_eliminate (cells : list (nat * nat * Z)) (o : cube) (r c d : nat) :
  shape9 o -> r < 9 -> c < 9 -> d < 9 ->
  get3 (fold_left eliminate cells o) r c d
  = default (get3 o r c d) (last_touch cells r c d).
Proof.
  revert o. induction cells as [|cell cells IH]; intros o Hs Hr Hc Hd; [reflexivity|].
  cbn [fold_left last_touch]. rewrite IH by (auto using shape9_eliminate).
  destruct (last_touch cells r c d); [reflexivity|].
  apply get3_eliminate_touch; auto.
Qed.

(** A pass repeated with the same known cells changes nothing. *)
Lemma propagate_pass_idempotent (p : grid) (o : cube) :
  shape9 o -> propagate_pass p (propagate_pass p o) = propagate_pass p o.
Proof.
  intros Hs. unfold propagate_pass.
  pose proof (shape9_fold_eliminate (known_cells p) o Hs) as Hs1.
  apply cube_ext; [apply shape9_fold_eliminate; exact Hs1 | exact Hs1 |].
  intros r c d Hr Hc Hd. rewrite (get3_fold_eliminate _ (fold_left _ _ _)) by auto.
  rewrite get3_fold_eliminate by auto.
  destruct (last_touch (known_cells p) r c d); reflexivity.
Qed.

Lemma propagate_break_inv (fuel : nat) (p : grid) (o : cube) (p' : grid) (o' : cube) :
  loop_inv p o -> propagate fuel p o = Break p' o' ->
  exists o0, shape9 o0 /\ o' = propagate_pass p' o0 /\ puzzle_of o' = p'.
Proof.
  revert p o. induction fuel as [|fuel IH]; intros p o Hinv H; [discriminate|].
  rewrite propagate_succ in H.
  destruct (loop_step p o Hinv) as (Hinv' & _ & _).
  unfold grid_eqb in H.
  destruct (bool_decide_reflect (puzzle_of (propagate_pass p o) = p)) as [E|E].
  - exists o. assert (Ho : o' = propagate_pass p o) by congruence.
    assert (Hp : p' = puzzle_of (propagate_pass p o)) by congruence.
    split; [apply Hinv|]. rewrite Hp, Ho, E. split; reflexivity.
  - destruct (Zsum (concat (puzzle_of (propagate_pass p o))) =? 9 * 45)%Z; [discriminate|].
    apply (IH _ _ Hinv' H).
Qed.

(** X13: when the loop is left by its break, the candidate array is a
    fixed point of the elimination: one more pass over the known cells of
    the final grid would change no entry, although the loop compares the
    digit grids only. *)
Theorem break_is_fixed_point (s : string) (p : grid) (o : cube) (p' : grid) (o' : cube) :
  _string_to_np_puzzle s = inr (p, o) ->
  propagate loop_fuel p o = Break p' o' ->
  propagate_pass p' o' = o' /\ puzzle_of o' = p'.
Proof.
  intros Hparse Hloop.
  destruct (propagate_break_inv loop_fuel p o p' o'
              (_string_to_np_puzzle_inv s p o Hparse) Hloop) as (o0 & Hs0 & Ho & Hp).
  split; [|exact Hp]. rewrite Ho. apply propagate_pass_idempotent. exact Hs0.
Qed.

Lemma break_is_fixed_point_witness :
  propagate_pass (fst (break_state two_solutions_grid)) (snd (break_state two_solutions_grid))
  = snd (break_state two_solutions_grid)
  /\ puzzle_of (snd (break_state two_solutions_grid)) = fst (break_state two_solutions_grid).
Proof.
  apply (break_is_fixed_point two_solutions_grid (puzzle_of_string two_solutions_grid)
           (options_of_string two_solutions_grid)).
  - vm_compute. reflexivity.
  - vm_compute. reflexivity.
Defined.

(** ** Strings that come out of the enumeration *)

Lemma search_sound (p : grid) (o : cube) (t : string) :
  loop_inv p o -> search p o = Returned t ->
  exists R, t = _np_puzzle_to_string R /\ solution R /\ bounded_by o R.
Proof.
  intros Hinv H. assert (Hinv' := Hinv). destruct Hinv' as (Hs & Hi & Hp).
  destruct (options_idx p o) as [e|lists] eqn:Hopt.
  { unfold search in H. rewrite Hopt in H. discriminate. }
  rewrite (search_finds_first_valid p o lists Hinv Hopt) in H.
  destruct (first_valid o (product lists)) as [comb|] eqn:F; [|discriminate].
  unfold first_valid in F. apply find_some in F. destruct F as [Hin Hv].
  exists (write_all o comb). split; [congruence|].
  destruct (combination_written p o _ comb Hinv Hopt Hin) as (Hsw & Hcw & Hbw).
  split; [|exact Hbw].
  pose proof (indicator_bounded o _ Hi Hbw) as Hiw.
  split; [exact Hsw|]. split.
  - split; [exact Hiw|]. intros r c Hr Hc. apply Nat2Z.inj.
    rewrite <- indicator_digits_set by auto. apply Hcw; auto.
  - unfold validates in Hv. destruct (validate_solution (write_all o comb)) as [e|[|]];
      congruence.
Qed.

(** X14: on any accepted input, solvable or not, a string that [solve]
    returns from the enumeration (the loop left by its break, the count
    past the two tests) is the string of an array that has one digit per
    cell, passes [validate_solution] and lies inside the parsed candidate
    array: the enumeration never returns an unchecked grid. *)
Theorem solve_enumeration_sound (s : string) (m : Z) (p : grid) (o : cube)
        (p' : grid) (o' : cube) (t : string) :
  _string_to_np_puzzle s = inr (p, o) ->
  propagate loop_fuel p o = Break p' o' ->
  budget_gate o' m = Enumerate ->
  solve s m = Returned t ->
  exists R, t = _np_puzzle_to_string R /\ solution R /\ bounded_by o R.
Proof.
  intros Hparse Hloop Hgate Hret.
  rewrite (solve_after_break s m p o p' o' Hparse Hloop), Hgate in Hret.
  pose proof (solve_loop_exits s p o Hparse) as Hex. rewrite Hloop in Hex.
  destruct Hex as [Hinv Hbo].
  destruct (search_sound p' o' t Hinv Hret) as (R & Ht & Hsol & Hb).
  exists R. split; [exact Ht|]. split; [exact Hsol|].
  apply (bounded_trans o o'); auto.
Qed.

Lemma solve_enumeration_sound_witness :
  exists R, solved_grid = _np_puzzle_to_string R /\ solution R
            /\ bounded_by (options_of_string two_solutions_grid) R.
Proof.
  apply (solve_enumeration_sound two_solutions_grid default_max_iterations
           (puzzle_of_string two_solutions_grid) (options_of_string two_solutions_grid)
           (fst (break_state two_solutions_grid)) (snd (break_state two_solutions_grid))).
  - vm_compute. reflexivity.
  - vm_compute. reflexivity.
  - vm_compute. reflexivity.
  - vm_compute. reflexivity.
Defined.

(** ** The order and the number of the elements the generator yields *)

Section ProductOrder.

Context {A : Type}.

Lemma lookup_blocks (P : list (list A)) (l : list A) (k : nat) :
  k < length l * length P ->
  flat_map (fun x => map (cons x) P) l !! k
  = match l !! (k / length P), P !! (k mod length P) with
    | Some x, Some comb => Some (x :: comb)
    | _, _ => None
    end.
Proof.
  revert k. induction l as [|x l IH]; intros k Hk; [simpl in Hk; lia|].
  assert (Hn : length P <> 0) by (intros E; rewrite E in Hk; lia).
  cbn [flat_map]. destruct (Nat.lt_ge_cases k (length P)) as [Hlt|Hge].
  - rewrite lookup_app_l by (rewrite length_map; exact Hlt).
    rewrite Nat.div_small, Nat.mod_small by exact Hlt. cbn [lookup list_lookup].
    destruct (lookup_lt_is_Some_2 P k Hlt) as [comb Hc].
    rewrite Hc. apply (list_lookup_fmap_Some_2 (cons x)) in Hc. exact Hc.
  - rewrite lookup_app_r by (rewrite length_map; exact Hge). rewrite length_map.
    rewrite IH by (simpl in Hk; lia).
    assert (Hd : k / length P = S ((k - length P) / length P)).
    { transitivity ((1 * length P + (k - length P)) / length P); [f_equal; lia|].
      rewrite Nat.div_add_l by exact Hn. lia. }
    assert (Hm : k mod length P = (k - length P) mod length P).
    { transitivity (((k - length P) + 1 * length P) mod length P); [f_equal; lia|].
      apply Nat.Div0.mod_add. }
    rewrite Hd, Hm. reflexivity.
Qed.

(** [itertools.product] enumerates the combinations in the order of
    [nth_combination]. *)
Lemma product_lookup (iterables : list (list A)) (k : nat) :
  k < product_size iterables ->
  exists comb, nth_combination iterables k = Some comb
               /\ product iterables !! k = Some comb.
Proof.
  revert k. induction iterables as [|l rest IH]; intros k Hk.
  - simpl in Hk. assert (k = 0) by lia. subst k. exists []. split; reflexivity.
  - cbn [product_size fold_right] in Hk. fold (product_size rest) in Hk.
    assert (Hn : product_size rest <> 0) by (intros E; rewrite E in Hk; lia).
    cbn [product nth_combination]. rewrite lookup_blocks by (rewrite length_product; exact Hk).
    rewrite length_product.
    destruct (lookup_lt_is_Some_2 l (k / product_size rest)
                ltac:(apply Nat.Div0.div_lt_upper_bound; lia)) as [x Hx].
    destruct (IH (k mod product_size rest) ltac:(apply Nat.mod_upper_bound; exact Hn))
      as (comb & Hnth & Hprod).
    exists (x :: comb). rewrite Hx, Hnth, Hprod. split; reflexivity.
Qed.

End ProductOrder.

Lemma differences_differing_pairs (comb prev : list idx) :
  differences comb prev = differing_pairs idx_eqb comb prev.
Proof.
  unfold differences, differing_pairs.
  induction (seq 0 (length comb)) as [|i t IH]; [reflexivity|].
  cbn [omap list_omap]. fold (omap (pair_at idx_eqb comb prev) t). rewrite <- IH.
  unfold pair_at at 1. destruct (comb !! i) as [c|]; [|reflexivity].
  destruct (prev !! i) as [p|]; [|reflexivity].
  destruct (decide (c = p)) as [E|E].
  - rewrite (proj2 (idx_eqb_eq c p) E). reflexivity.
  - destruct (idx_eqb c p) eqn:B; [apply idx_eqb_eq in B; contradiction | reflexivity].
Qed.

Lemma nth_combination_heads {A : Type} (iterables : list (list A)) (comb : list A) :
  nth_combination iterables 0 = Some comb ->
  Forall2 (fun x l => head l = Some x) comb iterables.
Proof.
  revert comb. induction iterables as [|l rest IH]; intros comb H.
  - injection H as <-. constructor.
  - cbn [nth_combination] in H. rewrite Nat.Div0.div_0_l, Nat.Div0.mod_0_l in H.
    destruct (l !! 0) as [x|] eqn:Hx; [|discriminate].
    destruct (nth_combination rest 0) as [comb'|]; [|discriminate].
    injection H as <-. constructor; [|apply IH; reflexivity].
    destruct l; [discriminate|]. exact Hx.
Qed.

Lemma one_digit_per_cell (comb : list idx) (r c d1 d2 : nat) :
  NoDup (map cell_of comb) -> In (r, c, d1) comb -> In (r, c, d2) comb -> d1 = d2.
Proof.
  induction comb as [|x comb IH]; intros Hnd H1 H2; [destruct H1|].
  cbn [map] in Hnd. apply NoDup_cons in Hnd. destruct Hnd as [Hx Hnd].
  assert (Hcell : forall d, In (r, c, d) comb -> cell_of x <> (r, c)).
  { intros d Hin E. apply Hx. rewrite E. apply list_elem_of_In.
    change (r, c) with (cell_of (r, c, d)). apply in_map. exact Hin. }
  destruct H1 as [-> | H1], H2 as [E2 | H2].
  - congruence.
  - exfalso. apply (Hcell d2 H2). reflexivity.
  - exfalso. subst x. apply (Hcell d1 H1). reflexivity.
  - apply IH; auto.
Qed.

(** C7: for non-empty candidate lists of distinct cells the generator
    yields one element per combination of the Cartesian product, no more
    and no fewer.  The first element is the full initial assignment: one
    pair per list, without a retraction, holding the first candidate of
    that list.  Element [k + 1] is the list of the (previous, current)
    pairs at exactly the positions where combination [k + 1] differs from
    combination [k], the combinations being counted in the order of the
    plain product, rightmost position fastest ([nth_combination]).
    Applying the first [k + 1] elements in order leaves the array of
    combination [k]: in every cell of the lists the digit of that
    combination and no other, every other cell untouched. *)
Theorem unique_combinations_deltas (cells : list (nat * nat)) (lists : list (list idx))
        (o : cube) :
  shape9 o -> NoDup cells -> per_cell cells lists ->
  exists first generator comb0 combs,
    product lists = comb0 :: combs
    /\ _unique_combinations idx_eqb lists = inr (first :: generator)
    /\ first = map (fun c => (None, c)) comb0
    /\ (forall k prev comb,
          (comb0 :: combs) !! k = Some prev -> combs !! k = Some comb ->
          generator !! k = Some (differing_pairs idx_eqb comb prev))
    /\ (forall k comb,
          (comb0 :: combs) !! k = Some comb ->
          replay o (take (S k) (first :: generator)) = inr (set_first o (plain comb)))
    /\ length (first :: generator) = product_size lists
    /\ Forall2 (fun pc l => fst pc = None /\ head l = Some (snd pc)) first lists
    /\ (forall k, S k < product_size lists ->
          exists prev comb,
            nth_combination lists k = Some prev
            /\ nth_combination lists (S k) = Some comb
            /\ generator !! k = Some (differences comb prev))
    /\ (forall k, k < product_size lists ->
          exists comb R,
            nth_combination lists k = Some comb
            /\ replay o (take (S k) (first :: generator)) = inr R
            /\ forall r c d, r < 9 -> c < 9 -> d < 9 ->
                 (forall d0, In (r, c, d0) comb ->
                    get3 R r c d = if d =? d0 then 1%Z else 0%Z)
                 /\ (~ In (r, c) cells -> get3 R r c d = get3 o r c d)).
Proof.
  intros Hs Hnd Hper.
  destruct (unique_combinations_replay cells lists o Hs Hnd Hper)
    as (first & generator & comb0 & combs & Hprod & Hgen & Hfirst & Hdelta & Hreplay).
  exists first, generator, comb0, combs.
  assert (Hlen : length (first :: generator) = product_size lists).
  { assert (Hg : first :: generator = plain comb0 :: deltas idx_eqb comb0 combs).
    { unfold _unique_combinations in Hgen. rewrite Hprod in Hgen.
      injection Hgen as E1 E2. unfold plain. congruence. }
    rewrite Hg. cbn [length]. rewrite length_deltas, <- length_product, Hprod. reflexivity. }
  assert (Hnth : forall k, k < product_size lists ->
            exists comb, nth_combination lists k = Some comb
                         /\ (comb0 :: combs) !! k = Some comb).
  { intros k Hk. rewrite <- Hprod. apply product_lookup. exact Hk. }
  do 5 (split; [assumption|]). split; [exact Hlen|]. split; [|split].
  - destruct (Hnth 0) as (comb & Hn0 & H0).
    { rewrite <- Hlen. simpl. lia. }
    injection H0 as <-. apply nth_combination_heads in Hn0.
    rewrite Hfirst. clear -Hn0. induction Hn0; constructor; auto.
  - intros k Hk.
    destruct (Hnth k ltac:(lia)) as (prev & Hnp & Hp).
    destruct (Hnth (S k) Hk) as (comb & Hnc & Hc).
    exists prev, comb. split; [exact Hnp|]. split; [exact Hnc|].
    rewrite differences_differing_pairs. apply Hdelta; auto.
  - intros k Hk. destruct (Hnth k Hk) as (comb & Hnc & Hc).
    exists comb, (set_first o (plain comb)). split; [exact Hnc|].
    split; [apply Hreplay; exact Hc|].
    assert (Hcells : map cell_of comb = cells).
    { apply (product_cells cells lists); auto. rewrite Hprod.
      apply list_elem_of_In, list_elem_of_lookup. eauto. }
    intros r c d Hr Hc' Hd. rewrite set_first_plain, get3_write_all by auto. split.
    + intros d0 Hin.
      destruct (written_in comb r c) as [d' Hw].
      { change (r, c) with (cell_of (r, c, d0)). apply in_map. exact Hin. }
      rewrite Hw. apply written_some in Hw.
      rewrite (one_digit_per_cell comb r c d0 d') by (auto; rewrite Hcells; exact Hnd).
      reflexivity.
    + intros Hnot. rewrite written_none by (rewrite Hcells; exact Hnot). reflexivity.
Qed.

(** Two cells with two candidates each, on the array of the empty grid. *)
Lemma unique_combinations_deltas_witness :
  exists first generator comb0 combs,
    product [[(0, 0, 1); (0, 0, 4)]; [(3, 5, 0); (3, 5, 8)]] = comb0 :: combs
    /\ _unique_combinations idx_eqb [[(0, 0, 1); (0, 0, 4)]; [(3, 5, 0); (3, 5, 8)]]
       = inr (first :: generator)
    /\ first = map (fun c => (None, c)) comb0
    /\ (forall k prev comb,
          (comb0 :: combs) !! k = Some prev -> combs !! k = Some comb ->
          generator !! k = Some (differing_pairs idx_eqb comb prev))
    /\ (forall k comb,
          (comb0 :: combs) !! k = Some comb ->
          replay zeros (take (S k) (first :: generator))
          = inr (set_first zeros (plain comb)))
    /\ length (first :: generator)
       = product_size [[(0, 0, 1); (0, 0, 4)]; [(3, 5, 0); (3, 5, 8)]]
    /\ Forall2 (fun pc l => fst pc = None /\ head l = Some (snd pc)) first
         [[(0, 0, 1); (0, 0, 4)]; [(3, 5, 0); (3, 5, 8)]]
    /\ (forall k, S k < product_size [[(0, 0, 1); (0, 0, 4)]; [(3, 5, 0); (3, 5, 8)]] ->
          exists prev comb,
            nth_combination [[(0, 0, 1); (0, 0, 4)]; [(3, 5, 0); (3, 5, 8)]] k = Some prev
            /\ nth_combination [[(0, 0, 1); (0, 0, 4)]; [(3, 5, 0); (3, 5, 8)]] (S k)
               = Some comb
            /\ generator !! k = Some (differences comb prev))
    /\ (forall k, k < product_size [[(0, 0, 1); (0, 0, 4)]; [(3, 5, 0); (3, 5, 8)]] ->
          exists comb R,
            nth_combination [[(0, 0, 1); (0, 0, 4)]; [(3, 5, 0); (3, 5, 8)]] k = Some comb
            /\ replay zeros (take (S k) (first :: generator)) = inr R
            /\ forall r c d, r < 9 -> c < 9 -> d < 9 ->
                 (forall d0, In (r, c, d0) comb ->
                    get3 R r c d = if d =? d0 then 1%Z else 0%Z)
                 /\ (~ In (r, c) [(0, 0); (3, 5)] -> get3 R r c d = get3 zeros r c d)).
Proof.
  apply (unique_combinations_deltas [(0, 0); (3, 5)]).
  - exact shape9_zeros.
  - apply (bool_decide_unpack _). vm_compute. exact I.
  - repeat constructor; try discriminate;
      intros x Hx; simpl in Hx; intuition (subst; reflexivity).
Defined.
